(** * Causal-effect estimators of [testbed.py]: a shallow embedding

    The Python module estimates the average treatment effect on the treated
    (ATT) by synthetic controls, by nearest-neighbour matching (with and
    without replacement) and by an interacted OLS regression.  This file
    embeds those functions and proves the properties listed in the
    specification.

    Conventions of the embedding.
    - A NumPy [float64] is a value of [float]: an exact rational, one of the
      two infinities, or NaN.  Arithmetic follows IEEE 754 on the special
      values and is exact on the rationals: rounding, overflow and signed
      zeros are not modelled.  Every finite result is kept in lowest terms,
      so that equal numbers are equal terms.
    - A 1-D array is a list, a 2-D array is the list of its rows; an array of
      shape (0, k) is the empty list (its column count is not tracked).
    - A Python exception is a value [Err e]; the functions live in a state
      and error monad over a store of arrays and the standard output.
    - Calls into statsmodels and numpy.linalg are parameters of the
      development (section [Estimators]). *)

From Stdlib Require Import QArith Qreduction Qabs ZArith Lia.
From stdpp Require Import base list strings.

Local Open Scope nat_scope.

(** ** Floating-point values *)

Inductive float : Type :=
| NaN
| PInf
| NInf
| Fin (q : Q).

Definition is_nan (x : float) : bool :=
  match x with NaN => true | _ => false end.

Definition is_fin (x : float) : bool :=
  match x with Fin _ => true | _ => false end.

(** Sign of a rational, as a [comparison] with zero. *)
Definition Qsign (q : Q) : comparison := (Qnum q ?= 0)%Z.

Definition finf (neg : bool) : float := if neg then NInf else PInf.

Definition fneg (x : float) : float :=
  match x with
  | NaN => NaN
  | PInf => NInf
  | NInf => PInf
  | Fin q => Fin (Qred (- q))
  end.

Definition fadd (x y : float) : float :=
  match x, y with
  | NaN, _ | _, NaN => NaN
  | PInf, NInf | NInf, PInf => NaN
  | PInf, _ | _, PInf => PInf
  | NInf, _ | _, NInf => NInf
  | Fin a, Fin b => Fin (Qred (a + b))
  end.

Definition fsub (x y : float) : float :=
  match x, y with
  | NaN, _ | _, NaN => NaN
  | PInf, PInf | NInf, NInf => NaN
  | PInf, _ | _, NInf => PInf
  | NInf, _ | _, PInf => NInf
  | Fin a, Fin b => Fin (Qred (a - b))
  end.

(** Product of an infinity (negative when [neg]) with a finite [q]. *)
Definition inf_times (neg : bool) (q : Q) : float :=
  match Qsign q with
  | Eq => NaN
  | Gt => finf neg
  | Lt => finf (negb neg)
  end.

Definition fmul (x y : float) : float :=
  match x, y with
  | NaN, _ | _, NaN => NaN
  | PInf, PInf | NInf, NInf => PInf
  | PInf, NInf | NInf, PInf => NInf
  | PInf, Fin q | Fin q, PInf => inf_times false q
  | NInf, Fin q | Fin q, NInf => inf_times true q
  | Fin a, Fin b => Fin (Qred (a * b))
  end.

(** Division; a finite non-zero value over zero is an infinity and [0/0]
    is NaN, as NumPy computes them (with a warning). *)
Definition fdiv (x y : float) : float :=
  match x, y with
  | NaN, _ | _, NaN => NaN
  | (PInf | NInf), (PInf | NInf) => NaN
  | PInf, Fin q => match Qsign q with Lt => NInf | _ => PInf end
  | NInf, Fin q => match Qsign q with Lt => PInf | _ => NInf end
  | Fin _, (PInf | NInf) => Fin 0
  | Fin a, Fin b =>
      match Qsign b with
      | Eq => match Qsign a with Eq => NaN | Gt => PInf | Lt => NInf end
      | _ => Fin (Qred (a / b))
      end
  end.

Definition fabs (x : float) : float :=
  match x with
  | NaN => NaN
  | PInf | NInf => PInf
  | Fin q => Fin (Qred (Qabs q))
  end.

(** IEEE comparison: [None] when one side is NaN. *)
Definition fcmp (x y : float) : option comparison :=
  match x, y with
  | NaN, _ | _, NaN => None
  | PInf, PInf | NInf, NInf => Some Eq
  | PInf, _ | _, NInf => Some Gt
  | NInf, _ | _, PInf => Some Lt
  | Fin a, Fin b => Some (a ?= b)%Q
  end.

Definition fge (x y : float) : bool :=
  match fcmp x y with Some (Gt | Eq) => true | _ => false end.

Definition fle (x y : float) : bool :=
  match fcmp x y with Some (Lt | Eq) => true | _ => false end.

Definition flt (x y : float) : bool :=
  match fcmp x y with Some Lt => true | _ => false end.

Definition of_Z (z : Z) : float := Fin (inject_Z z).
Definition of_nat (n : nat) : float := of_Z (Z.of_nat n).

Abbreviation vector := (list float).
Abbreviation matrix := (list (list float)).

(** ** Exceptions *)

Inductive exn : Type :=
| ValueError
| IndexError
| TypeError
| LinAlgError
| FitError.

Inductive result (A : Type) : Type :=
| Ok (a : A)
| Err (e : exn).
Arguments Ok {A} a.
Arguments Err {A} e.

#[global] Instance result_ret : MRet result := @Ok.
#[global] Instance result_bind : MBind result := fun A B f r =>
  match r with Ok a => f a | Err e => Err e end.

(** ** Array helpers *)

Definition fsum (v : vector) : float := foldr fadd (Fin 0) v.

(** [a.mean()] *)
Definition mean (v : vector) : float := fdiv (fsum v) (of_nat (length v)).

Definition vsub (a b : vector) : vector := zip_with fsub a b.
Definition vmul (a b : vector) : vector := zip_with fmul a b.

(** Sum of the products of two 1-D arrays of equal length. *)
Definition dotp (a b : vector) : float := fsum (vmul a b).

(** [np.dot(a, b)] on 1-D arrays: the lengths must agree. *)
Definition dot (a b : vector) : result float :=
  if decide (length a = length b) then Ok (dotp a b) else Err ValueError.

(** [np.dot(A, v)] for a 2-D [A] and a 1-D [v]. *)
Definition dot_mv (A : matrix) (v : vector) : result vector :=
  mapM (fun r => dot r v) A.

(** Squared Euclidean norm of [A w - b]. *)
Definition residual (A : matrix) (w b : vector) : float :=
  fsum (map (fun x => fmul x x) (vsub (map (fun r => dotp r w) A) b)).

Definition ncols (X : matrix) : nat :=
  match X with [] => 0 | r :: _ => length r end.

Definition entry (r : vector) (j : nat) : float := default NaN (r !! j).

Definition column (X : matrix) (j : nat) : vector :=
  map (fun r => entry r j) X.

(** [X.T] *)
Definition transpose (X : matrix) : matrix :=
  map (column X) (seq 0 (ncols X)).

(** [A.dot(W)] for 2-D arrays: every row of [A] must be as long as [W] has
    rows. *)
Definition dot_mm (A W : matrix) : result matrix :=
  mapM (fun r =>
          if decide (length r = length W)
          then Ok (map (fun j => dotp r (column W j)) (seq 0 (ncols W)))
          else Err ValueError) A.

(** [a[i]] *)
Definition index {A} (l : list A) (i : nat) : result A :=
  match l !! i with Some x => Ok x | None => Err IndexError end.

(** The rows of [l] selected by a Boolean mask. *)
Fixpoint compress {A} (b : list bool) (l : list A) : list A :=
  match b, l with
  | c :: b', x :: l' => if c then x :: compress b' l' else compress b' l'
  | _, _ => []
  end.

(** [a[b]] for a Boolean array [b]: a new array; the lengths must agree. *)
Definition bool_index {A} (l : list A) (b : list bool) : result (list A) :=
  if decide (length l = length b) then Ok (compress b l) else Err IndexError.

(** [a[idx]] for an integer array [idx]: a new array. *)
Definition take_idx {A} (l : list A) (idx : list nat) : result (list A) :=
  mapM (index l) idx.

(** [D == c] *)
Definition eqz (D : list Z) (c : Z) : list bool := map (fun d => (d =? c)%Z) D.

(** Python's [sum(D)] *)
Definition sumZ (D : list Z) : Z := foldr Z.add 0%Z D.

(** [p[-k:]]: the last [k] entries, and the whole array when [k] is [0] or
    exceeds the length. *)
Definition slice_last {A} (k : nat) (p : list A) : list A :=
  if decide (k = 0) then p else drop (length p - k) p.

(** [np.cov(X, rowvar=0)]: the columns of [X] are the variables; each is
    centred on its mean and the cross products are divided by [N - 1]. *)
Definition cov (X : matrix) : matrix :=
  let cen := map (fun c => map (fun x => fsub x (mean c)) c) (transpose X) in
  let fact := of_Z (Z.of_nat (length X) - 1) in
  map (fun a => map (fun b => fdiv (dotp a b) fact) cen) cen.

(** [a.argmin()]: the first index of the least entry, a NaN counting as
    least; the scan keeps the running minimum [mp] and its index. *)
Fixpoint argmin_scan (mp : float) (min_ind i : nat) (a : vector) : nat :=
  match a with
  | [] => min_ind
  | x :: a' =>
      if is_nan mp then min_ind
      else if negb (fge x mp) then argmin_scan x i (S i) a'
           else argmin_scan mp min_ind (S i) a'
  end.

Definition argmin (a : vector) : result nat :=
  match a with
  | [] => Err ValueError
  | x :: a' => Ok (argmin_scan x 0 1 a')
  end.

(** [np.nanargmin(a)]: NaN entries are replaced by [+inf] before the scan;
    an array of NaNs only is refused. *)
Definition nanargmin (a : vector) : result nat :=
  res ← argmin (map (fun x => if is_nan x then PInf else x) a);
  if forallb is_nan a then Err ValueError else Ok res.

(** ** The store *)

Inductive ndarray : Type :=
| FloatArr (v : vector)
| IntArr (v : list Z)
| FloatMat (m : matrix).

Abbreviation loc := nat (only parsing).

Record state : Type := mkState { heap : list ndarray; stdout : list string }.

Definition M (A : Type) : Type := state -> result A * state.

#[global] Instance M_ret : MRet M := fun A a s => (Ok a, s).
#[global] Instance M_bind : MBind M := fun A B f m s =>
  match m s with
  | (Ok a, s') => f a s'
  | (Err e, s') => (Err e, s')
  end.

Definition lift {A} (r : result A) : M A := fun s => (r, s).

Definition load_vec (l : loc) : M vector := fun s =>
  match heap s !! l with
  | Some (FloatArr v) => (Ok v, s)
  | _ => (Err TypeError, s)
  end.

Definition load_int (l : loc) : M (list Z) := fun s =>
  match heap s !! l with
  | Some (IntArr v) => (Ok v, s)
  | _ => (Err TypeError, s)
  end.

Definition load_mat (l : loc) : M matrix := fun s =>
  match heap s !! l with
  | Some (FloatMat m) => (Ok m, s)
  | _ => (Err TypeError, s)
  end.

(** A new array object. *)
Definition alloc (a : ndarray) : M loc := fun s =>
  (Ok (length (heap s)), mkState (heap s ++ [a]) (stdout s)).

(** [X[j] = np.nan]: every entry of row [j] is overwritten in place. *)
Definition set_row_nan (l : loc) (j : nat) : M unit := fun s =>
  match heap s !! l with
  | Some (FloatMat m) =>
      match m !! j with
      | Some r =>
          (Ok (), mkState (<[l := FloatMat (<[j := replicate (length r) NaN]> m)]> (heap s))
                          (stdout s))
      | None => (Err IndexError, s)
      end
  | _ => (Err TypeError, s)
  end.

Definition print (line : string) : M unit := fun s =>
  (Ok (), mkState (heap s) (stdout s ++ [line])).

(** [for i in l: s = body(i, s)] *)
Fixpoint for_range `{MBind F, MRet F} {S} (l : list nat)
    (body : nat -> S -> F S) (s : S) : F S :=
  match l with
  | [] => mret s
  | i :: l' => s' ← body i s; for_range l' body s'
  end.

(** ** Stand-ins for the library calls

    The estimators call [sm.Logit], [sm.OLS], [np.linalg.lstsq],
    [np.linalg.inv] and [np.argsort].  The development is parametric in
    them; the exact-arithmetic versions below are used to run the
    estimators on concrete data. *)

Module Ref.

Definition Qrow := list Q.

Definition Qnth (r : Qrow) (c : nat) : Q := nth c r 0%Q.

(** First row of [todo] with a non-zero entry in column [c]. *)
Fixpoint pick (c : nat) (todo : list Qrow) : option (Qrow * list Qrow) :=
  match todo with
  | [] => None
  | r :: t =>
      if Qeq_bool (Qnth r c) 0 then
        match pick c t with
        | Some (p, t') => Some (p, r :: t')
        | None => None
        end
      else Some (r, t)
  end.

Definition scale (a : Q) (r : Qrow) : Qrow := map (fun x => Qred (x * a)) r.

Definition elim (c : nat) (p r : Qrow) : Qrow :=
  zip_with (fun x y => Qred (x - Qnth r c * y)) r p.

(** Gauss-Jordan elimination on an augmented matrix, column by column. *)
Fixpoint gauss_jordan (cols : list nat) (done todo : list Qrow)
  : option (list Qrow) :=
  match cols with
  | [] => Some done
  | c :: cs =>
      match pick c todo with
      | None => None
      | Some (p, t) =>
          let p' := scale (/ Qnth p c) p in
          gauss_jordan cs (map (elim c p') done ++ [p']) (map (elim c p') t)
      end
  end.

Definition to_Q (x : float) : option Q :=
  match x with Fin q => Some q | _ => None end.

Definition to_Qrows (X : matrix) : option (list Qrow) :=
  mapM (mapM to_Q) X.

Definition of_Qrows (X : list Qrow) : matrix :=
  map (map (fun q => Fin (Qred q))) X.

Definition unit_row (n i : nat) : Qrow :=
  map (fun j => if decide (i = j) then 1%Q else 0%Q) (seq 0 n).

Definition is_square (n : nat) (X : matrix) : bool :=
  bool_decide (length X = n) && forallb (fun r => bool_decide (length r = n)) X.

(** Exact inverse of a square matrix of rationals. *)
Definition inv (V : matrix) : result matrix :=
  let n := length V in
  if is_square n V then
    match to_Qrows V with
    | None => Err LinAlgError
    | Some rows =>
        let aug := imap (fun i r => r ++ unit_row n i) rows in
        match gauss_jordan (seq 0 n) [] aug with
        | Some sol =>
            let W := of_Qrows (map (drop n) sol) in
            if is_square n W then Ok W else Err LinAlgError
        | None => Err LinAlgError
        end
    end
  else Err LinAlgError.

(** Solution of the square system [G z = b]. *)
Definition solve (G : list Qrow) (b : Qrow) : option Qrow :=
  let n := length G in
  match gauss_jordan (seq 0 n) [] (zip_with (fun r y => r ++ [y]) G b) with
  | Some sol => Some (map (fun r => Qnth r n) sol)
  | None => None
  end.

Definition Qdot (a b : Qrow) : Q := foldr Qplus 0%Q (zip_with Qmult a b).

Definition Qcolumn (A : list Qrow) (j : nat) : Qrow := map (fun r => Qnth r j) A.

Definition Qtranspose (n : nat) (A : list Qrow) : list Qrow :=
  map (Qcolumn A) (seq 0 n).

(** Coefficients of the least-squares fit of [y] on a constant and the
    columns of [A], the constant first; refused when the normal equations
    are singular. *)
Definition OLS_params (y : vector) (A : matrix) : result vector :=
  match mapM to_Q y, to_Qrows A with
  | Some yq, Some rows =>
      let design := map (fun r => 1%Q :: r) rows in
      let cols := Qtranspose (S (ncols A)) design in
      let G := map (fun a => map (fun b => Qdot a b) cols) cols in
      match solve G (map (fun a => Qdot a yq) cols) with
      | Some beta => Ok (map (fun q => Fin (Qred q)) beta)
      | None => Err LinAlgError
      end
  | _, _ => Err LinAlgError
  end.

Definition is_zero (x : float) : bool :=
  match x with Fin q => Qeq_bool q 0 | _ => false end.

(** A weight vector reproducing [b] exactly from the columns of [A]
    (minimum-norm solution [A^T (A A^T)^-1 b]); systems without an exact
    solution of that form are refused. *)
Definition lstsq (A : matrix) (b : vector) : result vector :=
  match to_Qrows A, mapM to_Q b with
  | Some rows, Some bq =>
      let G := map (fun r => map (fun r' => Qdot r r') rows) rows in
      match solve G bq with
      | Some z =>
          let w := map (fun q => Fin (Qred q))
                       (map (fun c => Qdot c z) (Qtranspose (ncols A) rows)) in
          if forallb (fun r => bool_decide (length r = ncols A)) A
             && bool_decide (length b = length A)
             && is_zero (residual A w b)
          then Ok w else Err LinAlgError
      | None => Err LinAlgError
      end
  | _, _ => Err LinAlgError
  end.

(** Stable insertion of index [i] into a list of indices ordered by the
    values they point to. *)
Fixpoint insert_by (v : vector) (i : nat) (l : list nat) : list nat :=
  match l with
  | [] => [i]
  | j :: l' =>
      if flt (entry v j) (entry v i) then j :: insert_by v i l' else i :: l
  end.

Definition argsort (v : vector) : list nat :=
  foldr (insert_by v) [] (seq 0 (length v)).

(** A propensity score without covariate effect: every unit gets the
    treated share of the sample. *)
Definition Logit_predict (D : list Z) (X : matrix) : result vector :=
  if decide (length D = length X) then
    Ok (map (fun _ => fdiv (of_Z (sumZ D)) (of_nat (length D))) X)
  else Err ValueError.

End Ref.

(** ** The estimators *)

Section Estimators.

(** [sm.Logit(D, X).fit(disp=False).predict()] *)
Variable Logit_predict : list Z -> matrix -> result vector.
(** [sm.OLS(y, sm.add_constant(A)).fit().params] *)
Variable OLS_params : vector -> matrix -> result vector.
(** [np.linalg.lstsq(A, b)[0]] *)
Variable lstsq : matrix -> vector -> result vector.
(** [np.linalg.inv(V)] *)
Variable inv : matrix -> result matrix.
(** [np.argsort(v)] *)
Variable argsort : vector -> list nat.

(** [Synthetic(Y_c, Y_t, X_c, X_t, return_individual)] *)
Definition Synthetic (Y_c Y_t : vector) (X_c X_t : matrix)
    (return_individual : bool) : result (float * option vector) :=
  let N_t := length Y_t in
  ITT ← for_range (seq 0 N_t)
          (fun i ITT =>
             x ← index X_t i;
             w ← lstsq (transpose X_c) x;
             y ← index Y_t i;
             wY ← dot w Y_c;
             Ok (<[i := fsub y wY]> ITT))
          (replicate N_t (Fin 0));
  if return_individual then Ok (mean ITT, Some ITT) else Ok (mean ITT, None).

(** [np.hstack((X, abs(X), X**2))] *)
Definition moments (X : matrix) : matrix :=
  map (fun r => r ++ map fabs r ++ map (fun x => fmul x x) r) X.

(** Body of [SyntheticEstimates] on the values of its arrays. *)
Definition SyntheticEstimates_on (higher_moments : bool)
    (Y : vector) (D : list Z) (X : matrix) : result float :=
  let control := eqz D 0 in
  let treated := eqz D 1 in
  X_control ← bool_index X control;
  X_treated ← bool_index X treated;
  Y_control ← bool_index Y control;
  Y_treated ← bool_index Y treated;
  r ← (if higher_moments
       then Synthetic Y_control Y_treated (moments X_control) (moments X_treated) false
       else Synthetic Y_control Y_treated X_control X_treated false);
  Ok (fst r).

(** [(dX**2).sum(axis=1)] *)
Definition euclid_dist (dX : matrix) : result vector :=
  Ok (map (fun r => fsum (map (fun x => fmul x x) r)) dX).

(** [(dX.dot(np.linalg.inv(V))*dX).sum(axis=1)] *)
Definition mahalanobis_dist (V : matrix) (dX : matrix) : result vector :=
  W ← inv V;
  P ← dot_mm dX W;
  Ok (map fsum (zip_with vmul P dX)).

(** The distance of the chosen metric; [V = np.cov(X, rowvar=0)] in the
    Mahalanobis branch. *)
Definition metric (mahalanobis : bool) (X : matrix) : matrix -> result vector :=
  if mahalanobis then mahalanobis_dist (cov X) else euclid_dist.

(** [X_c - X_t[i]] *)
Definition differences (X_c : matrix) (x : vector) : matrix :=
  map (fun r => vsub r x) X_c.

(** The matching loop of [MatchingWithReplacement]. *)
Definition MatchingWithReplacement_match (mahalanobis : bool)
    (X X_c X_t : matrix) (N_t : nat) : result (list nat) :=
  for_range (seq 0 N_t)
    (fun i match_index =>
       x ← index X_t i;
       d ← metric mahalanobis X (differences X_c x);
       j ← argmin d;
       Ok (<[i := j]> match_index))
    (replicate N_t 0).

(** [ITT = Y_t - Y_c[match_index]] *)
Definition raw_ITT (Y_c Y_t : vector) (match_index : list nat) : result vector :=
  Y_m ← take_idx Y_c match_index;
  Ok (vsub Y_t Y_m).

(** The bias-corrected effects:
    [reg = sm.OLS(Y_c[match_index], sm.add_constant(X_c[match_index])).fit()]
    and
    [ITT = Y_t - Y_c[match_index] - np.dot((X_t - X_c[match_index]), reg.params[1:])]. *)
Definition corrected_ITT (Y_c Y_t : vector) (X_c X_t : matrix)
    (match_index : list nat) : result vector :=
  Y_m ← take_idx Y_c match_index;
  X_m ← take_idx X_c match_index;
  params ← OLS_params Y_m X_m;
  B ← dot_mv (zip_with vsub X_t X_m) (drop 1 params);
  Ok (vsub (vsub Y_t Y_m) B).

(** Body of [MatchingWithReplacement] up to the individual effects. *)
Definition MatchingWithReplacement_ITT (mahalanobis bias_correction : bool)
    (Y : vector) (D : list Z) (X : matrix) : result vector :=
  Y_c ← bool_index Y (eqz D 0);
  Y_t ← bool_index Y (eqz D 1);
  X_c ← bool_index X (eqz D 0);
  X_t ← bool_index X (eqz D 1);
  let N_t := length Y_t in
  match_index ← MatchingWithReplacement_match mahalanobis X X_c X_t N_t;
  if bias_correction
  then corrected_ITT Y_c Y_t X_c X_t match_index
  else raw_ITT Y_c Y_t match_index.

(** A function that only reads its three arrays. *)
Definition reading {A} (Y D X : loc)
    (f : vector -> list Z -> matrix -> result A) : M A :=
  Yv ← load_vec Y;
  Dv ← load_int D;
  Xv ← load_mat X;
  lift (f Yv Dv Xv).

(** [SyntheticEstimates(Y, D, X, higher_moments)] *)
Definition SyntheticEstimates (Y D X : loc) (higher_moments : bool) : M float :=
  reading Y D X (SyntheticEstimates_on higher_moments).

(** [MatchingWithReplacement(Y, D, X, mahalanobis, bias_correction)] *)
Definition MatchingWithReplacement (Y D X : loc)
    (mahalanobis bias_correction : bool) : M float :=
  reading Y D X (fun Yv Dv Xv =>
    ITT ← MatchingWithReplacement_ITT mahalanobis bias_correction Yv Dv Xv;
    Ok (mean ITT)).

(** One round of the greedy loop of [MatchingWithoutReplacement]: the
    nearest control still in the pool [X_c] is recorded for treated unit
    [i] and its row is overwritten with NaN. *)
Definition greedy_step (dist : matrix -> result vector) (X_c : loc)
    (X_t : matrix) (i : nat) (match_index : list nat) : M (list nat) :=
  pool ← load_mat X_c;
  x ← lift (index X_t i);
  d ← lift (dist (differences pool x));
  j ← lift (nanargmin d);
  set_row_nan X_c j;;
  mret (<[i := j]> match_index).

(** What [MatchingWithoutReplacement] holds after its matching loop. *)
Record matched : Type := mkMatched {
  m_D : loc;               (* D, sorted *)
  m_X : loc;               (* X, sorted *)
  m_Y_c : vector;
  m_Y_t : vector;
  m_X_c : loc;             (* the pool, consumed rows set to NaN *)
  m_X_t : matrix;
  match_index : list nat
}.

(** [MatchingWithoutReplacement] from the propensity fit to the end of the
    matching loop. *)
Definition MatchingWithoutReplacement_match (Y D X : loc) (mahalanobis : bool)
    : M matched :=
  Yv ← load_vec Y;
  Dv ← load_int D;
  Xv ← load_mat X;
  pscore ← lift (Logit_predict Dv Xv);
  let order := rev (argsort pscore) in
  Ys ← lift (take_idx Yv order);
  Ds ← lift (take_idx Dv order);
  Xs ← lift (take_idx Xv order);
  Y' ← alloc (FloatArr Ys);
  D' ← alloc (IntArr Ds);
  X' ← alloc (FloatMat Xs);
  Yv ← load_vec Y';
  Dv ← load_int D';
  Xv ← load_mat X';
  Y_c ← lift (bool_index Yv (eqz Dv 0));
  Y_t ← lift (bool_index Yv (eqz Dv 1));
  pool ← lift (bool_index Xv (eqz Dv 0));
  X_c ← alloc (FloatMat pool);
  X_t ← lift (bool_index Xv (eqz Dv 1));
  let N_t := length Y_t in
  Xv ← load_mat X';
  idx ← for_range (seq 0 N_t) (greedy_step (metric mahalanobis Xv) X_c X_t)
          (replicate N_t 0);
  mret (mkMatched D' X' Y_c Y_t X_c X_t idx).

(** The individual effects of [MatchingWithoutReplacement]; with bias
    correction [X_c] is first rebuilt as [X[D==0]]. *)
Definition MatchingWithoutReplacement_ITT (Y D X : loc)
    (mahalanobis bias_correction : bool) : M vector :=
  m ← MatchingWithoutReplacement_match Y D X mahalanobis;
  if bias_correction then
    Xv ← load_mat (m_X m);
    Dv ← load_int (m_D m);
    X_c ← lift (bool_index Xv (eqz Dv 0));
    lift (corrected_ITT (m_Y_c m) (m_Y_t m) X_c (m_X_t m) (match_index m))
  else
    lift (raw_ITT (m_Y_c m) (m_Y_t m) (match_index m)).

(** [MatchingWithoutReplacement(Y, D, X, mahalanobis, bias_correction)] *)
Definition MatchingWithoutReplacement (Y D X : loc)
    (mahalanobis bias_correction : bool) : M float :=
  Dv ← load_int D;
  if (2 * sumZ Dv >? Z.of_nat (length Dv))%Z then
    print "Not enough control units, matching with replacement instead.";;
    MatchingWithReplacement Y D X mahalanobis true
  else
    ITT ← MatchingWithoutReplacement_ITT Y D X mahalanobis bias_correction;
    mret (mean ITT).

(** [MatchingEstimates(Y, D, X, with_replacement, mahalanobis)] *)
Definition MatchingEstimates (Y D X : loc)
    (with_replacement mahalanobis : bool) : M float :=
  if with_replacement
  then MatchingWithReplacement Y D X mahalanobis true
  else MatchingWithoutReplacement Y D X mahalanobis true.

(** Body of [OLSEstimates] on the values of its arrays. *)
Definition OLSEstimates_on (Y : vector) (D : list Z) (X : matrix) : result float :=
  let k := ncols X in
  let Dcol := map of_Z D in
  let mu := map mean (transpose X) in
  let dX := map (fun r => vsub r mu) X in
  if decide (length D = length X) then
    let DdX := zip_with (fun d r => map (fmul d) r) Dcol dX in
    let W := zip_with (fun d rr => d :: rr) Dcol (zip_with app dX DdX) in
    params ← OLS_params Y W;
    tau ← index params 1;
    let avg := map (fun c => fdiv (fsum c) (of_Z (sumZ D))) (transpose DdX) in
    c ← dot avg (slice_last k params);
    Ok (fadd tau c)
  else Err ValueError.

(** [OLSEstimates(Y, D, X)] *)
Definition OLSEstimates (Y D X : loc) : M float :=
  reading Y D X OLSEstimates_on.

End Estimators.

(** * Properties *)

(** ** Arithmetic *)

Definition real (x : float) : Prop := is_fin x = true.
Definition real_vec (v : vector) : Prop := Forall real v.
Definition real_matrix (X : matrix) : Prop := Forall real_vec X.

(** All rows have [k] entries. *)
Definition is_matrix (k : nat) (X : matrix) : Prop :=
  Forall (fun r => length r = k) X.

(** The row written by [X[j] = np.nan]. *)
Definition nan_row (k : nat) : vector := replicate k NaN.

Lemma real_Fin q : real (Fin q).
Proof. reflexivity. Qed.

Lemma real_inv x : real x -> exists q, x = Fin q.
Proof. destruct x; try discriminate; eauto. Qed.

Lemma Qred_Qred q : Qred (Qred q) = Qred q.
Proof. apply Qred_complete, Qred_correct. Qed.

Lemma fadd_comm x y : fadd x y = fadd y x.
Proof.
  destruct x, y; simpl; try reflexivity.
  f_equal. apply Qred_complete. ring.
Qed.

Lemma fadd_assoc x y z : fadd x (fadd y z) = fadd (fadd x y) z.
Proof.
  destruct x, y, z; simpl; try reflexivity.
  f_equal. apply Qred_complete. rewrite !Qred_correct. ring.
Qed.

Lemma fadd_NaN_r x : fadd x NaN = NaN.
Proof. by destruct x. Qed.

Lemma fmul_NaN_r x : fmul x NaN = NaN.
Proof. by destruct x. Qed.

Lemma fsub_NaN_l x : fsub NaN x = NaN.
Proof. by destruct x. Qed.

Lemma fsum_cons x v : fsum (x :: v) = fadd x (fsum v).
Proof. reflexivity. Qed.

Lemma fsum_perm (v v' : vector) : v ≡ₚ v' -> fsum v = fsum v'.
Proof.
  intros Hp. unfold fsum.
  apply (foldr_permutation eq fadd (Fin 0)); [|done].
  intros. rewrite !fadd_assoc. f_equal. apply fadd_comm.
Qed.

Lemma fsum_NaN (v : vector) : NaN ∈ v -> fsum v = NaN.
Proof.
  induction v as [|x v IH]; intros Hin.
  - by apply elem_of_nil in Hin.
  - rewrite fsum_cons. apply elem_of_cons in Hin as [<-|Hin]; [done|].
    rewrite IH by done. apply fadd_NaN_r.
Qed.

Lemma fsum_real (v : vector) : real_vec v -> real (fsum v).
Proof.
  induction 1 as [|x v Hx _ IH]; [done|].
  rewrite fsum_cons. destruct (real_inv _ Hx) as [a ->].
  destruct (real_inv _ IH) as [b ->]. done.
Qed.

(** A sum of squares of reals is a non-negative real. *)
Lemma fsum_squares (v : vector) :
  real_vec v -> exists q, fsum (map (fun x => fmul x x) v) = Fin q /\ (0 <= q)%Q.
Proof.
  induction 1 as [|x v Hx _ (b & IH & Hb)]; simpl.
  - exists 0%Q. split; [done|]. apply Qle_refl.
  - fold (fsum (map (λ x : float, fmul x x) v)). rewrite IH.
    destruct (real_inv _ Hx) as [a ->]. simpl. eexists. split; [done|].
    rewrite !Qred_correct.
    assert (0 <= a * a)%Q by (unfold Qle, Qmult; simpl; nia).
    apply (Qplus_le_compat 0 _ 0); [done|done].
Qed.

Lemma vsub_real (a b : vector) : real_vec a -> real_vec b -> real_vec (vsub a b).
Proof.
  intros Ha. revert b. induction Ha as [|x a Hx _ IH]; intros b Hb; [constructor|].
  destruct Hb as [|y b Hy Hb]; [constructor|]. simpl. constructor; [|by apply IH].
  destruct (real_inv _ Hx) as [? ->], (real_inv _ Hy) as [? ->]. done.
Qed.

Lemma vmul_real (a b : vector) : real_vec a -> real_vec b -> real_vec (vmul a b).
Proof.
  intros Ha. revert b. induction Ha as [|x a Hx _ IH]; intros b Hb; [constructor|].
  destruct Hb as [|y b Hy Hb]; [constructor|]. simpl. constructor; [|by apply IH].
  destruct (real_inv _ Hx) as [? ->], (real_inv _ Hy) as [? ->]. done.
Qed.

Lemma dotp_real (a b : vector) : real_vec a -> real_vec b -> real (dotp a b).
Proof. intros. by apply fsum_real, vmul_real. Qed.

Lemma vsub_nan_row k (x : vector) : length x = k -> vsub (nan_row k) x = nan_row k.
Proof.
  intros <-. induction x as [|y x IH]; [done|].
  unfold nan_row in *. simpl. by rewrite IH.
Qed.

Lemma nan_row_not_real k : 1 <= k -> ~ real_vec (nan_row k).
Proof.
  destruct k; [lia|]. intros _ H. by apply Forall_cons in H as [? _].
Qed.

(** ** Order *)

Lemma Qcompare_Lt p q : (p < q)%Q -> (p ?= q)%Q = Lt.
Proof. apply Qlt_alt. Qed.

Lemma Qcompare_Lt_inv p q : (p ?= q)%Q = Lt -> (p < q)%Q.
Proof. apply Qlt_alt. Qed.

Lemma Qcompare_le p q : (p <= q)%Q -> (p ?= q)%Q <> Gt.
Proof. apply Qle_alt. Qed.

Lemma Qcompare_le_inv p q : (p ?= q)%Q <> Gt -> (p <= q)%Q.
Proof. apply Qle_alt. Qed.

Lemma Qcompare_refl p : (p ?= p)%Q = Eq.
Proof. apply Qeq_alt. reflexivity. Qed.

Lemma fcmp_refl x : is_nan x = false -> fcmp x x = Some Eq.
Proof.
  destruct x; try done. intros _. cbn [fcmp]. f_equal. apply Qcompare_refl.
Qed.

Lemma fle_refl x : is_nan x = false -> fle x x = true.
Proof. intros H. unfold fle. by rewrite fcmp_refl. Qed.

Lemma flt_fle x y : flt x y = true -> fle x y = true.
Proof. unfold flt, fle. by destruct (fcmp x y) as [[]|]. Qed.

(** On numbers, [not (x >= y)] is [x < y]. *)
Lemma not_fge_flt x y :
  is_nan x = false -> is_nan y = false -> negb (fge x y) = flt x y.
Proof. unfold fge, flt. destruct x, y; try done. cbn [fcmp]. by destruct (_ ?= _)%Q. Qed.

Lemma fge_fle x y : fge x y = fle y x.
Proof.
  unfold fge, fle. destruct x, y; try done. cbn [fcmp].
  rewrite <- (Qcompare_antisym q0 q). by destruct (q0 ?= q)%Q.
Qed.

Lemma flt_trans x y z : flt x y = true -> flt y z = true -> flt x z = true.
Proof.
  unfold flt. destruct x, y, z; try done. cbn [fcmp].
  destruct (q ?= q0)%Q eqn:E1; try done. destruct (q0 ?= q1)%Q eqn:E2; try done.
  intros _ _. apply Qcompare_Lt_inv in E1, E2.
  by rewrite (Qcompare_Lt q q1) by (by eapply Qlt_trans).
Qed.

Lemma flt_fle_trans x y z : flt x y = true -> fle y z = true -> flt x z = true.
Proof.
  unfold flt, fle. destruct x, y, z; try done. cbn [fcmp].
  destruct (q ?= q0)%Q eqn:E1; try done. intros _ H.
  apply Qcompare_Lt_inv in E1.
  assert (q0 <= q1)%Q as E2 by (apply Qcompare_le_inv; by destruct (q0 ?= q1)%Q).
  by rewrite (Qcompare_Lt q q1) by (by eapply Qlt_le_trans).
Qed.

Lemma fle_trans x y z : fle x y = true -> fle y z = true -> fle x z = true.
Proof.
  unfold fle. destruct x, y, z; try done. cbn [fcmp]. intros H1 H2.
  assert (q <= q0)%Q as E1 by (apply Qcompare_le_inv; by destruct (q ?= q0)%Q).
  assert (q0 <= q1)%Q as E2 by (apply Qcompare_le_inv; by destruct (q0 ?= q1)%Q).
  assert ((q ?= q1)%Q <> Gt) as E3 by (apply Qcompare_le; by eapply Qle_trans).
  by destruct (q ?= q1)%Q.
Qed.

Lemma flt_irrefl x : flt x x = false.
Proof.
  unfold flt. destruct x; try done. cbn [fcmp].
  by rewrite Qcompare_refl.
Qed.

Lemma fle_PInf x : is_nan x = false -> fle x PInf = true.
Proof. by destruct x. Qed.

Lemma flt_Fin_PInf q : flt (Fin q) PInf = true.
Proof. done. Qed.

(** ** [argmin] and [nanargmin] *)

(** No entry is NaN. *)
Definition numbers (a : vector) : Prop := Forall (fun x => is_nan x = false) a.

Lemma real_not_nan x : real x -> is_nan x = false.
Proof. by destruct x. Qed.

Lemma real_vec_numbers a : real_vec a -> numbers a.
Proof. intros H. eapply Forall_impl; [exact H|]. apply real_not_nan. Qed.

Lemma argmin_scan_spec (a : vector) : forall mp mi i,
  is_nan mp = false -> numbers a ->
  (argmin_scan mp mi i a = mi /\ Forall (fun y => fle mp y = true) a) \/
  (exists p x, argmin_scan mp mi i a = i + p /\ a !! p = Some x /\
     flt x mp = true /\
     forall p' y, a !! p' = Some y -> fle x y = true /\ (p' < p -> flt x y = true)).
Proof.
  induction a as [|x a IH]; intros mp mi i Hmp Ha.
  - left. by split.
  - apply Forall_cons in Ha as [Hx Ha]. simpl. rewrite Hmp.
    rewrite not_fge_flt by done. destruct (flt x mp) eqn:Hlt.
    + right. destruct (IH x i (S i) Hx Ha) as [[-> Hall]|(p & x' & -> & Hp & Hlt' & Hmin)].
      * exists 0, x. split; [lia|]. split; [done|]. split; [done|].
        intros [|p'] y Hy; simpl in Hy.
        -- injection Hy as <-. split; [by apply fle_refl|lia].
        -- split; [|lia]. rewrite Forall_lookup in Hall. by eapply Hall.
      * exists (S p), x'. split; [lia|]. split; [done|].
        split; [by eapply flt_trans|].
        intros [|p'] y Hy; simpl in Hy.
        -- injection Hy as <-. split; [by apply flt_fle|done].
        -- destruct (Hmin p' y Hy) as [? ?]. split; [done|]. intros. apply H0. lia.
    + assert (fle mp x = true) as Hle.
      { rewrite <- fge_fle. rewrite <- not_fge_flt in Hlt by done.
        by destruct (fge x mp). }
      destruct (IH mp mi (S i) Hmp Ha) as [[-> Hall]|(p & x' & -> & Hp & Hlt' & Hmin)].
      * left. split; [done|]. by constructor.
      * right. exists (S p), x'. split; [lia|]. split; [done|]. split; [done|].
        intros [|p'] y Hy; simpl in Hy.
        -- injection Hy as <-.
           assert (flt x' x = true) by (by eapply flt_fle_trans).
           split; [by apply flt_fle|done].
        -- destruct (Hmin p' y Hy) as [? ?]. split; [done|]. intros. apply H0. lia.
Qed.

(** On an array of numbers [argmin] returns the lowest index that attains
    the minimum. *)
Lemma argmin_spec (a : vector) (j : nat) :
  numbers a -> argmin a = Ok j ->
  exists m, a !! j = Some m /\
    forall i y, a !! i = Some y -> fle m y = true /\ (i < j -> flt m y = true).
Proof.
  destruct a as [|x a]; [done|]. intros [Hx Ha]%Forall_cons [= <-].
  destruct (argmin_scan_spec a x 0 1 Hx Ha)
    as [[-> Hall]|(p & x' & -> & Hp & Hlt & Hmin)].
  - exists x. split; [done|]. intros [|i] y Hy; simpl in Hy.
    + injection Hy as <-. split; [by apply fle_refl|lia].
    + split; [|lia]. rewrite Forall_lookup in Hall. by eapply Hall.
  - exists x'. split; [done|]. intros [|i] y Hy; simpl in Hy.
    + injection Hy as <-. split; [by apply flt_fle|done].
    + destruct (Hmin i y Hy) as [? ?]. split; [done|]. intros. apply H0. lia.
Qed.

Lemma argmin_Ok (a : vector) : a <> [] -> exists j, argmin a = Ok j.
Proof. destruct a; [done|]. simpl. eauto. Qed.

Lemma argmin_lt (a : vector) j : numbers a -> argmin a = Ok j -> j < length a.
Proof.
  intros Ha Hj. destruct (argmin_spec a j Ha Hj) as (m & Hm & _).
  by eapply lookup_lt_Some.
Qed.

Lemma forallb_is_nan_false (a : vector) :
  forallb is_nan a = false -> exists i x, a !! i = Some x /\ is_nan x = false.
Proof.
  induction a as [|x a IH]; [done|]. simpl.
  destruct (is_nan x) eqn:Hx; simpl.
  - intros (i & y & Hy & Hn)%IH. by exists (S i), y.
  - intros _. by exists 0, x.
Qed.

(** When every entry is a real or NaN, [nanargmin] returns the lowest index
    that attains the minimum of the reals; the entry there is not NaN. *)
Lemma nanargmin_spec (a : vector) (j : nat) :
  Forall (fun x => x = NaN \/ real x) a -> nanargmin a = Ok j ->
  exists q, a !! j = Some (Fin q) /\
    forall i y, a !! i = Some y -> real y ->
      fle (Fin q) y = true /\ (i < j -> flt (Fin q) y = true).
Proof.
  intros Ha. unfold nanargmin.
  set (a' := map (fun x => if is_nan x then PInf else x) a).
  destruct (argmin a') as [j'|] eqn:Hj'; [|done]. simpl.
  destruct (forallb is_nan a) eqn:Hall; [done|]. intros [= ->].
  assert (numbers a') as Hnum.
  { apply Forall_forall. intros y (x & -> & _)%list_elem_of_fmap.
    by destruct x. }
  assert (forall i y, a !! i = Some y -> real y -> a' !! i = Some y) as Hreal.
  { intros i y Hy Hr. unfold a'. rewrite list_lookup_fmap, Hy.
    destruct (real_inv _ Hr) as [? ->]. done. }
  destruct (argmin_spec a' j Hnum Hj') as (m & Hm & Hmin).
  destruct (forallb_is_nan_false a Hall) as (i0 & x0 & Hx0 & Hn0).
  assert (real x0) as Hr0.
  { rewrite Forall_lookup in Ha. destruct (Ha _ _ Hx0) as [->|]; done. }
  destruct (Hmin i0 x0 (Hreal _ _ Hx0 Hr0)) as [Hle0 _].
  unfold a' in Hm. rewrite list_lookup_fmap in Hm.
  destruct (a !! j) as [xj|] eqn:Hxj; [|done]. injection Hm as <-.
  rewrite Forall_lookup in Ha. destruct (Ha _ _ Hxj) as [->|Hrj].
  - destruct (real_inv _ Hr0) as [? ->]. done.
  - destruct (real_inv _ Hrj) as [q ->]. exists q. split; [done|].
    intros i y Hy Hr. by apply Hmin, Hreal.
Qed.

Lemma nanargmin_Ok (a : vector) :
  (exists x, x ∈ a /\ is_nan x = false) -> exists j, nanargmin a = Ok j.
Proof.
  intros (x & Hin & Hx). unfold nanargmin.
  destruct (argmin_Ok (map (fun x => if is_nan x then PInf else x) a)) as [j ->].
  { destruct a; [by apply elem_of_nil in Hin|done]. }
  simpl. destruct (forallb is_nan a) eqn:Hall; [|eauto].
  rewrite forallb_forall in Hall. apply list_elem_of_In, Hall in Hin. congruence.
Qed.

(** ** Indexing *)

Lemma bind_Ok {A B} (r : result A) (f : A -> result B) (b : B) :
  r ≫= f = Ok b -> exists a, r = Ok a /\ f a = Ok b.
Proof. destruct r; [eauto|done]. Qed.

Lemma mapM_Ok {A B} (f : A -> result B) (l : list A) (k : list B) :
  mapM f l = Ok k <-> Forall2 (fun x y => f x = Ok y) l k.
Proof.
  revert k. induction l as [|x l IH]; intros k; simpl.
  - split; [intros [= <-]; constructor|by intros ->%Forall2_nil_inv_l].
  - split.
    + intros (y & Hy & (k' & Hk' & [= <-])%bind_Ok)%bind_Ok.
      constructor; [done|]. by apply IH.
    + intros (y & k' & Hy & Hk' & ->)%Forall2_cons_inv_l.
      rewrite Hy. simpl. apply IH in Hk'. by rewrite Hk'.
Qed.

Lemma index_Ok {A} (l : list A) i x : index l i = Ok x <-> l !! i = Some x.
Proof. unfold index. destruct (l !! i); split; congruence. Qed.

Lemma take_idx_Ok {A} (l : list A) idx k :
  take_idx l idx = Ok k <-> Forall2 (fun i x => l !! i = Some x) idx k.
Proof.
  unfold take_idx. rewrite mapM_Ok.
  split; intros H; (eapply Forall2_impl; [exact H|]); intros i x; apply index_Ok.
Qed.

Lemma take_idx_lookup {A} (l : list A) idx k i j :
  take_idx l idx = Ok k -> idx !! i = Some j -> exists x, k !! i = Some x /\ l !! j = Some x.
Proof.
  rewrite take_idx_Ok. intros H Hi.
  destruct (Forall2_lookup_l _ _ _ _ _ H Hi) as (x & ? & ?). eauto.
Qed.

Lemma take_idx_length {A} (l : list A) idx k :
  take_idx l idx = Ok k -> length k = length idx.
Proof. rewrite take_idx_Ok. intros H. symmetry. by eapply Forall2_length. Qed.

Lemma take_idx_total {A} (l : list A) idx :
  Forall (fun i => i < length l) idx -> exists k, take_idx l idx = Ok k.
Proof.
  induction 1 as [|i idx Hi _ (k & Hk)].
  - by exists [].
  - destruct (lookup_lt_is_Some_2 l i Hi) as [x Hx]. exists (x :: k).
    apply take_idx_Ok. constructor; [done|]. by apply take_idx_Ok.
Qed.

Lemma bool_index_Ok {A} (l : list A) b k :
  bool_index l b = Ok k <-> length l = length b /\ k = compress b l.
Proof.
  unfold bool_index. case_decide.
  - split; [by intros [= <-]|by intros [_ ->]].
  - split; [done|by intros [? _]].
Qed.

Lemma compress_length_le {A} (b : list bool) (l : list A) :
  length (compress b l) <= length l.
Proof.
  revert l. induction b as [|c b IH]; intros [|x l]; simpl; try lia.
  specialize (IH l). destruct c; simpl; lia.
Qed.

Lemma compress_Forall {A} (P : A -> Prop) (b : list bool) (l : list A) :
  Forall P l -> Forall P (compress b l).
Proof.
  intros H. revert b. induction H as [|x l Hx _ IH]; intros [|c b]; simpl;
    try constructor.
  destruct c; [constructor|]; auto.
Qed.

(** Rows selected by the same mask from two arrays of equal length line up. *)
Lemma compress_length_eq {A B} (b : list bool) (l : list A) (l' : list B) :
  length l = length l' -> length (compress b l) = length (compress b l').
Proof.
  revert l l'. induction b as [|c b IH]; intros [|x l] [|y l']; simpl; try done.
  intros [= H]. specialize (IH _ _ H). destruct c; simpl; lia.
Qed.

(** ** The store: what a computation leaves untouched *)

(** [preserves n m Q]: run from a store with at least [n] arrays, [m] leaves
    the first [n] arrays as they were, whether it returns or raises, and a
    returned value satisfies [Q]. *)
Definition preserves {A} (n : nat) (m : M A) (Q : A -> Prop) : Prop :=
  forall s r s', n <= length (heap s) -> m s = (r, s') ->
    take n (heap s') = take n (heap s) /\ n <= length (heap s') /\
    forall a, r = Ok a -> Q a.

Lemma preserves_weaken {A} n (m : M A) (Q R : A -> Prop) :
  preserves n m Q -> (forall a, Q a -> R a) -> preserves n m R.
Proof.
  intros Hm HQR s r s' Hn Hrun. destruct (Hm s r s' Hn Hrun) as (? & ? & ?).
  repeat split; auto.
Qed.

Lemma preserves_ret {A} n (a : A) (Q : A -> Prop) : Q a -> preserves n (mret a) Q.
Proof. intros HQ s r s' Hn [= <- <-]. repeat split; [done|]. by intros ? [= <-]. Qed.

Lemma preserves_lift {A} n (r : result A) : preserves n (lift r) (fun _ => True).
Proof. intros s r' s' Hn [= <- <-]. done. Qed.

Lemma preserves_bind {A B} n (m : M A) (f : A -> M B) (Q : A -> Prop) (R : B -> Prop) :
  preserves n m Q -> (forall a, Q a -> preserves n (f a) R) ->
  preserves n (m ≫= f) R.
Proof.
  intros Hm Hf s r s' Hn. unfold mbind, M_bind.
  destruct (m s) as [[a|e] s1] eqn:Hms.
  - destruct (Hm _ _ _ Hn Hms) as (Ht & Hn1 & Ha). intros Hrun.
    destruct (Hf a (Ha a eq_refl) _ _ _ Hn1 Hrun) as (Ht' & ? & ?).
    split; [congruence|]. done.
  - intros [= <- <-]. destruct (Hm _ _ _ Hn Hms) as (? & ? & _). done.
Qed.

Lemma preserves_load_vec n l : preserves n (load_vec l) (fun _ => True).
Proof.
  intros s r s' Hn. unfold load_vec.
  destruct (heap s !! l) as [[]|]; intros [= <- <-]; done.
Qed.

Lemma preserves_load_int n l : preserves n (load_int l) (fun _ => True).
Proof.
  intros s r s' Hn. unfold load_int.
  destruct (heap s !! l) as [[]|]; intros [= <- <-]; done.
Qed.

Lemma preserves_load_mat n l : preserves n (load_mat l) (fun _ => True).
Proof.
  intros s r s' Hn. unfold load_mat.
  destruct (heap s !! l) as [[]|]; intros [= <- <-]; done.
Qed.

(** A new array lies beyond the arrays that existed before. *)
Lemma preserves_alloc n a : preserves n (alloc a) (fun l => n <= l).
Proof.
  intros s r s' Hn [= <- <-]. simpl. rewrite take_app_le by done.
  rewrite length_app. split; [done|]. split; [lia|]. by intros ? [= <-].
Qed.

(** Overwriting a row of an array beyond the first [n] leaves them alone. *)
Lemma preserves_set_row_nan n l j : n <= l -> preserves n (set_row_nan l j) (fun _ => True).
Proof.
  intros Hl s r s' Hn. unfold set_row_nan.
  destruct (heap s !! l) as [[| |m]|]; try (intros [= <- <-]; done).
  destruct (m !! j); intros [= <- <-]; [|done]. simpl.
  rewrite take_insert_ge by done. by rewrite length_insert.
Qed.

Lemma preserves_print n line : preserves n (print line) (fun _ => True).
Proof. intros s r s' Hn [= <- <-]. done. Qed.

Lemma preserves_for_range {S} n (l : list nat) (body : nat -> S -> M S) :
  (forall i s, preserves n (body i s) (fun _ => True)) ->
  forall s, preserves n (for_range l body s) (fun _ => True).
Proof.
  intros Hbody. induction l as [|i l IH]; intros s; simpl.
  - by apply preserves_ret.
  - eapply preserves_bind; [apply Hbody|]. intros. apply IH.
Qed.

Lemma preserves_lookup {A} n (m : M A) (Q : A -> Prop) s r s' l a :
  preserves n m Q -> n = length (heap s) -> m s = (r, s') ->
  heap s !! l = Some a -> heap s' !! l = Some a.
Proof.
  intros Hm -> Hrun Hl. destruct (Hm s r s' (le_n _) Hrun) as (Ht & _ & _).
  rewrite firstn_all in Ht.
  assert (l < length (heap s)) by (by eapply lookup_lt_Some).
  rewrite <- (lookup_take_lt _ (length (heap s))) by done.
  by rewrite Ht.
Qed.

(** ** Running the primitives *)

Lemma run_bind {A B} (m : M A) (f : A -> M B) s a s' :
  m s = (Ok a, s') -> (m ≫= f) s = f a s'.
Proof. intros H. unfold mbind, M_bind. by rewrite H. Qed.

Lemma run_bind_Err {A B} (m : M A) (f : A -> M B) s e s' :
  m s = (Err e, s') -> (m ≫= f) s = (Err e, s').
Proof. intros H. unfold mbind, M_bind. by rewrite H. Qed.

Lemma run_load_vec s l v : heap s !! l = Some (FloatArr v) -> load_vec l s = (Ok v, s).
Proof. intros H. unfold load_vec. by rewrite H. Qed.

Lemma run_load_int s l v : heap s !! l = Some (IntArr v) -> load_int l s = (Ok v, s).
Proof. intros H. unfold load_int. by rewrite H. Qed.

Lemma run_load_mat s l m : heap s !! l = Some (FloatMat m) -> load_mat l s = (Ok m, s).
Proof. intros H. unfold load_mat. by rewrite H. Qed.

(** A function that only reads returns what its body computes on the
    contents of the three arrays, and leaves the store as it found it. *)
Lemma run_reading {A} (f : vector -> list Z -> matrix -> result A) s Y D X Yv Dv Xv :
  heap s !! Y = Some (FloatArr Yv) -> heap s !! D = Some (IntArr Dv) ->
  heap s !! X = Some (FloatMat Xv) ->
  reading Y D X f s = (f Yv Dv Xv, s).
Proof.
  intros HY HD HX. unfold reading.
  rewrite (run_bind _ _ _ _ _ (run_load_vec _ _ _ HY)).
  rewrite (run_bind _ _ _ _ _ (run_load_int _ _ _ HD)).
  by rewrite (run_bind _ _ _ _ _ (run_load_mat _ _ _ HX)).
Qed.

Lemma reading_state {A} (f : vector -> list Z -> matrix -> result A) s Y D X r s' :
  reading Y D X f s = (r, s') -> s' = s.
Proof.
  unfold reading, mbind, M_bind, load_vec, load_int, load_mat, lift.
  destruct (heap s !! Y) as [[]|]; try (by intros [= _ <-]).
  destruct (heap s !! D) as [[]|]; try (by intros [= _ <-]).
  destruct (heap s !! X) as [[]|]; by intros [= _ <-].
Qed.

(** ** The greedy loop as a function of the pool *)

(** The pool after [X_c[j] = np.nan]. *)
Definition mark (pool : matrix) (j : nat) : matrix :=
  match pool !! j with
  | Some r => <[j := nan_row (length r)]> pool
  | None => pool
  end.

(** The loop of [greedy_step]s over the indices [l], started with the pool
    [pool] and the assignment [idx]: its outcome and the pool it leaves. *)
Fixpoint greedy (dist : matrix -> result vector) (X_t : matrix) (l : list nat)
    (pool : matrix) (idx : list nat) : result (list nat) * matrix :=
  match l with
  | [] => (Ok idx, pool)
  | i :: l' =>
      match (x ← index X_t i; d ← dist (differences pool x); nanargmin d) with
      | Ok j =>
          match pool !! j with
          | Some _ => greedy dist X_t l' (mark pool j) (<[i := j]> idx)
          | None => (Err IndexError, pool)
          end
      | Err e => (Err e, pool)
      end
  end.

Definition set_cell (s : state) (l : loc) (a : ndarray) : state :=
  mkState (<[l := a]> (heap s)) (stdout s).

Lemma set_cell_id s l a : heap s !! l = Some a -> set_cell s l a = s.
Proof. intros H. unfold set_cell. rewrite list_insert_id by done. by destruct s. Qed.

Lemma set_cell_set_cell s l a b : set_cell (set_cell s l a) l b = set_cell s l b.
Proof. unfold set_cell. simpl. by rewrite list_insert_insert_eq. Qed.

Lemma set_cell_lookup s l a b :
  heap s !! l = Some b -> heap (set_cell s l a) !! l = Some a.
Proof.
  intros H. simpl. apply list_lookup_insert_eq. by eapply lookup_lt_Some.
Qed.

(** The loop in the store computes [greedy] and writes to the pool only. *)
Lemma run_greedy dist X_c X_t (l : list nat) : forall s pool idx,
  heap s !! X_c = Some (FloatMat pool) ->
  for_range l (greedy_step dist X_c X_t) idx s =
    ((greedy dist X_t l pool idx).1,
     set_cell s X_c (FloatMat (greedy dist X_t l pool idx).2)).
Proof.
  induction l as [|i l IH]; intros s pool idx Hpool; simpl.
  - by rewrite set_cell_id.
  - unfold mbind at 1, M_bind at 1. unfold greedy_step at 1.
    rewrite (run_bind _ _ _ _ _ (run_load_mat _ _ _ Hpool)).
    unfold lift, mbind at 1, M_bind at 1.
    destruct (index X_t i) as [x|e]; simpl; [|by rewrite set_cell_id].
    unfold mbind at 1, M_bind at 1.
    destruct (dist (differences pool x)) as [d|e]; simpl; [|by rewrite set_cell_id].
    unfold mbind at 1, M_bind at 1.
    destruct (nanargmin d) as [j|e]; simpl; [|by rewrite set_cell_id].
    unfold mbind at 1, M_bind at 1, set_row_nan. rewrite Hpool.
    destruct (pool !! j) as [r|] eqn:Hj; simpl; [|by rewrite set_cell_id].
    unfold mret, M_ret.
    erewrite IH; [|simpl; apply list_lookup_insert_eq; by eapply lookup_lt_Some].
    unfold mark. rewrite Hj. f_equal.
    unfold set_cell. simpl. by rewrite list_insert_insert_eq.
Qed.

(** ** Invariants of the greedy loop *)

(** Every row of the pool is either a row of [k] reals or the NaN row. *)
Definition pool_ok (k : nat) (pool : matrix) : Prop :=
  Forall (fun r => r = nan_row k \/ (real_vec r /\ length r = k)) pool.

(** The distance is computed row by row: the NaN row is at distance NaN and
    a row of reals at a real distance. *)
Definition rowwise (k : nat) (dist : matrix -> result vector) : Prop :=
  forall dX d, dist dX = Ok d ->
    length d = length dX /\
    forall j r, dX !! j = Some r -> length r = k ->
      exists y, d !! j = Some y /\ (r = nan_row k -> y = NaN) /\ (real_vec r -> real y).

Lemma map_lookup {A B} (f : A -> B) (l : list A) i :
  map f l !! i = f <$> l !! i.
Proof. apply (list_lookup_fmap f). Qed.

Lemma differences_lookup pool x j r :
  pool !! j = Some r -> differences pool x !! j = Some (vsub r x).
Proof. intros H. unfold differences. by rewrite map_lookup, H. Qed.

Lemma differences_length pool x : length (differences pool x) = length pool.
Proof. apply length_map. Qed.

Lemma vsub_length (a b : vector) : length a = length b -> length (vsub a b) = length a.
Proof. intros H. unfold vsub. rewrite length_zip_with. lia. Qed.

Lemma real_row_not_nan_row k r : 1 <= k -> real_vec r -> r <> nan_row k.
Proof. intros Hk Hr ->. by eapply nan_row_not_real. Qed.

(** The distances from a treated row of reals to a well-formed pool: NaN at
    the consumed rows, real elsewhere. *)
Lemma pool_distances k dist pool x d :
  1 <= k -> rowwise k dist -> pool_ok k pool -> real_vec x -> length x = k ->
  dist (differences pool x) = Ok d ->
  length d = length pool /\
  Forall (fun y => y = NaN \/ real y) d /\
  forall j r, pool !! j = Some r ->
    exists y, d !! j = Some y /\ (r = nan_row k -> y = NaN) /\ (real_vec r -> real y).
Proof.
  intros Hk1 Hrow Hpool Hx Hk Hd. destruct (Hrow _ _ Hd) as [Hlen Hrows].
  rewrite differences_length in Hlen.
  pose proof (proj1 (Forall_lookup _ _) Hpool) as Hpool'.
  assert (forall j r, pool !! j = Some r ->
    exists y, d !! j = Some y /\ (r = nan_row k -> y = NaN) /\ (real_vec r -> real y)) as H.
  { intros j r Hj. destruct (Hpool' _ _ Hj) as [->|[Hr Hlr]].
    - destruct (Hrows j (nan_row k)) as (y & Hy & Hnan & _).
      + erewrite differences_lookup by done. by rewrite vsub_nan_row.
      + unfold nan_row. apply length_replicate.
      + exists y. split; [done|]. split; [auto|].
        intros Hr. exfalso. by eapply nan_row_not_real.
    - destruct (Hrows j (vsub r x)) as (y & Hy & _ & Hreal).
      + by apply differences_lookup.
      + rewrite vsub_length; congruence.
      + exists y. split; [done|]. split.
        * intros ->. exfalso. by eapply nan_row_not_real.
        * intros _. by apply Hreal, vsub_real. }
  split; [done|]. split; [|done].
  apply Forall_lookup. intros j y Hy.
  destruct (lookup_lt_is_Some_2 pool j) as [r Hr].
  { rewrite <- Hlen. by eapply lookup_lt_Some. }
  destruct (H _ _ Hr) as (y' & Hy' & Hnan & Hreal).
  assert (y' = y) as -> by congruence.
  destruct (Hpool' _ _ Hr) as [->|[? _]]; auto.
Qed.

Lemma mark_lookup_eq pool j r :
  pool !! j = Some r -> mark pool j !! j = Some (nan_row (length r)).
Proof.
  intros H. unfold mark. rewrite H. apply list_lookup_insert_eq.
  by eapply lookup_lt_Some.
Qed.

Lemma mark_lookup_ne pool j j' : j <> j' -> mark pool j !! j' = pool !! j'.
Proof.
  intros H. unfold mark. destruct (pool !! j); [|done].
  by apply list_lookup_insert_ne.
Qed.

Lemma mark_length pool j : length (mark pool j) = length pool.
Proof. unfold mark. destruct (pool !! j); [|done]. apply length_insert. Qed.

Lemma nan_row_length k : length (nan_row k) = k.
Proof. apply length_replicate. Qed.

Lemma mark_pool_ok k pool j : pool_ok k pool -> pool_ok k (mark pool j).
Proof.
  intros Hpool. unfold mark. destruct (pool !! j) as [r|] eqn:Hr; [|done].
  apply Forall_insert; [done|]. left.
  pose proof (proj1 (Forall_lookup _ _) Hpool _ _ Hr) as [->|[_ ->]]; [|done].
  by rewrite nan_row_length.
Qed.

(** The control chosen in a round is still in the pool, at a real distance
    that no other control in the pool undercuts; among equals the lowest
    index wins. *)
Lemma greedy_choice k dist pool x d j :
  1 <= k -> rowwise k dist -> pool_ok k pool -> real_vec x -> length x = k ->
  dist (differences pool x) = Ok d -> nanargmin d = Ok j ->
  exists r q, pool !! j = Some r /\ real_vec r /\ length r = k /\
    d !! j = Some (Fin q) /\
    forall j' y, d !! j' = Some y -> real y ->
      fle (Fin q) y = true /\ (j' < j -> flt (Fin q) y = true).
Proof.
  intros Hk Hrow Hpool Hx Hlx Hd Hj.
  destruct (pool_distances k dist pool x d Hk Hrow Hpool Hx Hlx Hd)
    as (Hlen & Hall & Hrows).
  destruct (nanargmin_spec d j Hall Hj) as (q & Hq & Hmin).
  destruct (lookup_lt_is_Some_2 pool j) as [r Hr].
  { rewrite <- Hlen. by eapply lookup_lt_Some. }
  destruct (Hrows _ _ Hr) as (y & Hy & Hnan & _).
  assert (y = Fin q) as -> by congruence.
  pose proof (proj1 (Forall_lookup _ _) Hpool _ _ Hr) as [->|[Hreal Hlr]].
  - by specialize (Hnan eq_refl).
  - exists r, q. done.
Qed.

(** The assignment written by the rounds [l] that chose the controls [js]. *)
Definition record {A} (idx : list A) (l : list nat) (js : list A) : list A :=
  foldl (fun acc ij => <[ij.1 := ij.2]> acc) idx (zip l js).

Lemma greedy_spec k dist X_t :
  1 <= k -> rowwise k dist -> real_matrix X_t -> is_matrix k X_t ->
  forall l pool idx idx' pool',
    pool_ok k pool ->
    greedy dist X_t l pool idx = (Ok idx', pool') ->
    exists js, length js = length l /\ NoDup js /\
      (forall j, j ∈ js -> exists r, pool !! j = Some r /\ real_vec r /\ length r = k) /\
      pool_ok k pool' /\ length pool' = length pool /\
      (forall j, j ∈ js -> pool' !! j = Some (nan_row k)) /\
      (forall j, j ∉ js -> pool' !! j = pool !! j) /\
      idx' = record idx l js.
Proof.
  intros Hk Hrow HXt HkXt. induction l as [|i l IH]; intros pool idx idx' pool' Hpool; simpl.
  - intros [= <- <-]. exists []. repeat split; try done.
    + constructor.
    + intros j Hj. by apply elem_of_nil in Hj.
    + intros j Hj. by apply elem_of_nil in Hj.
  - destruct (index X_t i) as [x|] eqn:Hx; simpl; [|done].
    destruct (dist (differences pool x)) as [d|] eqn:Hd; simpl; [|done].
    destruct (nanargmin d) as [j|] eqn:Hj; simpl; [|done].
    apply index_Ok in Hx.
    assert (real_vec x) as Hrx by (by eapply (proj1 (Forall_lookup _ _) HXt)).
    assert (length x = k) as Hlx by (by eapply (proj1 (Forall_lookup _ _) HkXt)).
    destruct (greedy_choice k dist pool x d j) as (r & q & Hr & Hreal & Hlr & _); try done.
    rewrite Hr. intros Hrun.
    destruct (IH _ _ _ _ (mark_pool_ok k pool j Hpool) Hrun)
      as (js & Hlen & Hnd & Havail & Hok & Hlen' & Hnan & Hframe & ->).
    assert (j ∉ js) as Hnotin.
    { intros (r' & Hr' & Hreal' & _)%Havail.
      rewrite (mark_lookup_eq _ _ _ Hr), Hlr in Hr'. injection Hr' as <-.
      by eapply nan_row_not_real. }
    exists (j :: js). simpl. repeat split.
    + by rewrite Hlen.
    + by constructor.
    + intros j' [->|Hin]%elem_of_cons; [eauto|].
      destruct (Havail _ Hin) as (r' & Hr' & ?).
      rewrite mark_lookup_ne in Hr' by (intros ->; done). eauto.
    + done.
    + by rewrite Hlen', mark_length.
    + intros j' [->|Hin]%elem_of_cons; [|by apply Hnan].
      rewrite Hframe by done. rewrite (mark_lookup_eq _ _ _ Hr). by rewrite Hlr.
    + intros j' Hj'. apply not_elem_of_cons in Hj' as [Hne Hj'].
      rewrite Hframe by done. by apply mark_lookup_ne.
Qed.

Lemma record_seq {A} (js : list A) : forall a (idx : list A),
  a + length js <= length idx ->
  record idx (seq a (length js)) js = take a idx ++ js ++ drop (a + length js) idx.
Proof.
  unfold record. induction js as [|j js IH]; intros a idx Hlen; simpl.
  - rewrite Nat.add_0_r. by rewrite take_drop.
  - simpl in Hlen. rewrite IH by (rewrite length_insert; lia).
    rewrite (take_S_r _ _ j) by (apply list_lookup_insert_eq; lia).
    rewrite take_insert_ge by lia. rewrite <- app_assoc. simpl.
    rewrite drop_insert_lt by lia.
    by replace (a + S (length js)) with (S (a + length js)) by lia.
Qed.

Lemma record_all {A} (js : list A) (x : A) :
  record (replicate (length js) x) (seq 0 (length js)) js = js.
Proof.
  rewrite record_seq by (by rewrite length_replicate). simpl.
  rewrite drop_ge by (by rewrite length_replicate). apply app_nil_r.
Qed.

(** *** The loop runs to its end while controls remain *)

#[global] Instance real_dec x : Decision (real x).
Proof. unfold real. apply _. Defined.

#[global] Instance real_vec_dec (v : vector) : Decision (real_vec v).
Proof. unfold real_vec. apply _. Defined.

(** Number of controls still in the pool. *)
Definition available (pool : matrix) : nat := length (filter real_vec pool).

Lemma available_all (pool : matrix) : real_matrix pool -> available pool = length pool.
Proof.
  unfold available. induction 1 as [|r pool Hr _ IH]; [done|].
  rewrite filter_cons_True by done. simpl. by rewrite IH.
Qed.

Lemma available_pos (pool : matrix) :
  0 < available pool -> exists j r, pool !! j = Some r /\ real_vec r.
Proof.
  unfold available. destruct (filter real_vec pool) as [|r l] eqn:Hf; simpl; [lia|].
  intros _. assert (r ∈ filter real_vec pool) as Hin by (rewrite Hf; left).
  apply list_elem_of_filter in Hin as [Hr Hin].
  apply list_elem_of_lookup in Hin as [j Hj]. eauto.
Qed.

Lemma available_mark (pool : matrix) j r :
  pool !! j = Some r -> real_vec r -> 1 <= length r ->
  S (available (mark pool j)) = available pool.
Proof.
  intros Hj Hr Hlen. unfold mark, available. rewrite Hj.
  rewrite insert_take_drop by (by eapply lookup_lt_Some).
  rewrite <- (take_drop_middle pool j r Hj) at 3.
  rewrite !filter_app, !length_app.
  rewrite filter_cons_False by (by apply nan_row_not_real).
  rewrite filter_cons_True by done. simpl. lia.
Qed.

Lemma greedy_total k dist X_t :
  1 <= k -> rowwise k dist ->
  (forall dX, dX <> [] -> is_matrix k dX -> exists d, dist dX = Ok d) ->
  real_matrix X_t -> is_matrix k X_t ->
  forall l pool idx,
    pool_ok k pool -> Forall (fun i => i < length X_t) l ->
    length l <= available pool ->
    exists idx' pool', greedy dist X_t l pool idx = (Ok idx', pool').
Proof.
  intros Hk Hrow Htot HXt HkXt. induction l as [|i l IH]; intros pool idx Hpool Hl Hav.
  - simpl. eauto.
  - apply Forall_cons in Hl as [Hi Hl]. simpl in Hav |- *.
    destruct (lookup_lt_is_Some_2 X_t i Hi) as [x Hx].
    assert (real_vec x) as Hrx by (by eapply (proj1 (Forall_lookup _ _) HXt)).
    assert (length x = k) as Hlx by (by eapply (proj1 (Forall_lookup _ _) HkXt)).
    rewrite (proj2 (index_Ok _ _ _) Hx). simpl.
    destruct (available_pos pool) as (j0 & r0 & Hj0 & Hr0); [lia|].
    destruct (Htot (differences pool x)) as [d Hd].
    { intros Hnil. apply (f_equal length) in Hnil.
      rewrite differences_length in Hnil. apply lookup_lt_Some in Hj0. simpl in Hnil. lia. }
    { apply Forall_forall. intros dr (r & -> & Hin)%list_elem_of_fmap.
      pose proof (proj1 (Forall_forall _ _) Hpool _ Hin) as [->|[_ Hlr]].
      - rewrite vsub_nan_row by done. apply nan_row_length.
      - rewrite vsub_length; congruence. }
    rewrite Hd. simpl.
    destruct (pool_distances k dist pool x d Hk Hrow Hpool Hrx Hlx Hd) as (Hlen & Hall & Hrows).
    destruct (Hrows _ _ Hj0) as (y0 & Hy0 & _ & Hreal0).
    destruct (nanargmin_Ok d) as [j Hj].
    { exists y0. split; [by eapply list_elem_of_lookup_2|]. by apply real_not_nan, Hreal0. }
    rewrite Hj.
    destruct (greedy_choice k dist pool x d j) as (r & q & Hr & Hreal & Hlr & _); try done.
    rewrite Hr. apply IH; [by apply mark_pool_ok|done|].
    pose proof (available_mark pool j r Hr Hreal). lia.
Qed.

(** ** The two metrics *)

Lemma fsum_nan_row k (v : vector) :
  1 <= k -> length v = k -> fsum (vmul v (nan_row k)) = NaN.
Proof.
  intros Hk Hv. apply fsum_NaN. destruct v as [|y v]; [simpl in Hv; lia|].
  destruct k; [lia|]. simpl. rewrite fmul_NaN_r. left.
Qed.

Lemma euclid_rowwise k : 1 <= k -> rowwise k euclid_dist.
Proof.
  intros Hk dX d [= <-]. split; [apply length_map|].
  intros j r Hj Hr. rewrite map_lookup, Hj. simpl. eexists. split; [done|]. split.
  - intros ->. apply fsum_NaN. destruct k; [lia|]. left.
  - intros Hreal. destruct (fsum_squares r Hreal) as (q & -> & _). done.
Qed.

Lemma euclid_total (dX : matrix) : exists d, euclid_dist dX = Ok d.
Proof. unfold euclid_dist. eauto. Qed.

Lemma entry_real (r : vector) j : real_vec r -> j < length r -> real (entry r j).
Proof.
  intros Hr Hj. unfold entry. destruct (lookup_lt_is_Some_2 r j Hj) as [x Hx].
  rewrite Hx. simpl. by eapply (proj1 (Forall_lookup _ _) Hr).
Qed.

Lemma column_real k (X : matrix) j :
  real_matrix X -> is_matrix k X -> j < k -> real_vec (column X j).
Proof.
  intros HX Hk Hj. apply Forall_forall. intros y (r & -> & Hin)%list_elem_of_fmap.
  apply entry_real.
  - by apply (proj1 (Forall_forall _ _) HX).
  - by rewrite (proj1 (Forall_forall _ _) Hk r Hin).
Qed.

Lemma column_length (X : matrix) j : length (column X j) = length X.
Proof. apply length_map. Qed.

Lemma Qsign_inject_Z z : Qsign (inject_Z z) = (z ?= 0)%Z.
Proof. reflexivity. Qed.

Lemma fdiv_real x z : real x -> (0 < z)%Z -> real (fdiv x (of_Z z)).
Proof.
  intros [q ->]%real_inv Hz. unfold of_Z, fdiv. rewrite Qsign_inject_Z.
  by destruct (Z.compare_spec z 0); try lia.
Qed.

Lemma mean_real (v : vector) : real_vec v -> v <> [] -> real (mean v).
Proof.
  intros Hv Hne. unfold mean, of_nat. apply fdiv_real; [by apply fsum_real|].
  destruct v; [done|]. simpl. lia.
Qed.

Lemma ncols_is_matrix k (X : matrix) : is_matrix k X -> X <> [] -> ncols X = k.
Proof. destruct X as [|r X]; [done|]. by intros [? _]%Forall_cons. Qed.

Lemma transpose_real k (X : matrix) :
  real_matrix X -> is_matrix k X -> real_matrix (transpose X).
Proof.
  intros HX Hk. destruct X as [|r X]; [constructor|].
  unfold transpose. rewrite (ncols_is_matrix k) by done.
  apply Forall_forall. intros c (j & -> & Hj)%list_elem_of_fmap.
  apply elem_of_seq in Hj. apply (column_real k); [done|done|lia].
Qed.

Lemma transpose_length k (X : matrix) :
  is_matrix k X -> X <> [] -> length (transpose X) = k.
Proof.
  intros Hk Hne. unfold transpose. rewrite length_map, length_seq.
  by apply ncols_is_matrix.
Qed.

Lemma transpose_rows (X : matrix) : is_matrix (length X) (transpose X).
Proof.
  apply Forall_forall. intros c (j & -> & _)%list_elem_of_fmap. apply column_length.
Qed.

(** The covariance matrix of two or more rows of reals is a [k] by [k]
    matrix of reals. *)
Lemma cov_real k (X : matrix) :
  real_matrix X -> is_matrix k X -> 2 <= length X ->
  real_matrix (cov X) /\ length (cov X) = k /\ is_matrix k (cov X).
Proof.
  intros HX Hk HN. assert (X <> []) as Hne by (intros ->; simpl in HN; lia).
  unfold cov.
  set (cen := map (fun c => map (fun x => fsub x (mean c)) c) (transpose X)).
  assert (real_matrix cen) as Hcen.
  { apply Forall_forall. intros c' (c & -> & Hin)%list_elem_of_fmap.
    assert (real_vec c) as Hc
      by (by apply (proj1 (Forall_forall _ _) (transpose_real k X HX Hk))).
    assert (length c = length X) as Hlc
      by (by apply (proj1 (Forall_forall _ _) (transpose_rows X))).
    assert (real (mean c)) as [m Hm]%real_inv.
    { apply mean_real; [done|]. intros ->. simpl in Hlc. lia. }
    rewrite Hm. apply Forall_forall. intros y (x & -> & Hx)%list_elem_of_fmap.
    apply (proj1 (Forall_forall _ _) Hc) in Hx. by destruct (real_inv _ Hx) as [? ->]. }
  assert (length cen = k) as Hlen.
  { unfold cen. rewrite length_map. by apply transpose_length. }
  split; [|split].
  - apply Forall_forall. intros row (a & -> & Ha)%list_elem_of_fmap.
    apply Forall_forall. intros y (b & -> & Hb)%list_elem_of_fmap.
    apply fdiv_real; [|lia]. apply dotp_real.
    + by apply (proj1 (Forall_forall _ _) Hcen).
    + by apply (proj1 (Forall_forall _ _) Hcen).
  - by rewrite length_map.
  - apply Forall_forall. intros row (a & -> & Ha)%list_elem_of_fmap.
    by rewrite length_map.
Qed.

(** ** Counting treated and control units *)

(** Every entry of the treatment indicator is 0 or 1. *)
Definition indicator (D : list Z) : Prop := Forall (fun d => d = 0%Z \/ d = 1%Z) D.

Definition N_treated (D : list Z) : nat := length (compress (eqz D 1) D).
Definition N_control (D : list Z) : nat := length (compress (eqz D 0) D).

Lemma compress_count {A} (c : Z) (D : list Z) (l : list A) :
  length l = length D ->
  length (compress (eqz D c) l) = length (compress (eqz D c) D).
Proof. intros H. by apply compress_length_eq. Qed.

Lemma indicator_counts (D : list Z) :
  indicator D ->
  Z.of_nat (N_treated D) = sumZ D /\ N_treated D + N_control D = length D.
Proof.
  unfold N_treated, N_control. induction 1 as [|d D [->| ->] _ [IH1 IH2]]; simpl.
  - done.
  - split; [done|]. simpl. lia.
  - split; [|simpl; lia]. simpl length. lia.
Qed.

Lemma counts_le (D : list Z) : N_treated D + N_control D <= length D.
Proof.
  unfold N_treated, N_control. induction D as [|d D IH]; simpl; [done|].
  destruct (Z.eqb_spec d 1), (Z.eqb_spec d 0); simpl; lia.
Qed.

Lemma eqz_perm (D D' : list Z) c :
  D ≡ₚ D' -> length (compress (eqz D c) D) = length (compress (eqz D' c) D').
Proof.
  induction 1 as [|d D D' _ IH|d1 d2 D|D1 D2 D3 _ IH1 _ IH2]; simpl.
  - done.
  - destruct (d =? c)%Z; simpl; lia.
  - destruct (d1 =? c)%Z, (d2 =? c)%Z; simpl; lia.
  - lia.
Qed.

Lemma sumZ_perm (D D' : list Z) : D ≡ₚ D' -> sumZ D = sumZ D'.
Proof. induction 1; simpl; lia. Qed.

Lemma indicator_perm (D D' : list Z) : D ≡ₚ D' -> indicator D -> indicator D'.
Proof. intros Hp. unfold indicator. by rewrite Hp. Qed.

(** [a[order]] for a permutation [order] of the indices rearranges [a]. *)
Lemma take_idx_perm {A} (l : list A) (order : list nat) :
  order ≡ₚ seq 0 (length l) -> exists k, take_idx l order = Ok k /\ k ≡ₚ l.
Proof.
  intros Hp.
  assert (forall idx : list nat, Forall (fun i => i < length l) idx ->
            exists k, take_idx l idx = Ok k /\ Forall2 (fun i x => l !! i = Some x) idx k) as Htot.
  { intros idx Hidx. destruct (take_idx_total l idx Hidx) as [k Hk].
    exists k. split; [done|]. by apply take_idx_Ok. }
  destruct (Htot order) as (k & Hk & HF).
  { rewrite Hp. apply Forall_forall. intros i Hi%elem_of_seq. lia. }
  exists k. split; [done|].
  assert (forall idx1 idx2 : list nat, idx1 ≡ₚ idx2 ->
            forall k1, Forall2 (fun i x => l !! i = Some x) idx1 k1 ->
            exists k2, Forall2 (fun i x => l !! i = Some x) idx2 k2 /\ k1 ≡ₚ k2) as Hperm.
  { induction 1 as [|i idx1 idx2 _ IH|i1 i2 idx|idx1 idx2 idx3 _ IH1 _ IH2]; intros k1 H1.
    - apply Forall2_nil_inv_l in H1 as ->. exists []. split; [constructor|done].
    - apply Forall2_cons_inv_l in H1 as (x & k1' & Hx & H1 & ->).
      destruct (IH _ H1) as (k2 & H2 & Hp2). exists (x :: k2).
      split; [by constructor|]. by constructor.
    - apply Forall2_cons_inv_l in H1 as (x1 & k1' & Hx1 & H1 & ->).
      apply Forall2_cons_inv_l in H1 as (x2 & k1'' & Hx2 & H1 & ->).
      exists (x2 :: x1 :: k1''). split; [by repeat constructor|]. apply perm_swap.
    - destruct (IH1 _ H1) as (k2 & H2 & Hp2). destruct (IH2 _ H2) as (k3 & H3 & Hp3).
      exists k3. split; [done|]. by etrans. }
  destruct (Hperm _ _ Hp _ HF) as (k2 & H2 & Hp2). rewrite Hp2.
  assert (k2 = l) as ->; [|done].
  apply list_eq. intros i. destruct (decide (i < length l)) as [Hi|Hi].
  - assert (seq 0 (length l) !! i = Some i) as Hs by (by apply lookup_seq_lt).
    destruct (Forall2_lookup_l _ _ _ _ _ H2 Hs) as (x & -> & ->). done.
  - rewrite (lookup_ge_None_2 l) by lia. apply lookup_ge_None_2.
    rewrite <- (Forall2_length _ _ _ H2), length_seq. lia.
Qed.

(** The covariance matrix does not depend on the order of the rows. *)

Lemma zip_with_map_map {A B C D} (f : B -> C -> D) (g : A -> B) (h : A -> C) (l : list A) :
  zip_with f (map g l) (map h l) = map (fun x => f (g x) (h x)) l.
Proof. induction l as [|x l IH]; simpl; [done|]. by rewrite IH. Qed.

Lemma column_perm (X X' : matrix) j : X ≡ₚ X' -> column X j ≡ₚ column X' j.
Proof. intros Hp. unfold column. by apply fmap_Permutation. Qed.

Lemma mean_perm (v v' : vector) : v ≡ₚ v' -> mean v = mean v'.
Proof.
  intros Hp. unfold mean. rewrite (fsum_perm _ _ Hp).
  by rewrite (Permutation_length Hp).
Qed.

Lemma ncols_perm k (X X' : matrix) : is_matrix k X -> X ≡ₚ X' -> ncols X = ncols X'.
Proof.
  intros Hk Hp. assert (is_matrix k X') as Hk' by (unfold is_matrix; by rewrite <- Hp).
  destruct X as [|r X].
  - by apply Permutation_nil_l in Hp as ->.
  - destruct X' as [|r' X']; [by apply Permutation_nil_r in Hp|].
    apply Forall_cons in Hk as [? _], Hk' as [? _]. simpl. congruence.
Qed.

Lemma map_map_square {A B C} (F : B -> B -> C) (g : A -> B) (l : list A) :
  map (fun a => map (fun b => F a b) (map g l)) (map g l) =
  map (fun i => map (fun j => F (g i) (g j)) l) l.
Proof.
  rewrite map_map. apply map_ext. intros i. by rewrite map_map.
Qed.

Lemma cov_perm k (X X' : matrix) : is_matrix k X -> X ≡ₚ X' -> cov X = cov X'.
Proof.
  intros Hk Hp. unfold cov, transpose.
  rewrite <- (ncols_perm k X X' Hk Hp), <- (Permutation_length Hp).
  rewrite !map_map_square. apply map_ext. intros i.
  apply map_ext. intros j. f_equal.
  rewrite (mean_perm _ _ (column_perm X X' i Hp)).
  rewrite (mean_perm _ _ (column_perm X X' j Hp)).
  generalize (mean (column X' i)) (mean (column X' j)). intros mi mj.
  unfold dotp, vmul, column. rewrite !map_map, !zip_with_map_map.
  apply fsum_perm. by apply fmap_Permutation.
Qed.

(** ** Properties of the estimators *)

Section Properties.

Variable Logit_predict : list Z -> matrix -> result vector.
Variable OLS_params : vector -> matrix -> result vector.
Variable lstsq : matrix -> vector -> result vector.
Variable inv : matrix -> result matrix.
Variable argsort : vector -> list nat.

(** What the development assumes of the library calls. *)

(** [np.argsort] returns a permutation of the indices. *)
Hypothesis argsort_perm : forall v, argsort v ≡ₚ seq 0 (length v).

(** [predict()] returns one score per row. *)
Hypothesis Logit_length :
  forall D X p, Logit_predict D X = Ok p -> length p = length X.

(** The inverse of a matrix of reals is a matrix of reals of the same
    shape. *)
Hypothesis inv_spec :
  forall V W, real_matrix V -> inv V = Ok W ->
    real_matrix W /\ length W = length V /\ is_matrix (length V) W.

Lemma dot_mm_Ok (A W P : matrix) :
  dot_mm A W = Ok P <->
  Forall2 (fun r p => length r = length W /\
                      p = map (fun j => dotp r (column W j)) (seq 0 (ncols W))) A P.
Proof.
  unfold dot_mm. rewrite mapM_Ok.
  split; intros H; (eapply Forall2_impl; [exact H|]); intros r p; simpl.
  - case_decide; [|done]. by intros [= <-].
  - intros [Hl ->]. by rewrite decide_True.
Qed.

Lemma mahalanobis_rowwise k (V : matrix) :
  1 <= k -> real_matrix V -> rowwise k (mahalanobis_dist inv V).
Proof.
  intros Hk HV dX d. unfold mahalanobis_dist.
  intros (W & HW & (P & HP & [= <-])%bind_Ok)%bind_Ok.
  destruct (inv_spec V W HV HW) as (HWreal & HWlen & HWrows).
  apply dot_mm_Ok in HP. split.
  { rewrite length_map, length_zip_with, (Forall2_length _ _ _ HP). lia. }
  intros j r Hj Hr.
  destruct (Forall2_lookup_l _ _ _ _ _ HP Hj) as (p & Hp & Hlw & ->).
  assert (ncols W = k) as Hnc.
  { apply ncols_is_matrix; [congruence|]. intros ->. simpl in Hlw. lia. }
  rewrite map_lookup, lookup_zip_with, Hp, Hj. simpl. eexists. split; [done|]. split.
  - intros ->. apply fsum_nan_row; [done|]. by rewrite length_map, length_seq.
  - intros Hreal. apply fsum_real, vmul_real; [|done].
    apply Forall_forall. intros y (c & -> & Hc%elem_of_seq)%list_elem_of_fmap.
    apply dotp_real; [done|]. apply (column_real k); [done|congruence|lia].
Qed.

Lemma mahalanobis_total k (V W dX : matrix) :
  inv V = Ok W -> length W = k -> is_matrix k dX ->
  exists d, mahalanobis_dist inv V dX = Ok d.
Proof.
  intros HW Hlen HdX. unfold mahalanobis_dist. rewrite HW. simpl.
  assert (exists P, dot_mm dX W = Ok P) as [P ->]; [|simpl; eauto].
  exists (map (fun r => map (fun j => dotp r (column W j)) (seq 0 (ncols W))) dX).
  apply dot_mm_Ok. apply (proj2 (Forall2_fmap_r _ _ _ _)), Forall_Forall2_diag.
  eapply Forall_impl; [exact HdX|]. intros r Hr. simpl. split; [congruence|done].
Qed.

Lemma metric_rowwise k (mahalanobis : bool) (X : matrix) :
  1 <= k -> (mahalanobis = true -> real_matrix (cov X)) ->
  rowwise k (metric inv mahalanobis X).
Proof.
  intros Hk HV. destruct mahalanobis; simpl.
  - by apply mahalanobis_rowwise, HV.
  - by apply euclid_rowwise.
Qed.

(** Every distance vector is as long as the difference matrix. *)
Lemma metric_length (mahalanobis : bool) (X dX : matrix) d :
  metric inv mahalanobis X dX = Ok d -> length d = length dX.
Proof.
  destruct mahalanobis; simpl.
  - unfold mahalanobis_dist.
    intros (W & HW & (P & HP & [= <-])%bind_Ok)%bind_Ok.
    apply dot_mm_Ok in HP.
    rewrite length_map, length_zip_with, (Forall2_length _ _ _ HP). lia.
  - intros [= <-]. apply length_map.
Qed.

(** *** [MatchingWithoutReplacement] up to its matching loop *)

Local Abbreviation MWOR_match :=
  (MatchingWithoutReplacement_match Logit_predict inv argsort).

(** Lines 172-174: the data sorted by descending propensity score. *)
Definition presort (Yv : vector) (Dv : list Z) (Xv : matrix)
  : result (vector * list Z * matrix) :=
  pscore ← Logit_predict Dv Xv;
  let order := rev (argsort pscore) in
  Ys ← take_idx Yv order;
  Ds ← take_idx Dv order;
  Xs ← take_idx Xv order;
  Ok (Ys, Ds, Xs).

Lemma eqz_length (D : list Z) c : length (eqz D c) = length D.
Proof. apply length_map. Qed.

Lemma lookup_snoc (h l : list ndarray) i :
  (h ++ l) !! (length h + i) = l !! i.
Proof. rewrite lookup_app_r by lia. f_equal. lia. Qed.

(** The matching stage, computed: the sorted copies and the pool are new
    arrays behind those of the caller, and the loop is [greedy]. *)
Lemma run_match s Y D X Yv Dv Xv mahalanobis :
  heap s !! Y = Some (FloatArr Yv) -> heap s !! D = Some (IntArr Dv) ->
  heap s !! X = Some (FloatMat Xv) ->
  MWOR_match Y D X mahalanobis s =
    match presort Yv Dv Xv with
    | Err e => (Err e, s)
    | Ok (Ys, Ds, Xs) =>
        let n := length (heap s) in
        if decide (length Ys = length Ds) then
        if decide (length Xs = length Ds) then
          let Y_c := compress (eqz Ds 0) Ys in
          let Y_t := compress (eqz Ds 1) Ys in
          let pool := compress (eqz Ds 0) Xs in
          let X_t := compress (eqz Ds 1) Xs in
          let g := greedy (metric inv mahalanobis Xs) X_t (seq 0 (length Y_t))
                     pool (replicate (length Y_t) 0) in
          (idx ← g.1; Ok (mkMatched (n + 1) (n + 2) Y_c Y_t (n + 3) X_t idx),
           mkState (heap s ++ [FloatArr Ys; IntArr Ds; FloatMat Xs; FloatMat g.2])
                   (stdout s))
        else
          (Err IndexError,
           mkState (heap s ++ [FloatArr Ys; IntArr Ds; FloatMat Xs]) (stdout s))
        else
          (Err IndexError,
           mkState (heap s ++ [FloatArr Ys; IntArr Ds; FloatMat Xs]) (stdout s))
    end.
Proof.
  intros HY HD HX. unfold MatchingWithoutReplacement_match, presort.
  rewrite (run_bind _ _ _ _ _ (run_load_vec _ _ _ HY)).
  rewrite (run_bind _ _ _ _ _ (run_load_int _ _ _ HD)).
  rewrite (run_bind _ _ _ _ _ (run_load_mat _ _ _ HX)).
  unfold lift. unfold mbind at 1, M_bind at 1.
  destruct (Logit_predict Dv Xv) as [pscore|e]; [|done]. simpl.
  unfold mbind at 1, M_bind at 1.
  destruct (take_idx Yv (rev (argsort pscore))) as [Ys|e]; [|done]. simpl.
  unfold mbind at 1, M_bind at 1.
  destruct (take_idx Dv (rev (argsort pscore))) as [Ds|e]; [|done]. simpl.
  unfold mbind at 1, M_bind at 1.
  destruct (take_idx Xv (rev (argsort pscore))) as [Xs|e]; [|done]. simpl.
  unfold mbind at 1, M_bind at 1, alloc at 1. simpl.
  unfold mbind at 1, M_bind at 1, alloc at 1. simpl.
  unfold mbind at 1, M_bind at 1, alloc at 1. simpl.
  rewrite !length_app. simpl. rewrite <- !app_assoc. simpl.
  set (h1 := heap s ++ [FloatArr Ys; IntArr Ds; FloatMat Xs]).
  set (s1 := mkState h1 (stdout s)).
  assert (heap s1 !! length (heap s) = Some (FloatArr Ys)) as H0.
  { simpl. unfold h1. by rewrite <- (Nat.add_0_r (length (heap s))), lookup_snoc. }
  assert (heap s1 !! (length (heap s) + 1) = Some (IntArr Ds)) as H1.
  { simpl. unfold h1. by rewrite lookup_snoc. }
  assert (heap s1 !! (length (heap s) + 1 + 1) = Some (FloatMat Xs)) as H2.
  { simpl. unfold h1. by rewrite <- Nat.add_assoc, lookup_snoc. }
  rewrite (run_bind _ _ _ _ _ (run_load_vec _ _ _ H0)).
  rewrite (run_bind _ _ _ _ _ (run_load_int _ _ _ H1)).
  rewrite (run_bind _ _ _ _ _ (run_load_mat _ _ _ H2)).
  unfold mbind at 1, M_bind at 1, bool_index at 1.
  rewrite eqz_length.
  destruct (decide (length Ys = length Ds)) as [HlY|HlY]; simpl; [|done].
  unfold mbind at 1, M_bind at 1, bool_index at 1.
  rewrite eqz_length, (decide_True _ _ HlY). simpl.
  unfold mbind at 1, M_bind at 1, bool_index at 1.
  rewrite eqz_length.
  destruct (decide (length Xs = length Ds)) as [HlX|HlX]; simpl; [|done].
  unfold mbind at 1, M_bind at 1, alloc at 1. simpl.
  unfold mbind at 1, M_bind at 1, bool_index at 1.
  rewrite eqz_length, (decide_True _ _ HlX). simpl.
  set (pool := compress (eqz Ds 0) Xs).
  set (s2 := mkState (h1 ++ [FloatMat pool]) (stdout s)).
  assert (heap s2 !! (length (heap s) + 1 + 1) = Some (FloatMat Xs)) as H2'.
  { simpl. apply lookup_app_l_Some. exact H2. }
  rewrite (run_bind _ _ _ _ _ (run_load_mat _ _ _ H2')).
  assert (length h1 = length (heap s) + 3) as Hlh1
    by (unfold h1; rewrite length_app; simpl; lia).
  assert (heap s2 !! length h1 = Some (FloatMat pool)) as Hp.
  { simpl. by rewrite <- (Nat.add_0_r (length h1)), lookup_snoc. }
  unfold mbind at 1, M_bind at 1.
  rewrite (run_greedy _ _ _ _ _ _ _ Hp).
  set (g := greedy _ _ _ _ _).
  assert (set_cell s2 (length h1) (FloatMat g.2)
          = mkState (heap s ++ [FloatArr Ys; IntArr Ds; FloatMat Xs; FloatMat g.2]) (stdout s)) as ->.
  { unfold set_cell, s2. simpl. f_equal.
    rewrite insert_app_r_alt by lia. rewrite Nat.sub_diag. simpl.
    unfold h1. by rewrite <- app_assoc. }
  destruct g.1 as [idx|e]; simpl; [|done].
  unfold mret, M_ret. do 2 f_equal. f_equal; lia.
Qed.

Lemma presort_perm Yv Dv Xv Ys Ds Xs :
  length Yv = length Xv -> length Dv = length Xv ->
  presort Yv Dv Xv = Ok (Ys, Ds, Xs) ->
  Ys ≡ₚ Yv /\ Ds ≡ₚ Dv /\ Xs ≡ₚ Xv.
Proof.
  intros HlY HlD. unfold presort.
  intros (pscore & Hp & (Ys' & HYs & (Ds' & HDs & (Xs' & HXs & [= <- <- <-])%bind_Ok)%bind_Ok)%bind_Ok)%bind_Ok.
  assert (forall A (l : list A), length l = length Xv ->
            rev (argsort pscore) ≡ₚ seq 0 (length l)) as Hord.
  { intros A l ->. rewrite <- (Logit_length _ _ _ Hp).
    etrans; [|apply argsort_perm]. symmetry. apply Permutation_rev. }
  destruct (take_idx_perm Yv _ (Hord _ Yv HlY)) as (? & ? & ?).
  destruct (take_idx_perm Dv _ (Hord _ Dv HlD)) as (? & ? & ?).
  destruct (take_idx_perm Xv _ (Hord _ Xv eq_refl)) as (? & ? & ?).
  repeat split; congruence.
Qed.

Lemma presort_Ok Yv Dv Xv pscore :
  length Yv = length Xv -> length Dv = length Xv ->
  Logit_predict Dv Xv = Ok pscore ->
  exists Ys Ds Xs, presort Yv Dv Xv = Ok (Ys, Ds, Xs).
Proof.
  intros HlY HlD Hp. unfold presort. rewrite Hp. simpl.
  assert (forall A (l : list A), length l = length Xv ->
            rev (argsort pscore) ≡ₚ seq 0 (length l)) as Hord.
  { intros A l ->. rewrite <- (Logit_length _ _ _ Hp).
    etrans; [|apply argsort_perm]. symmetry. apply Permutation_rev. }
  destruct (take_idx_perm Yv _ (Hord _ Yv HlY)) as (Ys & -> & _).
  destruct (take_idx_perm Dv _ (Hord _ Dv HlD)) as (Ds & -> & _).
  destruct (take_idx_perm Xv _ (Hord _ Xv eq_refl)) as (Xs & -> & _).
  simpl. eauto.
Qed.

Lemma nanargmin_lt (d : vector) j : nanargmin d = Ok j -> j < length d.
Proof.
  unfold nanargmin. intros (j' & Hj' & Hj)%bind_Ok.
  destruct (forallb is_nan d); [done|]. injection Hj as <-.
  apply argmin_lt in Hj'; [by rewrite length_map in Hj'|].
  apply Forall_forall. intros y (x & -> & _)%list_elem_of_fmap. by destruct x.
Qed.

(** Without any assumption on the data, the loop writes one control index
    below the pool size for every round. *)
Lemma greedy_bounds dist X_t :
  (forall dX d, dist dX = Ok d -> length d = length dX) ->
  forall l pool idx idx' pool',
    greedy dist X_t l pool idx = (Ok idx', pool') ->
    exists js, length js = length l /\ Forall (fun j => j < length pool) js /\
      idx' = record idx l js /\ length pool' = length pool.
Proof.
  intros Hlen. induction l as [|i l IH]; intros pool idx idx' pool'; simpl.
  - intros [= <- <-]. by exists [].
  - destruct (index X_t i) as [x|]; simpl; [|done].
    destruct (dist (differences pool x)) as [d|] eqn:Hd; simpl; [|done].
    destruct (nanargmin d) as [j|] eqn:Hj; simpl; [|done].
    destruct (pool !! j) as [r|] eqn:Hr; [|done]. intros Hrun.
    destruct (IH _ _ _ _ Hrun) as (js & Hl & Hjs & -> & Hlp).
    rewrite mark_length in *. exists (j :: js). simpl.
    repeat split; [by rewrite Hl| |done].
    constructor; [by eapply lookup_lt_Some|done].
Qed.

Lemma NoDup_short {A} (l : list A) : length l <= 1 -> NoDup l.
Proof.
  destruct l as [|x [|y l]]; simpl; intros; try lia.
  - constructor.
  - apply NoDup_singleton.
Qed.

Lemma NoDup_lookup_ne {A} (l : list A) i1 i2 x1 x2 :
  NoDup l -> i1 < i2 -> l !! i1 = Some x1 -> l !! i2 = Some x2 -> x1 <> x2.
Proof.
  intros Hnd Hlt H1 H2 ->. pose proof (NoDup_lookup _ _ _ _ Hnd H1 H2). lia.
Qed.

(** The sorted data keep the shape and the values of the input. *)
Lemma perm_is_matrix k (X X' : matrix) : X' ≡ₚ X -> is_matrix k X -> is_matrix k X'.
Proof. intros Hp. unfold is_matrix. by rewrite Hp. Qed.

Lemma perm_real_matrix (X X' : matrix) : X' ≡ₚ X -> real_matrix X -> real_matrix X'.
Proof. intros Hp. unfold real_matrix. by rewrite Hp. Qed.

Lemma pool_ok_real k (pool : matrix) :
  real_matrix pool -> is_matrix k pool -> pool_ok k pool.
Proof.
  intros Hr Hk. apply Forall_forall. intros r Hin. right. split.
  - by apply (proj1 (Forall_forall _ _) Hr).
  - by apply (proj1 (Forall_forall _ _) Hk).
Qed.


(** *** The caller's arrays *)

Local Abbreviation MWR := (MatchingWithReplacement OLS_params inv).
Local Abbreviation MWOR_ITT :=
  (MatchingWithoutReplacement_ITT Logit_predict OLS_params inv argsort).
Local Abbreviation MWOR :=
  (MatchingWithoutReplacement Logit_predict OLS_params inv argsort).

(** Every array that exists before the call holds the same values after
    it, whether the call returns or raises. *)
Definition leaves_arrays {A} (m : M A) : Prop :=
  forall s r s', m s = (r, s') ->
    forall l a, heap s !! l = Some a -> heap s' !! l = Some a.

Lemma preserves_leaves {A} (m : M A) :
  (forall n, preserves n m (fun _ => True)) -> leaves_arrays m.
Proof.
  intros Hm s r s' Hrun l a Hl. by eapply preserves_lookup.
Qed.

Lemma preserves_reading {A} n Y D X (f : vector -> list Z -> matrix -> result A) :
  preserves n (reading Y D X f) (fun _ => True).
Proof.
  unfold reading.
  eapply preserves_bind; [apply preserves_load_vec|]. intros Yv _.
  eapply preserves_bind; [apply preserves_load_int|]. intros Dv _.
  eapply preserves_bind; [apply preserves_load_mat|]. intros Xv _.
  apply preserves_lift.
Qed.

Lemma preserves_greedy_step n dist X_c X_t i idx :
  n <= X_c -> preserves n (greedy_step dist X_c X_t i idx) (fun _ => True).
Proof.
  intros Hc. unfold greedy_step.
  eapply preserves_bind; [apply preserves_load_mat|]. intros pool _.
  eapply preserves_bind; [apply preserves_lift|]. intros x _.
  eapply preserves_bind; [apply preserves_lift|]. intros d _.
  eapply preserves_bind; [apply preserves_lift|]. intros j _.
  eapply preserves_bind; [by apply preserves_set_row_nan|]. intros _ _.
  by apply preserves_ret.
Qed.

(** The pool that the matching loop marks is an array of the call's own:
    it lies behind every array the caller holds. *)
Lemma preserves_match n Y D X mahalanobis :
  preserves n (MWOR_match Y D X mahalanobis) (fun m => n <= m_X_c m).
Proof.
  unfold MatchingWithoutReplacement_match.
  eapply preserves_bind; [apply preserves_load_vec|]. intros Yv _.
  eapply preserves_bind; [apply preserves_load_int|]. intros Dv _.
  eapply preserves_bind; [apply preserves_load_mat|]. intros Xv _.
  eapply preserves_bind; [apply preserves_lift|]. intros pscore _.
  eapply preserves_bind; [apply preserves_lift|]. intros Ys _.
  eapply preserves_bind; [apply preserves_lift|]. intros Ds _.
  eapply preserves_bind; [apply preserves_lift|]. intros Xs _.
  eapply preserves_bind; [apply preserves_alloc|]. intros Y' _.
  eapply preserves_bind; [apply preserves_alloc|]. intros D' _.
  eapply preserves_bind; [apply preserves_alloc|]. intros X' _.
  eapply preserves_bind; [apply preserves_load_vec|]. intros Yv' _.
  eapply preserves_bind; [apply preserves_load_int|]. intros Dv' _.
  eapply preserves_bind; [apply preserves_load_mat|]. intros Xv' _.
  eapply preserves_bind; [apply preserves_lift|]. intros Y_c _.
  eapply preserves_bind; [apply preserves_lift|]. intros Y_t _.
  eapply preserves_bind; [apply preserves_lift|]. intros pool _.
  eapply preserves_bind; [apply preserves_alloc|]. intros X_c HXc.
  eapply preserves_bind; [apply preserves_lift|]. intros X_t _.
  eapply preserves_bind; [apply preserves_load_mat|]. intros Xv'' _.
  eapply preserves_bind.
  { apply preserves_for_range. intros i idx. by apply preserves_greedy_step. }
  intros idx _. by apply preserves_ret.
Qed.

Lemma preserves_ITT n Y D X mahalanobis bias_correction :
  preserves n (MWOR_ITT Y D X mahalanobis bias_correction) (fun _ => True).
Proof.
  unfold MatchingWithoutReplacement_ITT.
  eapply preserves_bind; [apply preserves_match|]. intros m _.
  destruct bias_correction; [|apply preserves_lift].
  eapply preserves_bind; [apply preserves_load_mat|]. intros Xv _.
  eapply preserves_bind; [apply preserves_load_int|]. intros Dv _.
  eapply preserves_bind; [apply preserves_lift|]. intros X_c _.
  apply preserves_lift.
Qed.

Lemma preserves_MWOR n Y D X mahalanobis bias_correction :
  preserves n (MWOR Y D X mahalanobis bias_correction) (fun _ => True).
Proof.
  unfold MatchingWithoutReplacement.
  eapply preserves_bind; [apply preserves_load_int|]. intros Dv _.
  destruct (_ >? _)%Z.
  - eapply preserves_bind; [apply preserves_print|]. intros _ _.
    apply preserves_reading.
  - eapply preserves_bind; [apply preserves_ITT|]. intros ITT _.
    by apply preserves_ret.
Qed.

(** C10. No estimator entry point changes an array that exists when it is
    called, the caller's [Y], [D] and [X] among them, whether it returns
    or raises.  The pool in which [MatchingWithoutReplacement] marks the
    consumed controls is an array the call creates itself, and after the
    call the three input arrays read as before. *)
Theorem C10_inputs_not_mutated Y D X (b1 b2 : bool) :
  leaves_arrays (SyntheticEstimates lstsq Y D X b1) /\
  leaves_arrays (MWR Y D X b1 b2) /\
  leaves_arrays (MWOR Y D X b1 b2) /\
  leaves_arrays (MatchingEstimates Logit_predict OLS_params inv argsort Y D X b1 b2) /\
  leaves_arrays (OLSEstimates OLS_params Y D X) /\
  (forall s m s', MWOR_match Y D X b1 s = (Ok m, s') ->
     length (heap s) <= m_X_c m /\ heap s !! m_X_c m = None) /\
  (forall s r s' Yv Dv Xv,
     MWOR Y D X b1 b2 s = (r, s') ->
     heap s !! Y = Some (FloatArr Yv) -> heap s !! D = Some (IntArr Dv) ->
     heap s !! X = Some (FloatMat Xv) ->
     load_vec Y s' = (Ok Yv, s') /\ load_int D s' = (Ok Dv, s') /\
     load_mat X s' = (Ok Xv, s')).
Proof.
  split; [apply preserves_leaves; intros n; apply preserves_reading|].
  split; [apply preserves_leaves; intros n; apply preserves_reading|].
  split; [apply preserves_leaves; intros n; apply preserves_MWOR|].
  split.
  { unfold MatchingEstimates. destruct b1; apply preserves_leaves; intros n.
    - apply preserves_reading.
    - apply preserves_MWOR. }
  split; [apply preserves_leaves; intros n; apply preserves_reading|].
  split.
  - intros s m s' Hrun.
    destruct (preserves_match (length (heap s)) Y D X b1 s _ _ (le_n _) Hrun)
      as (_ & _ & Hm). specialize (Hm m eq_refl).
    split; [done|]. by apply lookup_ge_None_2.
  - intros s r s' Yv Dv Xv Hrun HY HD HX.
    assert (leaves_arrays (MWOR Y D X b1 b2)) as Hkeep
      by (apply preserves_leaves; intros n; apply preserves_MWOR).
    specialize (Hkeep s r s' Hrun).
    split; [|split].
    + apply run_load_vec. by apply Hkeep.
    + apply run_load_int. by apply Hkeep.
    + apply run_load_mat. by apply Hkeep.
Qed.

(** *** What the marking leaves alone *)

Lemma mark_is_matrix k pool j : is_matrix k pool -> is_matrix k (mark pool j).
Proof.
  intros Hk. unfold mark. destruct (pool !! j) as [r|] eqn:Hr; [|done].
  apply Forall_insert; [done|]. rewrite nan_row_length.
  by apply (proj1 (Forall_lookup _ _) Hk j r).
Qed.

(** Whatever the distance, the loop turns exactly the rows it selects
    into NaN rows and leaves every other row of the pool in its place
    with its values. *)
Lemma greedy_frame k dist X_t :
  forall l pool idx idx' pool',
    is_matrix k pool ->
    greedy dist X_t l pool idx = (Ok idx', pool') ->
    exists js, length js = length l /\ idx' = record idx l js /\
      length pool' = length pool /\ is_matrix k pool' /\
      (forall j, j ∈ js -> j < length pool /\ pool' !! j = Some (nan_row k)) /\
      (forall j, j ∉ js -> pool' !! j = pool !! j).
Proof.
  induction l as [|i l IH]; intros pool idx idx' pool' Hk; simpl.
  - intros [= <- <-]. exists []. split_and!; try done.
    intros j Hj. by apply elem_of_nil in Hj.
  - destruct (index X_t i) as [x|]; simpl; [|done].
    destruct (dist (differences pool x)) as [d|]; simpl; [|done].
    destruct (nanargmin d) as [j|]; simpl; [|done].
    destruct (pool !! j) as [r|] eqn:Hr; [|done]. intros Hrun.
    destruct (IH _ _ _ _ (mark_is_matrix k pool j Hk) Hrun)
      as (js & Hl & -> & Hlp & Hk' & Hsel & Hrest).
    rewrite mark_length in *. exists (j :: js). simpl.
    split_and!; try done; try congruence.
    + intros j' [->|Hin]%elem_of_cons.
      * split; [by eapply lookup_lt_Some|].
        destruct (decide (j ∈ js)) as [Hin|Hnin]; [by apply Hsel|].
        rewrite Hrest by done. rewrite (mark_lookup_eq _ _ _ Hr).
        by rewrite (proj1 (Forall_lookup _ _) Hk _ _ Hr).
      * by apply Hsel.
    + intros j' Hj'. apply not_elem_of_cons in Hj' as [Hne Hj'].
      rewrite Hrest by done. by apply mark_lookup_ne.
Qed.

Lemma take_idx_Forall {A} (P : A -> Prop) (l : list A) idx k :
  take_idx l idx = Ok k -> Forall P l -> Forall P k.
Proof.
  rewrite take_idx_Ok. intros H HP. apply Forall_lookup. intros i x Hx.
  destruct (Forall2_lookup_r _ _ _ _ _ H Hx) as (j & _ & Hj).
  by eapply (proj1 (Forall_lookup _ _) HP).
Qed.

Lemma presort_Forall (P : vector -> Prop) Yv Dv Xv Ys Ds Xs :
  presort Yv Dv Xv = Ok (Ys, Ds, Xs) -> Forall P Xv -> Forall P Xs.
Proof.
  unfold presort.
  intros (pscore & Hp & (Ys' & HYs & (Ds' & HDs & (Xs' & HXs & [= <- <- <-])%bind_Ok)%bind_Ok)%bind_Ok)%bind_Ok.
  by eapply take_idx_Forall.
Qed.

(** What a returning matching stage has computed. *)
Lemma match_inv s Y D X Yv Dv Xv mahalanobis m s' :
  heap s !! Y = Some (FloatArr Yv) -> heap s !! D = Some (IntArr Dv) ->
  heap s !! X = Some (FloatMat Xv) ->
  MWOR_match Y D X mahalanobis s = (Ok m, s') ->
  exists Ys Ds Xs pool',
    presort Yv Dv Xv = Ok (Ys, Ds, Xs) /\
    length Ys = length Ds /\ length Xs = length Ds /\
    greedy (metric inv mahalanobis Xs) (compress (eqz Ds 1) Xs)
      (seq 0 (length (compress (eqz Ds 1) Ys))) (compress (eqz Ds 0) Xs)
      (replicate (length (compress (eqz Ds 1) Ys)) 0) = (Ok (match_index m), pool') /\
    m = mkMatched (length (heap s) + 1) (length (heap s) + 2)
          (compress (eqz Ds 0) Ys) (compress (eqz Ds 1) Ys)
          (length (heap s) + 3) (compress (eqz Ds 1) Xs) (match_index m) /\
    s' = mkState (heap s ++ [FloatArr Ys; IntArr Ds; FloatMat Xs; FloatMat pool'])
           (stdout s).
Proof.
  intros HY HD HX. rewrite (run_match s Y D X Yv Dv Xv) by done.
  destruct (presort Yv Dv Xv) as [[[Ys Ds] Xs]|]; [|done].
  destruct (decide (length Ys = length Ds)) as [HlY|]; [|done].
  destruct (decide (length Xs = length Ds)) as [HlX|]; [|done]. cbv zeta.
  destruct (greedy _ _ _ _ _) as [[idx|e] pool'] eqn:Hg; simpl; [|done].
  intros [= <- <-]. exists Ys, Ds, Xs, pool'. done.
Qed.

(** The effects of [MatchingWithoutReplacement] are computed from the
    assignment and from [X[D==0]] as it was before the loop. *)
Lemma run_ITT s Y D X Yv Dv Xv mahalanobis bias_correction m s' :
  heap s !! Y = Some (FloatArr Yv) -> heap s !! D = Some (IntArr Dv) ->
  heap s !! X = Some (FloatMat Xv) ->
  MWOR_match Y D X mahalanobis s = (Ok m, s') ->
  exists Ys Ds Xs,
    presort Yv Dv Xv = Ok (Ys, Ds, Xs) /\
    heap s' !! m_D m = Some (IntArr Ds) /\ heap s' !! m_X m = Some (FloatMat Xs) /\
    MWOR_ITT Y D X mahalanobis bias_correction s =
      ((if bias_correction
        then corrected_ITT OLS_params (m_Y_c m) (m_Y_t m) (compress (eqz Ds 0) Xs)
               (m_X_t m) (match_index m)
        else raw_ITT (m_Y_c m) (m_Y_t m) (match_index m)), s').
Proof.
  intros HY HD HX Hrun.
  destruct (match_inv _ _ _ _ _ _ _ _ _ _ HY HD HX Hrun)
    as (Ys & Ds & Xs & pool' & Hpre & HlY & HlX & Hg & Hm & Hs').
  exists Ys, Ds, Xs. split; [done|].
  assert (heap s' !! m_D m = Some (IntArr Ds)) as H1.
  { rewrite Hm, Hs'. simpl. by rewrite lookup_snoc. }
  assert (heap s' !! m_X m = Some (FloatMat Xs)) as H2.
  { rewrite Hm, Hs'. simpl. by rewrite lookup_snoc. }
  split; [done|]. split; [done|].
  unfold MatchingWithoutReplacement_ITT.
  rewrite (run_bind _ _ _ _ _ Hrun). destruct bias_correction; [|done].
  rewrite (run_bind _ _ _ _ _ (run_load_mat _ _ _ H2)).
  rewrite (run_bind _ _ _ _ _ (run_load_int _ _ _ H1)).
  unfold lift, mbind, M_bind, bool_index. rewrite eqz_length.
  by rewrite (decide_True _ _ HlX).
Qed.

(** C8. In [MatchingWithoutReplacement], overwriting a consumed control
    with NaN changes that row of the pool only: the pool keeps its length,
    every control that was not selected keeps its position and its
    covariate values, and the sorted arrays [X] and [D] are as they were.
    The bias-correction regression and the correction term are computed
    from the control covariates as they were before any marking, taken at
    the recorded indices: those rows hold the original real values although
    the same rows of the pool are NaN by then. *)
Theorem C8_marking_frame s Y D X (Yv : vector) (Dv : list Z) (Xv : matrix)
    k mahalanobis m s' :
  heap s !! Y = Some (FloatArr Yv) -> heap s !! D = Some (IntArr Dv) ->
  heap s !! X = Some (FloatMat Xv) ->
  is_matrix k Xv -> real_matrix Xv ->
  MWOR_match Y D X mahalanobis s = (Ok m, s') ->
  exists Ys Ds Xs pool',
    presort Yv Dv Xv = Ok (Ys, Ds, Xs) /\
    heap s' !! m_D m = Some (IntArr Ds) /\
    heap s' !! m_X m = Some (FloatMat Xs) /\
    heap s' !! m_X_c m = Some (FloatMat pool') /\
    let X_c := compress (eqz Ds 0) Xs in
    length pool' = length X_c /\
    (forall j, j ∈ match_index m -> pool' !! j = Some (nan_row k)) /\
    (forall j, j ∉ match_index m -> pool' !! j = X_c !! j) /\
    (forall ITT s'', MWOR_ITT Y D X mahalanobis true s = (Ok ITT, s'') ->
       corrected_ITT OLS_params (m_Y_c m) (m_Y_t m) X_c (m_X_t m) (match_index m)
         = Ok ITT /\
       exists X_m, take_idx X_c (match_index m) = Ok X_m /\ real_matrix X_m /\
         forall i j, match_index m !! i = Some j -> X_m !! i = X_c !! j).
Proof.
  intros HY HD HX HkX HrX Hrun.
  destruct (match_inv _ _ _ _ _ _ _ _ _ _ HY HD HX Hrun)
    as (Ys & Ds & Xs & pool' & Hpre & HlY & HlX & Hg & Hm & Hs').
  destruct (run_ITT _ _ _ _ _ _ _ _ true _ _ HY HD HX Hrun)
    as (Ys' & Ds' & Xs' & Hpre' & H1 & H2 & HITT).
  assert (Ys' = Ys /\ Ds' = Ds /\ Xs' = Xs) as (-> & -> & ->)
    by (rewrite Hpre in Hpre'; by injection Hpre' as <- <- <-).
  exists Ys, Ds, Xs, pool'. split; [done|]. split; [done|]. split; [done|].
  split.
  { rewrite Hm, Hs'. simpl. by rewrite lookup_snoc. }
  assert (is_matrix k (compress (eqz Ds 0) Xs)) as Hkp
    by (apply compress_Forall; by eapply presort_Forall).
  assert (real_matrix (compress (eqz Ds 0) Xs)) as Hrp
    by (apply compress_Forall; by eapply (presort_Forall real_vec)).
  destruct (greedy_frame k _ _ _ _ _ _ _ Hkp Hg)
    as (js & Hljs & Hidx & Hlp & _ & Hsel & Hrest).
  rewrite length_seq in Hljs. rewrite <- Hljs in Hidx at 1.
  rewrite <- Hljs in Hidx. rewrite record_all in Hidx. subst js.
  cbv zeta. split; [done|]. split; [intros j Hj; by apply Hsel|].
  split; [done|].
  intros ITT s''. rewrite HITT. intros [= HI <-]. split; [done|].
  unfold corrected_ITT in HI.
  apply bind_Ok in HI as (Y_m & HYm & (X_m & HXm & _)%bind_Ok).
  exists X_m. split; [done|]. split; [by eapply take_idx_Forall|].
  intros i j Hi. destruct (take_idx_lookup _ _ _ _ _ HXm Hi) as (x & -> & ->). done.
Qed.

(** *** The loop of [MatchingWithReplacement] *)

(** The control chosen for treated unit [i]. *)
Definition nearest (dist : matrix -> result vector) (X_c X_t : matrix) (i : nat)
  : result nat :=
  x ← index X_t i; d ← dist (differences X_c x); argmin d.

Lemma for_range_record {A} (choose : nat -> result A) (l : list nat) :
  forall (idx idx' : list A),
    for_range l (fun i idx => j ← choose i; Ok (<[i := j]> idx)) idx = Ok idx' <->
    exists js, Forall2 (fun i j => choose i = Ok j) l js /\ idx' = record idx l js.
Proof.
  induction l as [|i l IH]; intros idx idx'; simpl.
  - split.
    + intros [= <-]. exists []. split; [constructor|done].
    + intros (js & ->%Forall2_nil_inv_l & ->). done.
  - split.
    + intros (idx1 & (j & Hj & [= <-])%bind_Ok & Hrest)%bind_Ok.
      apply IH in Hrest as (js & Hjs & ->). exists (j :: js).
      split; [by constructor|done].
    + intros (js & (j & js' & Hj & Hjs & ->)%Forall2_cons_inv_l & ->).
      rewrite Hj. simpl. apply IH. by exists js'.
Qed.

Lemma record_all_n {A} n (js : list A) (x : A) :
  length js = n -> record (replicate n x) (seq 0 n) js = js.
Proof. intros <-. apply record_all. Qed.

Lemma mwr_match_body mahalanobis X X_c X_t N_t :
  MatchingWithReplacement_match inv mahalanobis X X_c X_t N_t =
  for_range (seq 0 N_t)
    (fun i idx => j ← nearest (metric inv mahalanobis X) X_c X_t i; Ok (<[i := j]> idx))
    (replicate N_t 0).
Proof.
  unfold MatchingWithReplacement_match. generalize (replicate N_t 0).
  induction (seq 0 N_t) as [|i l IH]; intros idx; simpl; [done|].
  assert ((x ← index X_t i; d ← metric inv mahalanobis X (differences X_c x);
           j ← argmin d; Ok (<[i:=j]> idx))
          = (j ← nearest (metric inv mahalanobis X) X_c X_t i; Ok (<[i := j]> idx))) as ->.
  { unfold nearest. destruct (index X_t i); simpl; [|done].
    by destruct (metric inv mahalanobis X _). }
  destruct (nearest (metric inv mahalanobis X) X_c X_t i
            ≫= (fun j => Ok (<[i:=j]> idx))); simpl; [apply IH|done].
Qed.

(** The loop returns exactly when every treated unit finds a nearest
    control, and then it holds these controls in order. *)
Lemma mwr_match_spec mahalanobis X X_c X_t N_t idx :
  MatchingWithReplacement_match inv mahalanobis X X_c X_t N_t = Ok idx <->
  length idx = N_t /\
  forall i, i < N_t ->
    exists j, idx !! i = Some j /\ nearest (metric inv mahalanobis X) X_c X_t i = Ok j.
Proof.
  rewrite mwr_match_body, for_range_record. split.
  - intros (js & Hjs & ->).
    pose proof (Forall2_length _ _ _ Hjs) as Hl. rewrite length_seq in Hl.
    rewrite record_all_n by done. split; [done|]. intros i Hi.
    destruct (Forall2_lookup_l _ _ _ i i Hjs) as (j & Hj & Hc); [by apply lookup_seq_lt|].
    eauto.
  - intros [Hl Hall]. exists idx. split; [|by rewrite record_all_n].
    apply Forall2_same_length_lookup_2; [by rewrite length_seq|].
    intros i i' j [-> Hi]%lookup_seq Hj. simpl.
    destruct (Hall i Hi) as (j' & Hj' & Hc). congruence.
Qed.

Lemma argmin_scan_lt (a : vector) : forall mp mi i,
  mi < i -> argmin_scan mp mi i a < i + length a.
Proof.
  induction a as [|x a IH]; intros mp mi i Hlt; simpl; [lia|].
  destruct (is_nan mp); [lia|].
  destruct (negb (fge x mp)).
  - specialize (IH x i (S i)). lia.
  - specialize (IH mp mi (S i)). lia.
Qed.

Lemma argmin_in_range (a : vector) j : argmin a = Ok j -> j < length a.
Proof.
  destruct a as [|x a]; [done|]. intros [= <-]. simpl.
  pose proof (argmin_scan_lt a x 0 1). lia.
Qed.

Lemma euclid_real (dX : matrix) d :
  real_matrix dX -> euclid_dist dX = Ok d -> real_vec d.
Proof.
  intros HdX [= <-]. apply Forall_forall. intros y (r & -> & Hr)%list_elem_of_fmap.
  apply (proj1 (Forall_forall _ _) HdX) in Hr.
  by destruct (fsum_squares r Hr) as (q & -> & _).
Qed.

Lemma differences_real (X_c : matrix) (x : vector) :
  real_matrix X_c -> real_vec x -> real_matrix (differences X_c x).
Proof.
  intros HX Hx. apply Forall_forall. intros y (r & -> & Hr)%list_elem_of_fmap.
  apply vsub_real; [|done]. by apply (proj1 (Forall_forall _ _) HX).
Qed.

(** C9. In with-replacement matching the control recorded for a treated
    unit is the argmin of its distance vector: when the distances are
    numbers, no control is nearer, and every control with a lower index
    is strictly farther, so that among several controls at the minimal
    distance the lowest index is assigned.  Under the Euclidean metric
    the distances of real covariates are numbers.  The result of the
    entry point is a function of the contents of its three arrays alone,
    so two runs on identical inputs agree. *)
Theorem C9_ties_lowest_index mahalanobis (X X_c X_t : matrix) N_t idx :
  MatchingWithReplacement_match inv mahalanobis X X_c X_t N_t = Ok idx ->
  (forall i j, idx !! i = Some j ->
     exists x d dj,
       X_t !! i = Some x /\
       metric inv mahalanobis X (differences X_c x) = Ok d /\
       d !! j = Some dj /\
       (numbers d ->
          forall j' y, d !! j' = Some y ->
            fle dj y = true /\ (j' < j -> flt dj y = true)) /\
       (mahalanobis = false -> real_matrix X_c -> real_vec x -> numbers d)) /\
  (forall bias_correction s1 s2 Y1 D1 X1 Y2 D2 X2 Yv Dv Xv,
     heap s1 !! Y1 = Some (FloatArr Yv) -> heap s1 !! D1 = Some (IntArr Dv) ->
     heap s1 !! X1 = Some (FloatMat Xv) ->
     heap s2 !! Y2 = Some (FloatArr Yv) -> heap s2 !! D2 = Some (IntArr Dv) ->
     heap s2 !! X2 = Some (FloatMat Xv) ->
     (MWR Y1 D1 X1 mahalanobis bias_correction s1).1
     = (MWR Y2 D2 X2 mahalanobis bias_correction s2).1).
Proof.
  intros Hrun. split.
  - intros i j Hij. apply mwr_match_spec in Hrun as [Hl Hall].
    destruct (Hall i) as (j' & Hj' & Hn); [rewrite <- Hl; by eapply lookup_lt_Some|].
    assert (j' = j) as -> by congruence.
    unfold nearest in Hn.
    apply bind_Ok in Hn as (x & Hx%index_Ok & (d & Hd & Hj)%bind_Ok).
    destruct (lookup_lt_is_Some_2 d j (argmin_in_range _ _ Hj)) as [dj Hdj].
    exists x, d, dj. split_and!; try done.
    + intros Hnum. destruct (argmin_spec d j Hnum Hj) as (m & Hm & Hmin).
      assert (m = dj) as -> by congruence. done.
    + intros -> HXc Hrx. simpl in Hd. apply real_vec_numbers.
      eapply euclid_real; [|done]. by apply differences_real.
  - intros bc s1 s2 Y1 D1 X1 Y2 D2 X2 Yv Dv Xv H1 H2 H3 H4 H5 H6.
    unfold MatchingWithReplacement.
    by rewrite (run_reading _ s1 _ _ _ _ _ _ H1 H2 H3),
               (run_reading _ s2 _ _ _ _ _ _ H4 H5 H6).
Qed.

(** *** The individual effects *)

(** The effect of one matched pair, given the slopes of the regression. *)
Definition effect (bias_correction : bool) (slopes : vector)
    (y_t y_c : float) (x_t x_c : vector) : float :=
  if bias_correction
  then fsub (fsub y_t y_c) (dotp (vsub x_t x_c) slopes)
  else fsub y_t y_c.

(** [ITT] holds, for every treated unit, the effect of that unit and the
    control assigned to it; with bias correction the slopes are the
    coefficients after the intercept of the regression of the matched
    control outcomes on the matched control covariates. *)
Definition effects (bias_correction : bool) (Y_c Y_t : vector)
    (X_c X_t : matrix) (idx : list nat) (ITT : vector) : Prop :=
  length ITT = length Y_t /\
  exists slopes,
    (bias_correction = true ->
       exists Y_m X_m params,
         take_idx Y_c idx = Ok Y_m /\ take_idx X_c idx = Ok X_m /\
         OLS_params Y_m X_m = Ok params /\ slopes = drop 1 params) /\
    forall i y_t, Y_t !! i = Some y_t ->
      exists j y_c x_t x_c,
        idx !! i = Some j /\ Y_c !! j = Some y_c /\
        X_t !! i = Some x_t /\ X_c !! j = Some x_c /\
        ITT !! i = Some (effect bias_correction slopes y_t y_c x_t x_c).

Lemma dot_Ok (a b : vector) y : dot a b = Ok y <-> length a = length b /\ y = dotp a b.
Proof.
  unfold dot. case_decide.
  - split; [by intros [= <-]|by intros [_ ->]].
  - split; [done|by intros [? _]].
Qed.

Lemma dot_mv_Ok (A : matrix) (v B : vector) :
  dot_mv A v = Ok B <->
  Forall2 (fun r b => length r = length v /\ b = dotp r v) A B.
Proof.
  unfold dot_mv. rewrite mapM_Ok.
  split; intros H; (eapply Forall2_impl; [exact H|]); intros r b; apply dot_Ok.
Qed.

Lemma effects_intro (bias_correction : bool) Y_c Y_t X_c X_t idx ITT :
  length idx = length Y_t -> length X_t = length Y_t -> length X_c = length Y_c ->
  (if bias_correction then corrected_ITT OLS_params Y_c Y_t X_c X_t idx
   else raw_ITT Y_c Y_t idx) = Ok ITT ->
  effects bias_correction Y_c Y_t X_c X_t idx ITT.
Proof.
  intros Hli HlX HlXc HITT.
  assert (forall i y_t, Y_t !! i = Some y_t ->
            exists j x_t, idx !! i = Some j /\ X_t !! i = Some x_t) as Hrow.
  { intros i y_t Hy. apply lookup_lt_Some in Hy.
    destruct (lookup_lt_is_Some_2 idx i) as [j Hj]; [lia|].
    destruct (lookup_lt_is_Some_2 X_t i) as [x_t Hx]; [lia|]. eauto. }
  destruct bias_correction.
  - unfold corrected_ITT in HITT.
    apply bind_Ok in HITT as (Y_m & HYm & (X_m & HXm & (params & Hp & (B & HB & [= <-])%bind_Ok)%bind_Ok)%bind_Ok).
    apply dot_mv_Ok in HB.
    pose proof (take_idx_length _ _ _ HYm) as HlYm.
    pose proof (take_idx_length _ _ _ HXm) as HlXm.
    pose proof (Forall2_length _ _ _ HB) as HlB.
    rewrite length_zip_with in HlB.
    split.
    { unfold vsub. rewrite !length_zip_with. lia. }
    exists (drop 1 params). split; [intros _; by exists Y_m, X_m, params|].
    intros i y_t Hy. destruct (Hrow i y_t Hy) as (j & x_t & Hj & Hx).
    destruct (take_idx_lookup _ _ _ _ _ HYm Hj) as (y_c & Hyc & HYc).
    destruct (take_idx_lookup _ _ _ _ _ HXm Hj) as (x_c & Hxc & HXc).
    exists j, y_c, x_t, x_c. split_and!; try done.
    assert (zip_with vsub X_t X_m !! i = Some (vsub x_t x_c)) as Hd
      by (by rewrite lookup_zip_with, Hx, Hxc).
    destruct (Forall2_lookup_l _ _ _ _ _ HB Hd) as (b & Hb & _ & ->).
    unfold vsub at 1 2. by rewrite !lookup_zip_with, Hy, Hyc, Hb.
  - unfold raw_ITT in HITT. apply bind_Ok in HITT as (Y_m & HYm & [= <-]).
    pose proof (take_idx_length _ _ _ HYm) as HlYm.
    split.
    { unfold vsub. rewrite length_zip_with. lia. }
    exists (@nil float). split; [done|].
    intros i y_t Hy. destruct (Hrow i y_t Hy) as (j & x_t & Hj & Hx).
    destruct (take_idx_lookup _ _ _ _ _ HYm Hj) as (y_c & Hyc & HYc).
    destruct (lookup_lt_is_Some_2 X_c j) as [x_c Hxc].
    { rewrite HlXc. by eapply lookup_lt_Some. }
    exists j, y_c, x_t, x_c. split_and!; try done.
    unfold vsub. by rewrite lookup_zip_with, Hy, Hyc.
Qed.

Lemma raw_ITT_total Y_c Y_t idx :
  Forall (fun j => j < length Y_c) idx -> exists ITT, raw_ITT Y_c Y_t idx = Ok ITT.
Proof.
  intros Hidx. unfold raw_ITT.
  destruct (take_idx_total Y_c idx Hidx) as [Y_m ->]. simpl. eauto.
Qed.

Lemma corrected_ITT_total k Y_c Y_t X_c X_t idx :
  length X_c = length Y_c -> Forall (fun j => j < length Y_c) idx ->
  is_matrix k X_c -> is_matrix k X_t ->
  (forall Y_m X_m, take_idx Y_c idx = Ok Y_m -> take_idx X_c idx = Ok X_m ->
     exists params, OLS_params Y_m X_m = Ok params /\ length params = S k) ->
  exists ITT, corrected_ITT OLS_params Y_c Y_t X_c X_t idx = Ok ITT.
Proof.
  intros HlXc Hidx HkXc HkXt Hols. unfold corrected_ITT.
  destruct (take_idx_total Y_c idx Hidx) as [Y_m HYm].
  destruct (take_idx_total X_c idx) as [X_m HXm]; [by rewrite HlXc|].
  destruct (Hols _ _ HYm HXm) as (params & Hp & Hlp).
  rewrite HYm, HXm. simpl. rewrite Hp. simpl.
  assert (exists B, dot_mv (zip_with vsub X_t X_m) (drop 1 params) = Ok B) as [B ->];
    [|simpl; eauto].
  exists (map (fun r => dotp r (drop 1 params)) (zip_with vsub X_t X_m)).
  apply dot_mv_Ok. apply (proj2 (Forall2_fmap_r _ _ _ _)), Forall_Forall2_diag.
  apply Forall_forall. intros r Hr. split; [|done].
  apply elem_of_lookup_zip_with in Hr as (i & x_t & x_m & -> & Hxt & Hxm).
  rewrite length_drop, Hlp. unfold vsub. rewrite length_zip_with.
  rewrite (proj1 (Forall_lookup _ _) HkXt _ _ Hxt).
  rewrite (proj1 (Forall_lookup _ _) (take_idx_Forall _ _ _ _ HXm HkXc) _ _ Hxm). lia.
Qed.

Lemma for_range_length {S} (l : list nat) (body : nat -> list S -> result (list S)) :
  (forall i idx idx', body i idx = Ok idx' -> length idx' = length idx) ->
  forall idx idx', for_range l body idx = Ok idx' -> length idx' = length idx.
Proof.
  intros Hbody. induction l as [|i l IH]; intros idx idx'; simpl.
  - by intros [= <-].
  - intros (idx1 & H1 & H2)%bind_Ok. rewrite (IH _ _ H2). by eapply Hbody.
Qed.

Definition notice : string :=
  "Not enough control units, matching with replacement instead.".

(** With more treated than control units [MatchingWithoutReplacement]
    prints its notice and returns what [MatchingWithReplacement] returns
    with bias correction switched on, whatever its own flag says. *)
Lemma fallback_run s Y D X Dv mahalanobis bias_correction :
  heap s !! D = Some (IntArr Dv) ->
  (2 * sumZ Dv >? Z.of_nat (length Dv))%Z = true ->
  MWOR Y D X mahalanobis bias_correction s =
  MWR Y D X mahalanobis true (mkState (heap s) (stdout s ++ [notice])).
Proof.
  intros HD Hfb. unfold MatchingWithoutReplacement.
  rewrite (run_bind _ _ _ _ _ (run_load_int _ _ _ HD)), Hfb.
  by unfold mbind at 1, M_bind at 1, print.
Qed.

Lemma no_fallback_run s Y D X Dv mahalanobis bias_correction :
  heap s !! D = Some (IntArr Dv) ->
  (2 * sumZ Dv >? Z.of_nat (length Dv))%Z = false ->
  MWOR Y D X mahalanobis bias_correction s =
  (ITT ← MWOR_ITT Y D X mahalanobis bias_correction; mret (mean ITT)) s.
Proof.
  intros HD Hfb. unfold MatchingWithoutReplacement.
  by rewrite (run_bind _ _ _ _ _ (run_load_int _ _ _ HD)), Hfb.
Qed.

(** What a returning [MatchingWithReplacement] has computed. *)
Lemma mwr_effects mahalanobis bias_correction
    s Y D X (Yv : vector) (Dv : list Z) (Xv : matrix) att s' :
  heap s !! Y = Some (FloatArr Yv) -> heap s !! D = Some (IntArr Dv) ->
  heap s !! X = Some (FloatMat Xv) ->
  MWR Y D X mahalanobis bias_correction s = (Ok att, s') ->
  exists idx ITT,
    let Y_c := compress (eqz Dv 0) Yv in
    let Y_t := compress (eqz Dv 1) Yv in
    let X_c := compress (eqz Dv 0) Xv in
    let X_t := compress (eqz Dv 1) Xv in
    MatchingWithReplacement_match inv mahalanobis Xv X_c X_t (length Y_t) = Ok idx /\
    effects bias_correction Y_c Y_t X_c X_t idx ITT /\
    att = mean ITT.
Proof.
  intros HY HD HX. unfold MatchingWithReplacement.
  rewrite (run_reading _ s _ _ _ _ _ _ HY HD HX). intros [= Hr <-].
  apply bind_Ok in Hr as (ITT & HITT & [= <-]).
  unfold MatchingWithReplacement_ITT in HITT.
  apply bind_Ok in HITT as (Y_c & [HlY ->]%bool_index_Ok & HITT).
  apply bind_Ok in HITT as (Y_t & [_ ->]%bool_index_Ok & HITT).
  apply bind_Ok in HITT as (X_c & [HlX ->]%bool_index_Ok & HITT).
  apply bind_Ok in HITT as (X_t & [_ ->]%bool_index_Ok & HITT).
  apply bind_Ok in HITT as (idx & Hidx & HITT).
  rewrite eqz_length in HlY, HlX.
  exists idx, ITT. cbv zeta. split; [done|]. split; [|done].
  apply effects_intro; try done.
  + by apply mwr_match_spec in Hidx as [-> _].
  + apply compress_length_eq. congruence.
  + apply compress_length_eq. congruence.
Qed.

(** What a returning [MatchingWithoutReplacement_ITT] has computed. *)
Lemma mwor_effects mahalanobis bias_correction
    s Y D X (Yv : vector) (Dv : list Z) (Xv : matrix) m s' ITT s'' :
  heap s !! Y = Some (FloatArr Yv) -> heap s !! D = Some (IntArr Dv) ->
  heap s !! X = Some (FloatMat Xv) ->
  MWOR_match Y D X mahalanobis s = (Ok m, s') ->
  MWOR_ITT Y D X mahalanobis bias_correction s = (Ok ITT, s'') ->
  exists Ys Ds Xs,
    presort Yv Dv Xv = Ok (Ys, Ds, Xs) /\
    heap s' !! m_D m = Some (IntArr Ds) /\
    heap s' !! m_X m = Some (FloatMat Xs) /\
    m_X_t m = compress (eqz Ds 1) Xs /\
    length (match_index m) = length (m_Y_t m) /\
    Forall (fun j => j < length (compress (eqz Ds 0) Xs)) (match_index m) /\
    effects bias_correction (m_Y_c m) (m_Y_t m) (compress (eqz Ds 0) Xs)
      (m_X_t m) (match_index m) ITT /\
    s'' = s'.
Proof.
  intros HY HD HX Hrun HITT.
  destruct (match_inv _ _ _ _ _ _ _ _ _ _ HY HD HX Hrun)
    as (Ys & Ds & Xs & pool' & Hpre & HlY & HlX & Hg & Hm & Hs').
  destruct (run_ITT _ _ _ _ _ _ _ _ bias_correction _ _ HY HD HX Hrun)
    as (Ys' & Ds' & Xs' & Hpre' & H1 & H2 & HITT').
  assert (Ys' = Ys /\ Ds' = Ds /\ Xs' = Xs) as (-> & -> & ->)
    by (rewrite Hpre in Hpre'; by injection Hpre' as <- <- <-).
  exists Ys, Ds, Xs. split; [done|]. split; [done|]. split; [done|].
  rewrite HITT' in HITT. injection HITT as HITT <-.
  destruct (greedy_bounds _ _ (metric_length mahalanobis Xs) _ _ _ _ _ Hg)
    as (js & Hljs & Hjs & Hidx & _).
  rewrite length_seq in Hljs. rewrite <- Hljs in Hidx at 1.
  rewrite <- Hljs in Hidx. rewrite record_all in Hidx. subst js.
  split; [by rewrite Hm|]. split; [by rewrite Hm|]. split; [done|]. split; [|done].
  apply effects_intro; try done; rewrite Hm; simpl.
  + done.
  + apply compress_length_eq. congruence.
  + apply compress_length_eq. congruence.
Qed.

(** C3. Both matching functions compute the individual effects from their
    match assignment in the same way.  With bias correction the effect of
    treated unit [i] is (treated outcome - matched-control outcome) minus
    the dot product of (treated covariates - matched-control covariates)
    with the coefficients after the intercept of the regression of the
    matched-control outcomes on the matched-control covariates; without it
    the effect is the raw outcome difference.  The value returned is the
    mean of these effects, and the effects are produced whenever the
    assignment holds valid control indices (and, with bias correction, the
    regression returns an intercept and one slope per covariate). *)
Theorem C3_individual_effects mahalanobis bias_correction
    s Y D X (Yv : vector) (Dv : list Z) (Xv : matrix) :
  heap s !! Y = Some (FloatArr Yv) -> heap s !! D = Some (IntArr Dv) ->
  heap s !! X = Some (FloatMat Xv) ->
  (* with replacement *)
  (forall att s',
     MWR Y D X mahalanobis bias_correction s = (Ok att, s') ->
     exists idx ITT,
       let Y_c := compress (eqz Dv 0) Yv in
       let Y_t := compress (eqz Dv 1) Yv in
       let X_c := compress (eqz Dv 0) Xv in
       let X_t := compress (eqz Dv 1) Xv in
       MatchingWithReplacement_match inv mahalanobis Xv X_c X_t (length Y_t) = Ok idx /\
       effects bias_correction Y_c Y_t X_c X_t idx ITT /\
       att = mean ITT) /\
  (* without replacement, past the fallback test *)
  (forall m s' ITT s'',
     MWOR_match Y D X mahalanobis s = (Ok m, s') ->
     MWOR_ITT Y D X mahalanobis bias_correction s = (Ok ITT, s'') ->
     exists Ds Xs,
       heap s' !! m_D m = Some (IntArr Ds) /\
       heap s' !! m_X m = Some (FloatMat Xs) /\
       effects bias_correction (m_Y_c m) (m_Y_t m) (compress (eqz Ds 0) Xs)
         (m_X_t m) (match_index m) ITT /\
       ((2 * sumZ Dv >? Z.of_nat (length Dv))%Z = false ->
          MWOR Y D X mahalanobis bias_correction s = (Ok (mean ITT), s''))) /\
  (* the effects are produced *)
  (forall Y_c Y_t X_c X_t idx k,
     length X_c = length Y_c -> Forall (fun j => j < length Y_c) idx ->
     (exists ITT, raw_ITT Y_c Y_t idx = Ok ITT) /\
     (is_matrix k X_c -> is_matrix k X_t ->
      (forall Y_m X_m, take_idx Y_c idx = Ok Y_m -> take_idx X_c idx = Ok X_m ->
         exists params, OLS_params Y_m X_m = Ok params /\ length params = S k) ->
      exists ITT, corrected_ITT OLS_params Y_c Y_t X_c X_t idx = Ok ITT)).
Proof.
  intros HY HD HX. split_and!.
  - intros att s'. by apply mwr_effects.
  - intros m s' ITT s'' Hrun HITT.
    destruct (mwor_effects _ _ _ _ _ _ _ _ _ _ _ _ _ HY HD HX Hrun HITT)
      as (Ys & Ds & Xs & _ & H1 & H2 & _ & _ & _ & He & ->).
    exists Ds, Xs. split_and!; try done.
    intros Hfb. rewrite (no_fallback_run _ _ _ _ _ _ _ HD Hfb).
    by rewrite (run_bind _ _ _ _ _ HITT).
  - intros Y_c Y_t X_c X_t idx k HlXc Hidx. split.
    + by apply raw_ITT_total.
    + intros. by eapply corrected_ITT_total.
Qed.

(** *** The fallback and the inversion *)

Lemma N_treated_rows {A} (D : list Z) (l : list A) :
  length l = length D -> length (compress (eqz D 1) l) = N_treated D.
Proof. intros H. by apply compress_count. Qed.

(** With the Mahalanobis metric the first round of either loop calls the
    inversion. *)
Lemma mwr_match_inv_fails (X X_c X_t : matrix) N_t e :
  1 <= N_t -> 1 <= length X_t -> inv (cov X) = Err e ->
  MatchingWithReplacement_match inv true X X_c X_t N_t = Err e.
Proof.
  intros HN HXt Hinv. unfold MatchingWithReplacement_match.
  destruct N_t as [|n]; [lia|]. simpl.
  destruct X_t as [|x X_t]; [simpl in HXt; lia|]. simpl.
  unfold mahalanobis_dist. by rewrite Hinv.
Qed.

Lemma greedy_inv_fails (X X_t pool : matrix) n idx e :
  1 <= n -> 1 <= length X_t -> inv (cov X) = Err e ->
  (greedy (metric inv true X) X_t (seq 0 n) pool idx).1 = Err e.
Proof.
  intros HN HXt Hinv. destruct n as [|n]; [lia|]. simpl.
  destruct X_t as [|x X_t]; [simpl in HXt; lia|]. simpl.
  unfold mahalanobis_dist. by rewrite Hinv.
Qed.


(** *** Identical covariate rows *)

Lemma fsub_self x : real x -> fsub x x = Fin 0.
Proof.
  intros [q ->]%real_inv. simpl. f_equal.
  rewrite (Qred_complete (q - q) 0); [done|ring].
Qed.

Lemma vsub_self (x : vector) : real_vec x -> vsub x x = replicate (length x) (Fin 0).
Proof.
  induction 1 as [|y x Hy _ IH]; [done|]. simpl. rewrite fsub_self by done.
  f_equal. exact IH.
Qed.

Lemma fmul_0_l x : real x -> fmul (Fin 0) x = Fin 0.
Proof.
  intros [q ->]%real_inv. done.
Qed.

Lemma fsum_zeros n : fsum (replicate n (Fin 0)) = Fin 0.
Proof. induction n as [|n IH]; [done|]. simpl. fold (fsum (replicate n (Fin 0))). by rewrite IH. Qed.

Lemma dotp_zeros n (v : vector) : real_vec v -> dotp (replicate n (Fin 0)) v = Fin 0.
Proof.
  intros Hv. revert n. induction Hv as [|y v Hy _ IH]; intros [|n]; try done.
  change (dotp (replicate (S n) (Fin 0)) (y :: v))
    with (fadd (fmul (Fin 0) y) (dotp (replicate n (Fin 0)) v)).
  by rewrite fmul_0_l, IH.
Qed.

Lemma sq_zeros n : fsum (map (fun x => fmul x x) (replicate n (Fin 0))) = Fin 0.
Proof.
  induction n as [|n IH]; [done|]. simpl.
  fold (fsum (map (λ x : float, fmul x x) (replicate n (Fin 0)))). by rewrite IH.
Qed.

(** The bias-correction term of an exact match is zero, and the corrected
    effect is the raw difference. *)
Lemma exact_match_effect bias_correction (slopes x : vector) y_t y_c :
  real_vec x -> real_vec slopes ->
  dotp (vsub x x) slopes = Fin 0 /\
  effect bias_correction slopes y_t y_c x x = fsub y_t y_c.
Proof.
  intros Hx Hs. rewrite vsub_self by done.
  assert (dotp (replicate (length x) (Fin 0)) slopes = Fin 0) as Hz
    by (by apply dotp_zeros).
  split; [done|]. unfold effect. destruct bias_correction; [|done].
  rewrite vsub_self, Hz by done.
  destruct y_t as [| | |a], y_c as [| | |b]; try done. simpl. f_equal.
  apply Qred_complete. rewrite Qred_correct. ring.
Qed.

Lemma argmin_zeros n : argmin (replicate (S n) (Fin 0)) = Ok 0.
Proof.
  simpl. f_equal. generalize 1. induction n as [|n IH]; intros i; [done|].
  simpl. apply IH.
Qed.

Lemma all_rows_lookup (X : matrix) (x0 : vector) i r :
  Forall (fun r => r = x0) X -> X !! i = Some r -> r = x0.
Proof. intros H Hi. by apply (proj1 (Forall_lookup _ _) H i r). Qed.

Lemma all_rows_replicate (X : matrix) (x0 : vector) :
  Forall (fun r => r = x0) X -> X = replicate (length X) x0.
Proof. induction 1 as [|r X -> _ IH]; [done|]. simpl. by rewrite <- IH. Qed.

(** Distances between identical rows are all zero. *)
Lemma euclid_identical (X_c : matrix) (x0 : vector) :
  Forall (fun r => r = x0) X_c -> real_vec x0 ->
  euclid_dist (differences X_c x0) = Ok (replicate (length X_c) (Fin 0)).
Proof.
  intros HX Hx. unfold euclid_dist, differences. f_equal.
  induction HX as [|r X -> _ IH]; [done|]. simpl.
  rewrite vsub_self by done.
  fold (fsum (map (λ x : float, fmul x x) (replicate (length x0) (Fin 0)))).
  rewrite sq_zeros. by rewrite IH.
Qed.

Lemma fsum_replicate n q :
  exists t, fsum (replicate n (Fin q)) = Fin t /\ (t == inject_Z (Z.of_nat n) * q)%Q.
Proof.
  induction n as [|n (t & IH & Ht)].
  - exists 0%Q. split; [done|]. simpl. ring.
  - simpl replicate. rewrite fsum_cons, IH. simpl. eexists. split; [done|].
    rewrite Qred_correct, Ht, Nat2Z.inj_succ. unfold Z.succ.
    rewrite inject_Z_plus. ring.
Qed.

(** The columns of [X], each centred on its mean. *)
Definition centered (X : matrix) : matrix :=
  map (fun c => map (fun x => fsub x (mean c)) c) (transpose X).

Lemma cov_centered (X : matrix) :
  cov X = map (fun a => map (fun b => fdiv (dotp a b) (of_Z (Z.of_nat (length X) - 1)))
                          (centered X)) (centered X).
Proof. reflexivity. Qed.

Lemma map_const_on {A B} (f : A -> B) (c : B) (l : list A) :
  (forall a, a ∈ l -> f a = c) -> map f l = replicate (length l) c.
Proof.
  induction l as [|a l IH]; intros H; [done|]. simpl.
  rewrite (H a) by left. rewrite IH; [done|]. intros. apply H. by right.
Qed.

Lemma column_replicate N (x0 : vector) j :
  column (replicate N x0) j = replicate N (entry x0 j).
Proof. unfold column. induction N as [|N IH]; [done|]. simpl. by rewrite IH. Qed.

Lemma center_constant N q :
  1 <= N ->
  map (fun x => fsub x (mean (replicate N (Fin q)))) (replicate N (Fin q))
  = replicate N (Fin 0).
Proof.
  intros HN. destruct (fsum_replicate N q) as (t & Ht & Heq).
  unfold mean. rewrite length_replicate, Ht. unfold of_nat, of_Z, fdiv.
  rewrite Qsign_inject_Z.
  destruct (Z.compare_spec (Z.of_nat N) 0) as [?|?|Hpos]; try lia.
  assert (fsub (Fin q) (Fin (Qred (t / inject_Z (Z.of_nat N)))) = Fin 0) as Hc.
  { simpl. f_equal. rewrite (Qred_complete _ 0); [done|].
    rewrite Qred_correct, Heq. field.
    intros Hz. apply (Qeq_bool_neq (inject_Z (Z.of_nat N)) 0); [|done].
    unfold Qeq_bool, inject_Z. simpl. apply Z.eqb_neq. lia. }
  rewrite (map_const_on _ (Fin 0)); [by rewrite length_replicate|].
  by intros a [-> _]%elem_of_replicate.
Qed.

Lemma centered_identical k N (x0 : vector) :
  real_vec x0 -> length x0 = k -> 1 <= N ->
  centered (replicate N x0) = replicate k (replicate N (Fin 0)).
Proof.
  intros Hx Hk HN. unfold centered, transpose.
  assert (ncols (replicate N x0) = k) as -> by (destruct N; [lia|done]).
  rewrite map_map.
  rewrite (map_const_on _ (replicate N (Fin 0))); [by rewrite length_seq|].
  intros j Hj%elem_of_seq. rewrite column_replicate.
  assert (real (entry x0 j)) as [q ->]%real_inv by (apply entry_real; [done|lia]).
  by apply center_constant.
Qed.

(** The covariance matrix of identical rows is zero. *)
Lemma cov_identical k (X : matrix) (x0 : vector) :
  Forall (fun r => r = x0) X -> real_vec x0 -> length x0 = k -> 2 <= length X ->
  cov X = replicate k (replicate k (Fin 0)).
Proof.
  intros HX Hx Hk HN. rewrite cov_centered.
  assert (centered X = replicate k (replicate (length X) (Fin 0))) as ->.
  { rewrite (all_rows_replicate X x0 HX) at 1. apply centered_identical; [done|done|lia]. }
  rewrite (map_const_on _ (replicate k (Fin 0))); [by rewrite length_replicate|].
  intros a [-> _]%elem_of_replicate.
  rewrite (map_const_on _ (Fin 0)); [by rewrite length_replicate|].
  intros b [-> _]%elem_of_replicate.
  rewrite dotp_zeros by (by apply Forall_replicate).
  unfold of_Z, fdiv. rewrite Qsign_inject_Z.
  destruct (Z.compare_spec (Z.of_nat (length X) - 1) 0) as [?|?|Hpos]; try lia.
  f_equal.
Qed.

Lemma nearest_identical (X X_c X_t : matrix) (x0 : vector) i :
  Forall (fun r => r = x0) X_c -> Forall (fun r => r = x0) X_t -> real_vec x0 ->
  i < length X_t -> 1 <= length X_c ->
  nearest (metric inv false X) X_c X_t i = Ok 0.
Proof.
  intros HXc HXt Hx Hi HN. unfold nearest.
  destruct (lookup_lt_is_Some_2 X_t i Hi) as [x Hxi].
  assert (x = x0) as -> by (by eapply all_rows_lookup).
  rewrite (proj2 (index_Ok _ _ _) Hxi). unfold metric, mbind, result_bind.
  rewrite euclid_identical by done.
  destruct (length X_c) as [|n]; [lia|]. apply argmin_zeros.
Qed.


(** *** The synthetic-control estimator *)

(** [w] attains the least residual among the real weight vectors of its
    length. *)
Definition least_squares (A : matrix) (b w : vector) : Prop :=
  forall w', real_vec w' -> length w' = length w ->
    fle (residual A w b) (residual A w' b) = true.

(** [np.linalg.lstsq] on real data returns a real least-squares solution. *)
Hypothesis lstsq_spec :
  forall A b w, real_matrix A -> real_vec b -> lstsq A b = Ok w ->
    real_vec w /\ least_squares A b w.

(** The effect of treated unit [i] in [Synthetic]. *)
Definition synthetic_effect (Y_c Y_t : vector) (X_c X_t : matrix) (i : nat)
  : result float :=
  x ← index X_t i;
  w ← lstsq (transpose X_c) x;
  y ← index Y_t i;
  wY ← dot w Y_c;
  Ok (fsub y wY).

Lemma synthetic_body Y_c Y_t X_c X_t ri :
  Synthetic lstsq Y_c Y_t X_c X_t ri =
  (ITT ← for_range (seq 0 (length Y_t))
           (fun i ITT => e ← synthetic_effect Y_c Y_t X_c X_t i; Ok (<[i := e]> ITT))
           (replicate (length Y_t) (Fin 0));
   if ri then Ok (mean ITT, Some ITT) else Ok (mean ITT, None)).
Proof.
  unfold Synthetic. f_equal. generalize (replicate (length Y_t) (Fin 0)).
  induction (seq 0 (length Y_t)) as [|i l IH]; intros ITT; simpl; [done|].
  assert ((x ← index X_t i; w ← lstsq (transpose X_c) x; y ← index Y_t i;
           wY ← dot w Y_c; Ok (<[i:=fsub y wY]> ITT))
          = (e ← synthetic_effect Y_c Y_t X_c X_t i; Ok (<[i := e]> ITT))) as ->.
  { unfold synthetic_effect. destruct (index X_t i); simpl; [|done].
    destruct (lstsq _ _); simpl; [|done]. destruct (index Y_t i); simpl; [|done].
    by destruct (dot _ _). }
  destruct (synthetic_effect Y_c Y_t X_c X_t i ≫= (fun e => Ok (<[i:=e]> ITT)));
    simpl; [apply IH|done].
Qed.

Lemma synthetic_ITT Y_c Y_t X_c X_t (ITT : vector) :
  for_range (seq 0 (length Y_t))
    (fun i ITT => e ← synthetic_effect Y_c Y_t X_c X_t i; Ok (<[i := e]> ITT))
    (replicate (length Y_t) (Fin 0)) = Ok ITT <->
  length ITT = length Y_t /\
  forall i, i < length Y_t ->
    exists e, ITT !! i = Some e /\ synthetic_effect Y_c Y_t X_c X_t i = Ok e.
Proof.
  rewrite for_range_record. split.
  - intros (js & Hjs & ->).
    pose proof (Forall2_length _ _ _ Hjs) as Hl. rewrite length_seq in Hl.
    rewrite record_all_n by done. split; [done|]. intros i Hi.
    destruct (Forall2_lookup_l _ _ _ i i Hjs) as (j & Hj & Hc); [by apply lookup_seq_lt|].
    eauto.
  - intros [Hl Hall]. exists ITT. split; [|by rewrite record_all_n].
    apply Forall2_same_length_lookup_2; [by rewrite length_seq|].
    intros i i' e [-> Hi]%lookup_seq He. simpl.
    destruct (Hall i Hi) as (e' & He' & Hc). congruence.
Qed.

(** C4. For every treated unit [i], [Synthetic] obtains a weight vector
    [w] from the least-squares solver applied to the transposed control
    covariates and the covariates of the unit, so that on real data [w]
    minimises the squared norm of (w' X_c - x_t); the individual effect is
    Y_t[i] - w.Y_c and the ATT returned is the mean of the individual
    effects.  The function returns whenever the solver returns, for each
    treated unit, one weight per control. *)
Theorem C4_synthetic_control k (Y_c Y_t : vector) (X_c X_t : matrix)
    (return_individual : bool) :
  real_matrix X_c -> is_matrix k X_c -> real_matrix X_t ->
  (forall att o,
     Synthetic lstsq Y_c Y_t X_c X_t return_individual = Ok (att, o) ->
     exists ITT,
       att = mean ITT /\ length ITT = length Y_t /\
       o = (if return_individual then Some ITT else None) /\
       forall i y, Y_t !! i = Some y ->
         exists x w,
           X_t !! i = Some x /\
           lstsq (transpose X_c) x = Ok w /\
           least_squares (transpose X_c) x w /\
           ITT !! i = Some (fsub y (dotp w Y_c))) /\
  ((forall i, i < length Y_t ->
      exists x w, X_t !! i = Some x /\ lstsq (transpose X_c) x = Ok w /\
                  length w = length Y_c) ->
   exists att o, Synthetic lstsq Y_c Y_t X_c X_t return_individual = Ok (att, o)).
Proof.
  intros HXc HkXc HXt. rewrite synthetic_body. split.
  - intros att o (ITT & HITT & Hret)%bind_Ok.
    apply synthetic_ITT in HITT as [Hl Hall]. exists ITT.
    split; [by destruct return_individual; injection Hret as <- <-|].
    split; [done|]. split; [by destruct return_individual; injection Hret as <- <-|].
    intros i y Hy. destruct (Hall i) as (e & He & Heff); [by eapply lookup_lt_Some|].
    unfold synthetic_effect in Heff.
    apply bind_Ok in Heff as (x & Hx%index_Ok & (w & Hw & (y' & Hy'%index_Ok
      & (wY & [_ ->]%dot_Ok & [= <-])%bind_Ok)%bind_Ok)%bind_Ok).
    assert (y' = y) as -> by congruence.
    exists x, w. split_and!; try done.
    apply (lstsq_spec _ _ _ (transpose_real k X_c HXc HkXc)); [|done].
    by apply (proj1 (Forall_lookup _ _) HXt i x).
  - intros Hall.
    assert (exists ITT, for_range (seq 0 (length Y_t))
              (fun i ITT => e ← synthetic_effect Y_c Y_t X_c X_t i; Ok (<[i := e]> ITT))
              (replicate (length Y_t) (Fin 0)) = Ok ITT) as [ITT ->].
    { assert (forall i, i < length Y_t ->
                exists e, synthetic_effect Y_c Y_t X_c X_t i = Ok e) as Heff.
      { intros i Hi. destruct (Hall i Hi) as (x & w & Hx & Hw & Hlw).
        destruct (lookup_lt_is_Some_2 Y_t i Hi) as [y Hy].
        unfold synthetic_effect.
        rewrite (proj2 (index_Ok _ _ _) Hx). simpl. rewrite Hw. simpl.
        rewrite (proj2 (index_Ok _ _ _) Hy). simpl.
        rewrite (proj2 (dot_Ok w Y_c _) (conj Hlw eq_refl)). simpl. eauto. }
      assert (forall n a, a + n <= length Y_t ->
                exists js : vector,
                  Forall2 (fun i e => synthetic_effect Y_c Y_t X_c X_t i = Ok e)
                          (seq a n) js) as Hjs.
      { induction n as [|n IH]; intros a Ha; [exists []; constructor|].
        destruct (Heff a) as [e He]; [lia|].
        destruct (IH (S a)) as [js Hjs]; [lia|].
        exists (e :: js). by constructor. }
      destruct (Hjs (length Y_t) 0) as [js Hjs']; [lia|].
      eexists. apply for_range_record. exists js. split; [exact Hjs'|done]. }
    simpl. destruct return_individual; eauto.
Qed.

(** *** The OLS estimator *)

(** The design matrix of [OLSEstimates] without its constant: the
    treatment indicator, the demeaned covariates and their products. *)
Definition design (D : list Z) (dX : matrix) : matrix :=
  zip_with (fun d r => of_Z d :: r ++ map (fmul (of_Z d)) r) D dX.

(** [X - X.mean(0)] *)
Definition demeaned (X : matrix) : matrix :=
  map (fun r => vsub r (map mean (transpose X))) X.

(** [DdX.sum(0) / D.sum()] *)
Definition interaction_average (D : list Z) (dX : matrix) : vector :=
  map (fun c => fdiv (fsum c) (of_Z (sumZ D)))
      (transpose (zip_with (fun d r => map (fmul d) r) (map of_Z D) dX)).

Lemma design_eq (D : list Z) (dX : matrix) :
  zip_with (fun d rr => d :: rr) (map of_Z D)
    (zip_with app dX (zip_with (fun d r => map (fmul d) r) (map of_Z D) dX))
  = design D dX.
Proof.
  unfold design. revert dX. induction D as [|d D IH]; intros [|r dX]; simpl; try done.
  by rewrite IH.
Qed.

Lemma OLSEstimates_on_eq (Yv : vector) (Dv : list Z) (Xv : matrix) :
  OLSEstimates_on OLS_params Yv Dv Xv =
  if decide (length Dv = length Xv) then
    params ← OLS_params Yv (design Dv (demeaned Xv));
    tau ← index params 1;
    c ← dot (interaction_average Dv (demeaned Xv)) (slice_last (ncols Xv) params);
    Ok (fadd tau c)
  else Err ValueError.
Proof. unfold OLSEstimates_on. cbv zeta. by rewrite design_eq. Qed.

(** Exact value of a real, and exact sum of a list of reals. *)
Definition qval (x : float) : Q := match x with Fin q => q | _ => 0%Q end.
Definition Qsum (v : vector) : Q := foldr (fun x t => (qval x + t)%Q) 0%Q v.

Lemma fsum_Qsum (v : vector) : real_vec v -> fsum v = Fin (Qred (Qsum v)).
Proof.
  induction 1 as [|x v Hx _ IH]; [done|].
  rewrite fsum_cons, IH. destruct (real_inv _ Hx) as [a ->]. simpl. f_equal.
  apply Qred_complete. by rewrite Qred_correct.
Qed.

Lemma demeaned_real k (X : matrix) :
  real_matrix X -> is_matrix k X -> real_matrix (demeaned X) /\ is_matrix k (demeaned X).
Proof.
  intros HX Hk. destruct X as [|r0 X]; [split; constructor|].
  set (X' := r0 :: X) in *.
  assert (real_vec (map mean (transpose X'))) as Hmu.
  { apply Forall_forall. intros y (c & -> & Hc)%list_elem_of_fmap.
    apply mean_real.
    - by apply (proj1 (Forall_forall _ _) (transpose_real k X' HX Hk)).
    - pose proof (proj1 (Forall_forall _ _) (transpose_rows X') c Hc) as Hl.
      intros ->. done. }
  assert (length (map mean (transpose X')) = k) as Hlmu
    by (rewrite length_map; by apply transpose_length).
  split; apply Forall_forall; intros r' (r & -> & Hr)%list_elem_of_fmap.
  - apply vsub_real; [|done]. by apply (proj1 (Forall_forall _ _) HX).
  - rewrite vsub_length; rewrite (proj1 (Forall_forall _ _) Hk r Hr); done.
Qed.

(** Column [j] of [D * dX] sums to the sum of column [j] over the treated
    rows. *)
Lemma interaction_column_sum (D : list Z) (dX : matrix) k j :
  indicator D -> real_matrix dX -> is_matrix k dX -> j < k ->
  fsum (column (zip_with (fun d r => map (fmul d) r) (map of_Z D) dX) j)
  = fsum (column (compress (eqz D 1) dX) j).
Proof.
  intros HD HdX Hk Hj.
  assert (real_vec (column (zip_with (fun d r => map (fmul d) r) (map of_Z D) dX) j)
          /\ real_vec (column (compress (eqz D 1) dX) j)
          /\ (Qsum (column (zip_with (fun d r => map (fmul d) r) (map of_Z D) dX) j)
              == Qsum (column (compress (eqz D 1) dX) j))%Q) as (H1 & H2 & H3).
  { revert dX HdX Hk. induction HD as [|d D Hd _ IH]; intros [|r dX] HdX Hk; simpl;
      try (split_and!; [constructor|constructor|reflexivity]).
    apply Forall_cons in HdX as [Hr HdX], Hk as [Hlr Hk].
    destruct (IH dX HdX Hk) as (IH1 & IH2 & IH3).
    assert (real (entry r j)) as [q Hq]%real_inv by (apply entry_real; [done|lia]).
    assert (entry (map (fmul (of_Z d)) r) j = fmul (of_Z d) (Fin q)) as He.
    { unfold entry in *. rewrite map_lookup.
      destruct (r !! j) as [x|]; simpl in *; [by subst|done]. }
    rewrite He. destruct Hd as [-> | ->]; simpl.
    - split_and!; [by constructor|done|]. simpl.
      rewrite IH3, Qred_correct. change (inject_Z 0) with 0%Q. ring.
    - rewrite Hq. split_and!; [by constructor|by constructor|]. simpl.
      rewrite IH3, Qred_correct. change (inject_Z 1) with 1%Q. ring. }
  rewrite !fsum_Qsum by done. f_equal. by apply Qred_complete.
Qed.

Lemma ncols_zip_with_map (D : list float) (dX : matrix) k :
  is_matrix k dX -> length D = length dX -> dX <> [] ->
  ncols (zip_with (fun d r => map (fmul d) r) D dX) = k.
Proof.
  destruct D as [|d D], dX as [|r dX]; try done. simpl.
  intros [Hr _]%Forall_cons _ _. by rewrite length_map.
Qed.

(** On 0/1 indicators and real covariates, [DdX.sum(0) / D.sum()] is the
    average of the demeaned covariates over the treated units. *)
Lemma interaction_average_treated (D : list Z) (dX : matrix) k :
  indicator D -> real_matrix dX -> is_matrix k dX ->
  length D = length dX -> 1 <= N_treated D ->
  interaction_average D dX = map mean (transpose (compress (eqz D 1) dX)).
Proof.
  intros HD HdX Hk Hl HN. unfold interaction_average, transpose.
  assert (dX <> []) as Hne.
  { intros ->. unfold N_treated in HN. destruct D; [simpl in HN; lia|done]. }
  assert (length (compress (eqz D 1) dX) = N_treated D) as HlT
    by (by apply N_treated_rows).
  rewrite (ncols_zip_with_map _ _ k) by (done || by rewrite length_map).
  rewrite (ncols_is_matrix k (compress (eqz D 1) dX));
    [|by apply compress_Forall|intros E; rewrite E in HlT; simpl in HlT; lia].
  rewrite !map_map. apply map_ext_in. intros j Hj%in_seq.
  rewrite (interaction_column_sum D dX k j) by (done || lia).
  unfold mean. rewrite column_length, HlT. unfold of_nat.
  by rewrite (proj1 (indicator_counts D HD)).
Qed.

Lemma slice_last_length {A} k (p : list A) :
  1 <= k -> k <= length p -> length (slice_last k p) = k.
Proof.
  intros Hk Hl. unfold slice_last. rewrite decide_False by lia.
  rewrite length_drop. lia.
Qed.

(** C5. [OLSEstimates] fits one regression with intercept of Y on the
    design matrix [treatment indicator, demeaned covariates, treatment x
    demeaned covariates] and returns the coefficient of the treatment
    indicator plus the dot product of [DdX.sum(0) / D.sum()] with the last
    k coefficients.  On a 0/1 indicator with at least one treated unit and
    real covariates that vector is the average of the demeaned covariates
    over the treated units, and when the fit returns its 2k+2 coefficients
    the last k are those of the interaction columns.  The function returns
    whenever the fit returns 2k+2 coefficients. *)
Theorem C5_ols_effect s Y D X (Yv : vector) (Dv : list Z) (Xv : matrix) k :
  heap s !! Y = Some (FloatArr Yv) -> heap s !! D = Some (IntArr Dv) ->
  heap s !! X = Some (FloatMat Xv) ->
  1 <= k -> is_matrix k Xv -> Xv <> [] ->
  let dX := demeaned Xv in
  (forall att s',
     OLSEstimates OLS_params Y D X s = (Ok att, s') ->
     exists params tau,
       length Dv = length Xv /\
       OLS_params Yv (design Dv dX) = Ok params /\
       params !! 1 = Some tau /\
       att = fadd tau (dotp (interaction_average Dv dX) (slice_last k params)) /\
       (indicator Dv -> real_matrix Xv -> 1 <= N_treated Dv ->
          interaction_average Dv dX = map mean (transpose (compress (eqz Dv 1) dX))) /\
       (length params = 2 + 2 * k ->
          exists c beta, length beta = k /\
            params = c :: tau :: beta ++ slice_last k params)) /\
  (forall params,
     length Dv = length Xv -> OLS_params Yv (design Dv dX) = Ok params ->
     length params = 2 + 2 * k ->
     exists att, OLSEstimates OLS_params Y D X s = (Ok att, s)).
Proof.
  intros HY HD HX Hk HkX Hne dX. unfold OLSEstimates.
  rewrite (run_reading _ s _ _ _ _ _ _ HY HD HX), OLSEstimates_on_eq.
  rewrite (ncols_is_matrix k Xv HkX Hne). fold dX. split.
  - intros att s' [= Hr <-].
    destruct (decide (length Dv = length Xv)) as [Hl|]; [|done].
    apply bind_Ok in Hr as (params & Hp & (tau & Htau%index_Ok & (c & [Hlc ->]%dot_Ok & [= <-])%bind_Ok)%bind_Ok).
    exists params, tau. split_and!; try done.
    + intros Hind HrX HN.
      destruct (demeaned_real k Xv HrX HkX) as [HrdX HkdX].
      apply (interaction_average_treated _ _ k); try done.
      unfold dX, demeaned. by rewrite length_map.
    + intros Hlp. destruct params as [|c [|tau' params]]; [done|done|].
      injection Htau as ->. simpl in Hlp.
      exists c, (take k params). split; [rewrite length_take; lia|].
      do 2 f_equal. unfold slice_last. rewrite decide_False by lia.
      simpl length. replace (S (S (length params)) - k) with (2 + k) by lia.
      simpl. by rewrite take_drop.
  - intros params Hl Hp Hlp. rewrite decide_True by done. rewrite Hp. simpl.
    destruct params as [|c [|tau params]]; [done|done|]. simpl.
    assert (dX <> []) as HdXne by (unfold dX, demeaned; by destruct Xv).
    assert (is_matrix k dX) as HkdX.
    { apply Forall_forall. intros r' (r & -> & Hr)%list_elem_of_fmap.
      unfold vsub. rewrite length_zip_with, length_map.
      rewrite (transpose_length k) by done.
      rewrite (proj1 (Forall_forall _ _) HkX r Hr). lia. }
    assert (length (interaction_average Dv dX) = k) as Hlavg.
    { unfold interaction_average, transpose.
      rewrite !length_map, length_seq.
      apply ncols_zip_with_map; [done| |done].
      rewrite length_map. unfold dX, demeaned. by rewrite length_map. }
    assert (length (interaction_average Dv dX)
            = length (slice_last k (c :: tau :: params))) as Hlen.
    { rewrite Hlavg, slice_last_length; [done|done|]. simpl in *. lia. }
    rewrite (proj2 (dot_Ok _ _ _) (conj Hlen eq_refl)). simpl. eauto.
Qed.

End Properties.

(** ** The stand-ins meet the assumptions *)

Lemma Ref_insert_by_perm (v : vector) i (l : list nat) : Ref.insert_by v i l ≡ₚ i :: l.
Proof.
  induction l as [|j l IH]; simpl; [done|].
  destruct (flt _ _); [|done]. rewrite IH. apply perm_swap.
Qed.

Lemma Ref_argsort_perm (v : vector) : Ref.argsort v ≡ₚ seq 0 (length v).
Proof.
  unfold Ref.argsort. induction (seq 0 (length v)) as [|i l IH]; simpl; [done|].
  by rewrite Ref_insert_by_perm, IH.
Qed.

Lemma Ref_Logit_length (D : list Z) (X : matrix) (p : vector) :
  Ref.Logit_predict D X = Ok p -> length p = length X.
Proof.
  unfold Ref.Logit_predict. case_decide; [|done]. intros [= <-]. apply length_map.
Qed.

Lemma Ref_of_Qrows_real (rows : list Ref.Qrow) : real_matrix (Ref.of_Qrows rows).
Proof.
  apply Forall_forall. intros r (r' & -> & _)%list_elem_of_fmap.
  apply Forall_forall. by intros x (q & -> & _)%list_elem_of_fmap.
Qed.

Lemma Ref_is_square n (W : matrix) :
  Ref.is_square n W = true -> length W = n /\ is_matrix n W.
Proof.
  unfold Ref.is_square. intros [Hl Hr]%andb_prop.
  apply bool_decide_eq_true_1 in Hl. split; [done|].
  apply Forall_forall. intros r Hin. rewrite forallb_forall in Hr.
  apply list_elem_of_In, Hr in Hin. by apply bool_decide_eq_true_1 in Hin.
Qed.

Lemma Ref_inv_spec (V W : matrix) :
  real_matrix V -> Ref.inv V = Ok W ->
  real_matrix W /\ length W = length V /\ is_matrix (length V) W.
Proof.
  intros _. unfold Ref.inv. destruct (Ref.is_square _ V); [|done].
  destruct (Ref.to_Qrows V) as [rows|]; [|done].
  destruct (Ref.gauss_jordan _ _ _) as [sol|]; [|done]. cbv zeta.
  destruct (Ref.is_square _ _) eqn:Hsq; [|done]. intros [= <-].
  split; [apply Ref_of_Qrows_real|]. by apply Ref_is_square.
Qed.

Lemma Ref_OLS_real (y : vector) (A : matrix) (p : vector) :
  Ref.OLS_params y A = Ok p -> real_vec p.
Proof.
  unfold Ref.OLS_params. destruct (mapM Ref.to_Q y) as [yq|]; [|done].
  destruct (Ref.to_Qrows A) as [rows|]; [|done]. cbv zeta.
  destruct (Ref.solve _ _) as [beta|]; [|done]. intros [= <-].
  apply Forall_forall. by intros x (q & -> & _)%list_elem_of_fmap.
Qed.

(** The residual of real data is a non-negative real. *)
Lemma residual_nonneg (A : matrix) (w b : vector) :
  real_matrix A -> real_vec w -> real_vec b ->
  exists q, residual A w b = Fin q /\ (0 <= q)%Q.
Proof.
  intros HA Hw Hb. unfold residual. apply fsum_squares, vsub_real; [|done].
  apply Forall_forall. intros y (r & -> & Hr)%list_elem_of_fmap.
  apply dotp_real; [|done]. by apply (proj1 (Forall_forall _ _) HA).
Qed.

Lemma Ref_lstsq_spec (A : matrix) (b w : vector) :
  real_matrix A -> real_vec b -> Ref.lstsq A b = Ok w ->
  real_vec w /\ least_squares A b w.
Proof.
  intros HA Hb. unfold Ref.lstsq. destruct (Ref.to_Qrows A) as [rows|]; [|done].
  destruct (mapM Ref.to_Q b) as [bq|]; [|done]. cbv zeta.
  destruct (Ref.solve _ _) as [z|]; [|done].
  set (w0 := map (fun q => Fin (Qred q)) _).
  destruct (forallb _ A && _ && Ref.is_zero (residual A w0 b)) eqn:Hchk; [|done].
  intros [= <-]. apply andb_prop in Hchk as [_ Hz].
  assert (real_vec w0) as Hw0.
  { apply Forall_forall. by intros x (q & -> & _)%list_elem_of_fmap. }
  split; [done|]. intros w' Hw' _.
  destruct (residual A w0 b) as [| | |q]; try done. simpl in Hz.
  apply Qeq_bool_iff in Hz.
  destruct (residual_nonneg A w' b HA Hw' Hb) as (q' & -> & Hq').
  unfold fle. cbn [fcmp].
  assert ((q ?= q')%Q <> Gt) as Hc by (apply Qcompare_le; by rewrite Hz).
  by destruct (q ?= q')%Q.
Qed.

(** ** Examples

    Six units with two covariates, three of them treated. *)

Definition ex_Y : vector := map of_Z [10; 20; 3; 4; 7; 1]%Z.
Definition ex_D : list Z := [0; 0; 1; 1; 0; 1]%Z.
Definition ex_X : matrix :=
  map (map of_Z) [[1; 5]; [2; 3]; [3; 1]; [4; 4]; [0; 2]; [7; 7]]%Z.
Definition ex_state : state := mkState [FloatArr ex_Y; IntArr ex_D; FloatMat ex_X] [].

Lemma ex_X_matrix : is_matrix 2 ex_X.
Proof. repeat constructor. Qed.

Lemma ex_X_real : real_matrix ex_X.
Proof. repeat constructor. Qed.

Lemma ex_D_indicator : indicator ex_D.
Proof. repeat (constructor; [auto|]). constructor. Qed.

(** Five units with one covariate, three of them treated: more treated
    than control units. *)

Definition ex1_Y : vector := map of_Z [0; 10; 5; 5; 5]%Z.
Definition ex1_D : list Z := [0; 0; 1; 1; 1]%Z.
Definition ex1_X : matrix := map (map of_Z) [[0]; [10]; [1]; [9]; [2]]%Z.
Definition ex1_state : state :=
  mkState [FloatArr ex1_Y; IntArr ex1_D; FloatMat ex1_X] [].

(** Identical covariate rows: one control and one treated unit, and three
    controls without any treated unit. *)

Definition ex2_Y : vector := map of_Z [1; 2]%Z.
Definition ex2_D : list Z := [0; 1]%Z.
Definition ex2_X : matrix := map (map of_Z) [[1; 2]; [1; 2]]%Z.
Definition ex2_state : state :=
  mkState [FloatArr ex2_Y; IntArr ex2_D; FloatMat ex2_X] [].

Definition ex3_Y : vector := map of_Z [1; 2; 3]%Z.
Definition ex3_D : list Z := [0; 0; 0]%Z.
Definition ex3_X : matrix := map (map of_Z) [[1; 2]; [1; 2]; [1; 2]]%Z.
Definition ex3_state : state :=
  mkState [FloatArr ex3_Y; IntArr ex3_D; FloatMat ex3_X] [].

(** Three controls and one treated unit for the synthetic control. *)

Definition ex4_Y_c : vector := map of_Z [1; 2; 3]%Z.
Definition ex4_Y_t : vector := map of_Z [10]%Z.
Definition ex4_X_c : matrix := map (map of_Z) [[1; 0]; [0; 1]; [1; 1]]%Z.
Definition ex4_X_t : matrix := map (map of_Z) [[2; 3]]%Z.

(** C1 (evaluation at the failing input).  With three treated and two
    control units and [bias_correction=False], [MatchingWithoutReplacement]
    prints its notice and returns 1, the bias-corrected estimate of
    [MatchingWithReplacement], whereas [MatchingWithReplacement] called with
    the same flags returns 5/3. *)
Theorem C1_fallback_drops_bias_correction :
  N_control ex1_D < N_treated ex1_D /\
  MatchingWithoutReplacement Ref.Logit_predict Ref.OLS_params Ref.inv Ref.argsort
    0 1 2 false false ex1_state
  = (Ok (Fin 1), mkState (heap ex1_state) [notice]) /\
  MatchingWithReplacement Ref.OLS_params Ref.inv 0 1 2 false false ex1_state
  = (Ok (Fin (5 # 3)), ex1_state) /\
  MatchingWithReplacement Ref.OLS_params Ref.inv 0 1 2 false true ex1_state
  = (Ok (Fin 1), ex1_state).
Proof. split; [vm_compute; lia|]. repeat split; vm_compute; reflexivity. Qed.


Lemma C3_witness :
  heap ex1_state !! 0 = Some (FloatArr ex1_Y) /\
  exists idx ITT,
    MatchingWithReplacement_match Ref.inv false ex1_X
      (compress (eqz ex1_D 0) ex1_X) (compress (eqz ex1_D 1) ex1_X)
      (length (compress (eqz ex1_D 1) ex1_Y)) = Ok idx /\
    effects Ref.OLS_params true (compress (eqz ex1_D 0) ex1_Y)
      (compress (eqz ex1_D 1) ex1_Y) (compress (eqz ex1_D 0) ex1_X)
      (compress (eqz ex1_D 1) ex1_X) idx ITT /\
    Fin 1 = mean ITT.
Proof.
  split; [reflexivity|].
  destruct (C3_individual_effects Ref.Logit_predict Ref.OLS_params Ref.inv Ref.argsort
              false true ex1_state 0 1 2 ex1_Y ex1_D ex1_X eq_refl eq_refl eq_refl)
    as (Hwith & _ & _).
  apply (Hwith (Fin 1) ex1_state). vm_compute. reflexivity.
Defined.

Lemma C4_witness :
  real_matrix ex4_X_c /\ is_matrix 2 ex4_X_c /\ real_matrix ex4_X_t /\
  exists ITT,
    Fin 2 = mean ITT /\ length ITT = length ex4_Y_t /\
    forall i y, ex4_Y_t !! i = Some y ->
      exists x w,
        ex4_X_t !! i = Some x /\
        Ref.lstsq (transpose ex4_X_c) x = Ok w /\
        least_squares (transpose ex4_X_c) x w /\
        ITT !! i = Some (fsub y (dotp w ex4_Y_c)).
Proof.
  assert (real_matrix ex4_X_c) as H1 by repeat constructor.
  assert (is_matrix 2 ex4_X_c) as H2 by repeat constructor.
  assert (real_matrix ex4_X_t) as H3 by repeat constructor.
  split; [exact H1|]. split; [exact H2|]. split; [exact H3|].
  destruct (C4_synthetic_control Ref.lstsq Ref_lstsq_spec 2 ex4_Y_c ex4_Y_t
              ex4_X_c ex4_X_t true H1 H2 H3) as [Hspec _].
  destruct (Hspec (Fin 2) (Some [Fin 2])) as (ITT & Hatt & Hlen & _ & Hrows).
  { vm_compute. reflexivity. }
  exists ITT. split; [exact Hatt|]. split; [exact Hlen|exact Hrows].
Defined.

Lemma C5_witness :
  (1 <= 2 /\ is_matrix 2 ex_X /\ ex_X <> []) /\
  exists params tau,
    Ref.OLS_params ex_Y (design ex_D (demeaned ex_X)) = Ok params /\
    params !! 1 = Some tau /\
    Fin (-527 # 15)
    = fadd tau (dotp (map mean (transpose (compress (eqz ex_D 1) (demeaned ex_X))))
                     (slice_last 2 params)).
Proof.
  assert (ex_X <> []) as Hne by discriminate.
  split; [split; [lia|split; [exact ex_X_matrix|exact Hne]]|].
  destruct (C5_ols_effect Ref.OLS_params ex_state 0 1 2 ex_Y ex_D ex_X 2
              eq_refl eq_refl eq_refl (le_S _ _ (le_n 1)) ex_X_matrix Hne)
    as [Hspec _].
  destruct (Hspec (Fin (-527 # 15)) ex_state)
    as (params & tau & _ & Hp & Htau & Hatt & Havg & _).
  { vm_compute. reflexivity. }
  exists params, tau. split; [exact Hp|]. split; [exact Htau|].
  rewrite <- Havg; [exact Hatt|exact ex_D_indicator|exact ex_X_real|].
  vm_compute. lia.
Defined.





Lemma C8_witness :
  (is_matrix 2 ex_X /\ real_matrix ex_X) /\
  exists m s' Ys Ds Xs pool',
    MatchingWithoutReplacement_match Ref.Logit_predict Ref.inv Ref.argsort
      0 1 2 false ex_state = (Ok m, s') /\
    presort Ref.Logit_predict Ref.argsort ex_Y ex_D ex_X = Ok (Ys, Ds, Xs) /\
    heap s' !! m_X_c m = Some (FloatMat pool') /\
    length pool' = length (compress (eqz Ds 0) Xs) /\
    (forall j, j ∈ match_index m -> pool' !! j = Some (nan_row 2)) /\
    (forall j, j ∉ match_index m -> pool' !! j = compress (eqz Ds 0) Xs !! j).
Proof.
  split; [split; [exact ex_X_matrix|exact ex_X_real]|].
  destruct (MatchingWithoutReplacement_match Ref.Logit_predict Ref.inv Ref.argsort
              0 1 2 false ex_state) as [[m|e] s'] eqn:Hrun;
    [|vm_compute in Hrun; discriminate Hrun].
  destruct (C8_marking_frame Ref.Logit_predict Ref.OLS_params Ref.inv Ref.argsort
              ex_state 0 1 2 ex_Y ex_D ex_X 2 false m s' eq_refl eq_refl eq_refl
              ex_X_matrix ex_X_real Hrun)
    as (Ys & Ds & Xs & pool' & Hpre & _ & _ & Hpool & Hlen & Hsel & Hrest & _).
  exists m, s', Ys, Ds, Xs, pool'.
  exact (conj eq_refl (conj Hpre (conj Hpool (conj Hlen (conj Hsel Hrest))))).
Defined.

Lemma C9_witness :
  MatchingWithReplacement_match Ref.inv false []
    (map (map of_Z) [[0]; [2]; [2]]%Z) (map (map of_Z) [[1]; [2]]%Z) 2 = Ok [0; 1] /\
  exists x d dj,
    map (map of_Z) [[1]; [2]]%Z !! 1 = Some x /\
    metric Ref.inv false [] (differences (map (map of_Z) [[0]; [2]; [2]]%Z) x) = Ok d /\
    d !! 1 = Some dj /\
    (numbers d ->
       forall j' y, d !! j' = Some y -> fle dj y = true /\ (j' < 1 -> flt dj y = true)).
Proof.
  assert (MatchingWithReplacement_match Ref.inv false []
            (map (map of_Z) [[0]; [2]; [2]]%Z) (map (map of_Z) [[1]; [2]]%Z) 2
          = Ok [0; 1]) as Hrun by (vm_compute; reflexivity).
  split; [exact Hrun|].
  destruct (C9_ties_lowest_index Ref.OLS_params Ref.inv false []
              (map (map of_Z) [[0]; [2]; [2]]%Z) (map (map of_Z) [[1]; [2]]%Z) 2
              [0; 1] Hrun) as [Hties _].
  destruct (Hties 1 1 eq_refl) as (x & d & dj & Hx & Hd & Hdj & Hmin & _).
  exists x, d, dj. exact (conj Hx (conj Hd (conj Hdj Hmin))).
Defined.
(** * Further properties of the estimators *)

From Stdlib Require Import Lqa.
From stdpp Require Import pretty.

(** ** What the estimators print *)

(** A computation that writes nothing to the standard output, whether it
    returns or raises. *)
Definition silent {A} (m : M A) : Prop :=
  forall s r s', m s = (r, s') -> stdout s' = stdout s.

Lemma silent_ret {A} (a : A) : silent (mret a : M A).
Proof. by intros s r s' [= <- <-]. Qed.

Lemma silent_lift {A} (r : result A) : silent (lift r).
Proof. by intros s r' s' [= <- <-]. Qed.

Lemma silent_bind {A B} (m : M A) (f : A -> M B) :
  silent m -> (forall a, silent (f a)) -> silent (m ≫= f).
Proof.
  intros Hm Hf s r s'. unfold mbind, M_bind.
  destruct (m s) as [[a|e] s1] eqn:Hms.
  - intros Hrun. rewrite (Hf a _ _ _ Hrun). by eapply Hm.
  - intros [= <- <-]. by eapply Hm.
Qed.

Lemma silent_load_vec l : silent (load_vec l).
Proof.
  intros s r s'. unfold load_vec.
  destruct (heap s !! l) as [[]|]; by intros [= <- <-].
Qed.

Lemma silent_load_int l : silent (load_int l).
Proof.
  intros s r s'. unfold load_int.
  destruct (heap s !! l) as [[]|]; by intros [= <- <-].
Qed.

Lemma silent_load_mat l : silent (load_mat l).
Proof.
  intros s r s'. unfold load_mat.
  destruct (heap s !! l) as [[]|]; by intros [= <- <-].
Qed.

Lemma silent_alloc a : silent (alloc a).
Proof. by intros s r s' [= <- <-]. Qed.

Lemma silent_set_row_nan l j : silent (set_row_nan l j).
Proof.
  intros s r s'. unfold set_row_nan.
  destruct (heap s !! l) as [[| |m]|]; try (by intros [= <- <-]).
  destruct (m !! j); by intros [= <- <-].
Qed.

Lemma silent_for_range {S} (l : list nat) (body : nat -> S -> M S) :
  (forall i s, silent (body i s)) -> forall s, silent (for_range l body s).
Proof.
  intros Hbody. induction l as [|i l IH]; intros s; simpl.
  - apply silent_ret.
  - apply silent_bind; [apply Hbody|]. intros. apply IH.
Qed.

Lemma silent_reading {A} Y D X (f : vector -> list Z -> matrix -> result A) :
  silent (reading Y D X f).
Proof. intros s r s' Hrun. by rewrite (reading_state _ _ _ _ _ _ _ Hrun). Qed.

(** The outcome of a function that only reads does not depend on what has
    been printed before. *)
Lemma reading_stdout {A} Y D X (f : vector -> list Z -> matrix -> result A) s out :
  reading Y D X f (mkState (heap s) out)
  = ((reading Y D X f s).1, mkState (heap s) out).
Proof.
  unfold reading, mbind, M_bind, load_vec, load_int, load_mat, lift. cbn [heap].
  destruct (heap s !! Y) as [[]|]; try done. cbn [heap].
  destruct (heap s !! D) as [[]|]; try done. cbn [heap].
  by destruct (heap s !! X) as [[]|].
Qed.

Lemma nil_length_0 {A} (l : list A) : length l = 0 -> l = [].
Proof. by destruct l. Qed.

(** A loop that records one choice per index returns as soon as every
    choice can be made. *)
Lemma for_range_choices {A} (choose : nat -> result A) (l : list nat) (idx : list A) :
  Forall (fun i => exists j, choose i = Ok j) l ->
  exists js, Forall2 (fun i j => choose i = Ok j) l js /\
    for_range l (fun i idx => j ← choose i; Ok (<[i := j]> idx)) idx
    = Ok (record idx l js).
Proof.
  intros Hall.
  assert (exists js, Forall2 (fun i j => choose i = Ok j) l js) as [js Hjs].
  { induction Hall as [|i l [j Hj] _ [js IH]]; [by exists []|].
    exists (j :: js). by constructor. }
  exists js. split; [done|]. apply for_range_record. by exists js.
Qed.

Section Behaviour.

Variable Logit_predict : list Z -> matrix -> result vector.
Variable OLS_params : vector -> matrix -> result vector.
Variable lstsq : matrix -> vector -> result vector.
Variable inv : matrix -> result matrix.
Variable argsort : vector -> list nat.

Hypothesis argsort_perm : forall v, argsort v ≡ₚ seq 0 (length v).
Hypothesis Logit_length :
  forall D X p, Logit_predict D X = Ok p -> length p = length X.
Hypothesis inv_spec :
  forall V W, real_matrix V -> inv V = Ok W ->
    real_matrix W /\ length W = length V /\ is_matrix (length V) W.

Local Abbreviation MWR := (MatchingWithReplacement OLS_params inv).
Local Abbreviation MWOR_match :=
  (MatchingWithoutReplacement_match Logit_predict inv argsort).
Local Abbreviation MWOR_ITT :=
  (MatchingWithoutReplacement_ITT Logit_predict OLS_params inv argsort).
Local Abbreviation MWOR :=
  (MatchingWithoutReplacement Logit_predict OLS_params inv argsort).
Local Abbreviation Estimates :=
  (MatchingEstimates Logit_predict OLS_params inv argsort).

Lemma silent_greedy_step dist X_c X_t i idx :
  silent (greedy_step dist X_c X_t i idx).
Proof.
  unfold greedy_step.
  apply silent_bind; [apply silent_load_mat|]. intros pool.
  apply silent_bind; [apply silent_lift|]. intros x.
  apply silent_bind; [apply silent_lift|]. intros d.
  apply silent_bind; [apply silent_lift|]. intros j.
  apply silent_bind; [apply silent_set_row_nan|]. intros _.
  apply silent_ret.
Qed.

Lemma silent_match Y D X mahalanobis : silent (MWOR_match Y D X mahalanobis).
Proof.
  unfold MatchingWithoutReplacement_match.
  apply silent_bind; [apply silent_load_vec|]. intros Yv.
  apply silent_bind; [apply silent_load_int|]. intros Dv.
  apply silent_bind; [apply silent_load_mat|]. intros Xv.
  apply silent_bind; [apply silent_lift|]. intros pscore.
  apply silent_bind; [apply silent_lift|]. intros Ys.
  apply silent_bind; [apply silent_lift|]. intros Ds.
  apply silent_bind; [apply silent_lift|]. intros Xs.
  apply silent_bind; [apply silent_alloc|]. intros Y'.
  apply silent_bind; [apply silent_alloc|]. intros D'.
  apply silent_bind; [apply silent_alloc|]. intros X'.
  apply silent_bind; [apply silent_load_vec|]. intros Yv'.
  apply silent_bind; [apply silent_load_int|]. intros Dv'.
  apply silent_bind; [apply silent_load_mat|]. intros Xv'.
  apply silent_bind; [apply silent_lift|]. intros Y_c.
  apply silent_bind; [apply silent_lift|]. intros Y_t.
  apply silent_bind; [apply silent_lift|]. intros pool.
  apply silent_bind; [apply silent_alloc|]. intros X_c.
  apply silent_bind; [apply silent_lift|]. intros X_t.
  apply silent_bind; [apply silent_load_mat|]. intros Xv''.
  apply silent_bind.
  { apply silent_for_range. intros i idx. apply silent_greedy_step. }
  intros idx. apply silent_ret.
Qed.

Lemma silent_ITT Y D X mahalanobis bias_correction :
  silent (MWOR_ITT Y D X mahalanobis bias_correction).
Proof.
  unfold MatchingWithoutReplacement_ITT.
  apply silent_bind; [apply silent_match|]. intros m.
  destruct bias_correction; [|apply silent_lift].
  apply silent_bind; [apply silent_load_mat|]. intros Xv.
  apply silent_bind; [apply silent_load_int|]. intros Dv.
  apply silent_bind; [apply silent_lift|]. intros X_c.
  apply silent_lift.
Qed.

(** The fallback test [2*sum(D) > len(D)] on a 0/1 indicator. *)
Lemma fallback_test (Dv : list Z) :
  indicator Dv ->
  (2 * sumZ Dv >? Z.of_nat (length Dv))%Z = bool_decide (N_control Dv < N_treated Dv).
Proof.
  intros Hind. destruct (indicator_counts Dv Hind) as [Hsum Hcount].
  rewrite Z.gtb_ltb. case_bool_decide.
  - apply Z.ltb_lt. lia.
  - apply Z.ltb_ge. lia.
Qed.

(** X1.  The only line an estimator ever prints is the notice of
    [MatchingWithoutReplacement].  [SyntheticEstimates],
    [MatchingWithReplacement], [OLSEstimates] and [MatchingEstimates] with
    replacement print nothing, whether they return or raise.
    [MatchingWithoutReplacement] prints the notice once when
    [2*sum(D) > len(D)] and nothing otherwise, also when it raises; on a 0/1
    indicator the test holds exactly when there are more treated than
    control units. *)
Theorem X1_only_output_is_notice Y D X (b1 b2 : bool) :
  silent (SyntheticEstimates lstsq Y D X b1) /\
  silent (MWR Y D X b1 b2) /\
  silent (OLSEstimates OLS_params Y D X) /\
  silent (Estimates Y D X true b1) /\
  (forall s r s',
     MWOR Y D X b1 b2 s = (r, s') ->
     stdout s' = stdout s ++
       match heap s !! D with
       | Some (IntArr Dv) =>
           if (2 * sumZ Dv >? Z.of_nat (length Dv))%Z then [notice] else []
       | _ => []
       end) /\
  (forall Dv, indicator Dv ->
     (2 * sumZ Dv >? Z.of_nat (length Dv))%Z
     = bool_decide (N_control Dv < N_treated Dv)).
Proof.
  split_and!; try apply silent_reading.
  - intros s r s'. unfold MatchingWithoutReplacement, mbind, M_bind, load_int.
    destruct (heap s !! D) as [[v|Dv|m]|];
      try (intros [= <- <-]; by rewrite app_nil_r).
    destruct (2 * sumZ Dv >? Z.of_nat (length Dv))%Z.
    + unfold print. intros Hrun. by rewrite (silent_reading _ _ _ _ _ _ _ Hrun).
    + intros Hrun. rewrite app_nil_r.
      assert (silent (ITT ← MWOR_ITT Y D X b1 b2; mret (mean ITT))) as Hs.
      { apply silent_bind; [apply silent_ITT|]. intros. apply silent_ret. }
      apply (Hs s r s'). unfold mbind, M_bind. exact Hrun.
  - apply fallback_test.
Qed.

(** X2.  Through [MatchingEstimates] the fallback is faithful: with more
    treated than control units, asking for matching without replacement
    gives the result of asking for matching with replacement, value or
    exception, and differs only by the notice it prints. *)
Theorem X2_estimates_fallback s Y D X (Dv : list Z) mahalanobis :
  heap s !! D = Some (IntArr Dv) -> indicator Dv ->
  N_control Dv < N_treated Dv ->
  exists r,
    Estimates Y D X true mahalanobis s = (r, s) /\
    Estimates Y D X false mahalanobis s
    = (r, mkState (heap s) (stdout s ++ [notice])).
Proof.
  intros HD Hind Hlt. unfold MatchingEstimates.
  exists (MWR Y D X mahalanobis true s).1. split.
  - destruct (MWR Y D X mahalanobis true s) as [r s'] eqn:Hrun. simpl.
    unfold MatchingWithReplacement in Hrun.
    by rewrite (reading_state _ _ _ _ _ _ _ Hrun).
  - rewrite (fallback_run _ _ _ _ _ _ _ _ _ _ _ HD).
    + unfold MatchingWithReplacement. apply reading_stdout.
    + rewrite fallback_test by done. by apply bool_decide_eq_true_2.
Qed.

(** *** Samples without treated or without control units *)

Lemma no_rows {A} (D : list Z) c (l : list A) :
  length l = length D -> length (compress (eqz D c) D) = 0 ->
  compress (eqz D c) l = [].
Proof.
  intros Hl H0. apply nil_length_0. by rewrite (compress_count c D l Hl).
Qed.

(** X3.  A sample without treated units gives NaN, the mean of an empty
    array of effects: [MatchingWithReplacement] without bias correction
    returns NaN under either metric (the inversion is not called), and so
    does [SyntheticEstimates] with or without higher moments (the solver is
    not called). *)
Theorem X3_no_treated_unit s Y D X (Yv : vector) (Dv : list Z) (Xv : matrix)
    (mahalanobis higher_moments : bool) :
  heap s !! Y = Some (FloatArr Yv) -> heap s !! D = Some (IntArr Dv) ->
  heap s !! X = Some (FloatMat Xv) ->
  length Yv = length Dv -> length Xv = length Dv ->
  N_treated Dv = 0 ->
  MWR Y D X mahalanobis false s = (Ok NaN, s) /\
  SyntheticEstimates lstsq Y D X higher_moments s = (Ok NaN, s).
Proof.
  intros HY HD HX HlY HlX HN.
  assert (compress (eqz Dv 1) Yv = []) as HYt by (by apply no_rows).
  assert (compress (eqz Dv 1) Xv = []) as HXt by (by apply no_rows).
  split.
  - unfold MatchingWithReplacement.
    rewrite (run_reading _ s _ _ _ _ _ _ HY HD HX). f_equal.
    unfold MatchingWithReplacement_ITT, bool_index.
    rewrite !eqz_length, !decide_True by done. simpl.
    rewrite HYt, HXt. simpl. unfold raw_ITT. simpl. done.
  - unfold SyntheticEstimates.
    rewrite (run_reading _ s _ _ _ _ _ _ HY HD HX). f_equal.
    unfold SyntheticEstimates_on, bool_index.
    rewrite !eqz_length, !decide_True by done. simpl.
    rewrite HYt, HXt. by destruct higher_moments.
Qed.

Lemma mwr_match_no_control (mahalanobis : bool) (X X_t : matrix) N_t :
  1 <= N_t -> 1 <= length X_t ->
  MatchingWithReplacement_match inv mahalanobis X [] X_t N_t =
  Err (if mahalanobis
       then match inv (cov X) with Err e => e | Ok _ => ValueError end
       else ValueError).
Proof.
  intros HN HXt. unfold MatchingWithReplacement_match.
  destruct N_t as [|n]; [lia|]. destruct X_t as [|x X_t]; [simpl in HXt; lia|].
  simpl. destruct mahalanobis; simpl; [|done].
  unfold mahalanobis_dist. by destruct (inv (cov X)).
Qed.

(** X4.  A sample with treated units but no control unit makes
    [MatchingWithReplacement] raise: there is no control to take the
    minimum over, so [argmin] refuses its empty argument with a ValueError
    (under the Mahalanobis metric the inversion is called first and its
    error, if any, is the one raised).  On such a 0/1 indicator
    [MatchingWithoutReplacement] falls back and raises the same error after
    printing its notice. *)
Theorem X4_no_control_unit s Y D X (Yv : vector) (Dv : list Z) (Xv : matrix)
    (mahalanobis bias_correction : bool) :
  heap s !! Y = Some (FloatArr Yv) -> heap s !! D = Some (IntArr Dv) ->
  heap s !! X = Some (FloatMat Xv) ->
  length Yv = length Dv -> length Xv = length Dv ->
  N_control Dv = 0 -> 1 <= N_treated Dv ->
  let e := if mahalanobis
           then match inv (cov Xv) with Err e => e | Ok _ => ValueError end
           else ValueError in
  MWR Y D X mahalanobis bias_correction s = (Err e, s) /\
  (indicator Dv ->
   MWOR Y D X mahalanobis bias_correction s
   = (Err e, mkState (heap s) (stdout s ++ [notice]))).
Proof.
  intros HY HD HX HlY HlX HNc HNt e.
  assert (forall b out, MWR Y D X mahalanobis b (mkState (heap s) out)
                        = (Err e, mkState (heap s) out)) as HMWR.
  { intros b out. unfold MatchingWithReplacement.
    rewrite (run_reading _ (mkState (heap s) out) _ _ _ _ _ _ HY HD HX).
    f_equal. unfold MatchingWithReplacement_ITT, bool_index.
    rewrite !eqz_length, !decide_True by done. simpl.
    rewrite (no_rows Dv 0 Xv) by done.
    rewrite mwr_match_no_control; [done| |].
    - by rewrite N_treated_rows.
    - by rewrite N_treated_rows. }
  split.
  - specialize (HMWR bias_correction (stdout s)). by destruct s.
  - intros Hind. rewrite (fallback_run _ _ _ _ _ _ _ _ _ _ _ HD); [apply HMWR|].
    rewrite fallback_test by done. apply bool_decide_eq_true_2.
    unfold N_control, N_treated in *. lia.
Qed.


(** *** Euclidean matching always finds a match *)

Lemma nearest_euclid_total (X X_c X_t : matrix) i :
  X_c <> [] -> i < length X_t ->
  exists j, nearest (metric inv false X) X_c X_t i = Ok j /\ j < length X_c.
Proof.
  intros Hne Hi. destruct (lookup_lt_is_Some_2 X_t i Hi) as [x Hx].
  unfold nearest. rewrite (proj2 (index_Ok _ _ _) Hx). simpl.
  destruct (argmin_Ok (map (fun r => fsum (map (fun y => fmul y y) r)) (differences X_c x)))
    as [j Hj]; [by destruct X_c|].
  exists j. split; [done|]. apply argmin_in_range in Hj.
  by rewrite length_map, differences_length in Hj.
Qed.

Lemma raw_ITT_real (Y_c Y_t : vector) (idx : list nat) ITT :
  real_vec Y_c -> real_vec Y_t -> length idx = length Y_t ->
  raw_ITT Y_c Y_t idx = Ok ITT -> real_vec ITT /\ length ITT = length Y_t.
Proof.
  intros HYc HYt Hl. unfold raw_ITT. intros (Y_m & HYm & [= <-])%bind_Ok.
  split.
  - apply vsub_real; [done|]. by eapply take_idx_Forall.
  - rewrite vsub_length; [done|]. by rewrite (take_idx_length _ _ _ HYm).
Qed.


(** *** Exact matches *)

(** A rational in lowest terms, as every arithmetic operation returns. *)
Definition reduced (x : float) : Prop := exists q, x = Fin (Qred q).

Lemma reduced_real x : reduced x -> real x.
Proof. by intros [q ->]. Qed.

Lemma vsub_reduced (a b : vector) :
  real_vec a -> real_vec b -> Forall reduced (vsub a b).
Proof.
  intros Ha. revert b. induction Ha as [|x a Hx _ IH]; intros b Hb; [constructor|].
  destruct Hb as [|y b Hy Hb]; [constructor|]. simpl. constructor; [|by apply IH].
  destruct (real_inv _ Hx) as [p ->], (real_inv _ Hy) as [q ->]. by eexists.
Qed.

Lemma Qsquare_nonneg (a : Q) : (0 <= a * a)%Q.
Proof. unfold Qle, Qmult; simpl; nia. Qed.

(** A sum of squares that is not positive is a sum of zeros. *)
Lemma sq_sum_zero (v : vector) q :
  Forall reduced v -> fsum (map (fun x => fmul x x) v) = Fin q -> (q <= 0)%Q ->
  v = replicate (length v) (Fin 0).
Proof.
  intros Hv. revert q. induction Hv as [|x v [c ->] Hv IH]; intros q; [done|].
  simpl. fold (fsum (map (fun x : float => fmul x x) v)).
  destruct (fsum_squares v) as (b & Hb & Hb0).
  { eapply Forall_impl; [exact Hv|]. apply reduced_real. }
  rewrite Hb. simpl. intros [= <-]. rewrite !Qred_correct. intros Hle.
  pose proof (Qsquare_nonneg (Qred c)) as Hsq.
  assert (Qred c * Qred c == 0)%Q as Hz by lra.
  assert (c == 0)%Q as Hc.
  { rewrite <- (Qred_correct c). by destruct (Qmult_integral _ _ Hz). }
  rewrite (Qred_complete _ _ Hc). f_equal. apply (IH b Hb). lra.
Qed.

Lemma fsub_zero_sym (x y : float) :
  real x -> real y -> fsub x y = Fin 0 -> fsub y x = Fin 0.
Proof.
  intros [a ->]%real_inv [b ->]%real_inv. simpl. intros [= H]. f_equal.
  assert (a - b == 0)%Q as Hab by (by rewrite <- (Qred_correct (a - b)), H).
  rewrite (Qred_complete (b - a) 0); [done|lra].
Qed.

Lemma vsub_zero_sym (a b : vector) :
  real_vec a -> real_vec b -> length a = length b ->
  vsub a b = replicate (length (vsub a b)) (Fin 0) ->
  vsub b a = replicate (length a) (Fin 0).
Proof.
  intros Ha. revert b. induction Ha as [|x a Hx _ IH]; intros b Hb Hl.
  - by destruct b.
  - destruct Hb as [|y b Hy Hb]; [done|]. simpl. intros [= H1 H2].
    rewrite (fsub_zero_sym x y) by done. f_equal. apply IH; [done|by injection Hl|done].
Qed.

Lemma fsub_0_r (z : float) : reduced z \/ is_fin z = false -> fsub z (Fin 0) = z.
Proof.
  intros [[c ->]| Hz].
  - simpl. f_equal. rewrite <- (Qred_Qred c) at 2. apply Qred_complete.
    rewrite Qred_correct. ring.
  - by destruct z.
Qed.

Lemma fsub_result (x y : float) : reduced (fsub x y) \/ is_fin (fsub x y) = false.
Proof. destruct x, y; simpl; try (by right). left. by eexists. Qed.


(** *** The greedy rule of matching without replacement *)

(** [(r**2).sum()] for one row of differences. *)
Definition sq_norm (r : vector) : float := fsum (map (fun x => fmul x x) r).

(** [(r.dot(W) * r).sum()] for one row of differences. *)
Definition quad_form (W : matrix) (r : vector) : float :=
  fsum (vmul (map (fun j => dotp r (column W j)) (seq 0 (ncols W))) r).

(** The distance that [metric] gives to one row of differences: the
    squared Euclidean norm, or the quadratic form of the inverse of
    [np.cov(X, rowvar=0)]. *)
Definition row_distance (mahalanobis : bool) (X : matrix) (r : vector) : float :=
  if mahalanobis
  then match inv (cov X) with Ok W => quad_form W r | Err _ => NaN end
  else sq_norm r.

Lemma metric_pointwise (mahalanobis : bool) (X dX : matrix) d :
  metric inv mahalanobis X dX = Ok d ->
  forall j r, dX !! j = Some r -> d !! j = Some (row_distance mahalanobis X r).
Proof.
  destruct mahalanobis; simpl.
  - unfold mahalanobis_dist.
    intros (W & HW & (P & HP & [= <-])%bind_Ok)%bind_Ok j r Hj.
    apply dot_mm_Ok in HP.
    destruct (Forall2_lookup_l _ _ _ _ _ HP Hj) as (p & Hp & _ & ->).
    rewrite map_lookup, lookup_zip_with, Hp, Hj. simpl. by rewrite HW.
  - intros [= <-] j r Hj. by rewrite map_lookup, Hj.
Qed.

(** In every round the loop takes, among the controls no earlier round has
    taken, one at the least distance from the treated unit, the first of
    them in index order. *)
Lemma greedy_nearest k dist (rowd : vector -> float) X_t :
  1 <= k -> rowwise k dist ->
  (forall dX d, dist dX = Ok d ->
     forall j r, dX !! j = Some r -> d !! j = Some (rowd r)) ->
  real_matrix X_t -> is_matrix k X_t ->
  forall l pool idx idx' pool',
    pool_ok k pool ->
    greedy dist X_t l pool idx = (Ok idx', pool') ->
    exists js, length js = length l /\ idx' = record idx l js /\
      forall n i j, l !! n = Some i -> js !! n = Some j ->
        exists x r, X_t !! i = Some x /\ pool !! j = Some r /\ real_vec r /\
          (j ∉ take n js) /\
          forall j' r', pool !! j' = Some r' -> real_vec r' -> j' ∉ take n js ->
            fle (rowd (vsub r x)) (rowd (vsub r' x)) = true /\
            (j' < j -> flt (rowd (vsub r x)) (rowd (vsub r' x)) = true).
Proof.
  intros Hk Hrow Hpt HXt HkXt.
  induction l as [|i l IH]; intros pool idx idx' pool' Hpool; simpl.
  - intros [= <- <-]. exists []. split_and!; try done.
  - destruct (index X_t i) as [x|] eqn:Hx; simpl; [|done].
    destruct (dist (differences pool x)) as [d|] eqn:Hd; simpl; [|done].
    destruct (nanargmin d) as [j|] eqn:Hj; simpl; [|done].
    apply index_Ok in Hx.
    assert (real_vec x) as Hrx by (by eapply (proj1 (Forall_lookup _ _) HXt)).
    assert (length x = k) as Hlx by (by eapply (proj1 (Forall_lookup _ _) HkXt)).
    destruct (greedy_choice k dist pool x d j) as (r & q & Hr & Hreal & Hlr & Hdj & Hmin);
      try done.
    destruct (pool_distances k dist pool x d Hk Hrow Hpool Hrx Hlx Hd) as (_ & _ & Hrows).
    rewrite Hr. intros Hrun.
    destruct (IH _ _ _ _ (mark_pool_ok k pool j Hpool) Hrun) as (js & Hlen & -> & Hrounds).
    exists (j :: js). split_and!; [simpl; by rewrite Hlen|done|].
    assert (rowd (vsub r x) = Fin q) as Hq.
    { pose proof (Hpt _ _ Hd j _ (differences_lookup _ x _ _ Hr)). congruence. }
    intros [|n] i' j0 Hi' Hj0; simpl in Hi', Hj0.
    + injection Hi' as <-. injection Hj0 as <-.
      exists x, r. split_and!; try done.
      { simpl. apply not_elem_of_nil. }
      intros j' r' Hr' Hreal' _.
      pose proof (Hpt _ _ Hd j' _ (differences_lookup _ x _ _ Hr')) as Hd'.
      destruct (Hrows _ _ Hr') as (y & Hy & _ & Hyreal).
      assert (y = rowd (vsub r' x)) as -> by congruence.
      rewrite Hq. apply (Hmin j'); [done|by apply Hyreal].
    + destruct (Hrounds n i' j0 Hi' Hj0) as (x' & r0 & Hx' & Hr0 & Hreal0 & Hnin & Hbest).
      assert (j0 <> j) as Hne.
      { intros ->. rewrite (mark_lookup_eq _ _ _ Hr), Hlr in Hr0. injection Hr0 as <-.
        by eapply nan_row_not_real. }
      rewrite mark_lookup_ne in Hr0 by done.
      exists x', r0. split_and!; try done.
      { simpl. by apply not_elem_of_cons. }
      intros j' r' Hr' Hreal' Hnin'. simpl in Hnin'.
      apply not_elem_of_cons in Hnin' as [Hne' Hnin'].
      apply Hbest; [|done|done]. by rewrite mark_lookup_ne.
Qed.


(** *** As many controls as treated units *)

(** Distinct indices below [n], [n] of them, are all the indices below
    [n]. *)
Lemma NoDup_all_indices (l : list nat) n :
  NoDup l -> Forall (fun j => j < n) l -> length l = n -> l ≡ₚ seq 0 n.
Proof.
  intros Hnd Hlt Hlen. apply submseteq_length_Permutation.
  - apply NoDup_submseteq; [done|]. intros j Hj. apply elem_of_seq.
    pose proof (proj1 (Forall_forall _ _) Hlt j Hj) as Hj'. simpl in Hj'. lia.
  - rewrite length_seq. lia.
Qed.

Lemma take_idx_zip {A B} (l : list A) (l' : list B) idx k k' :
  take_idx l idx = Ok k -> take_idx l' idx = Ok k' ->
  take_idx (zip l l') idx = Ok (zip k k').
Proof.
  rewrite !take_idx_Ok. intros H. revert k'.
  induction H as [|i x idx k Hx _ IH]; intros k' H'.
  - apply Forall2_nil_inv_l in H' as ->. constructor.
  - apply Forall2_cons_inv_l in H' as (y & k'' & Hy & H' & ->). simpl.
    constructor; [|by apply IH]. apply lookup_zip_with_Some. by exists x, y.
Qed.

(** The rows selected by [D == c], read off the list of (row, code) pairs. *)
Lemma compress_eqz_zip {A} (c : Z) (l : list A) (D : list Z) :
  length l = length D ->
  compress (eqz D c) l = (filter (fun p => p.2 = c) (zip l D)).*1.
Proof.
  revert D. induction l as [|x l IH]; intros [|d D] Hl; try done.
  injection Hl as Hl. simpl. rewrite filter_cons. simpl.
  destruct (Z.eqb_spec d c) as [->|Hne].
  - rewrite decide_True by done. simpl. f_equal. by apply IH.
  - rewrite decide_False by done. by apply IH.
Qed.

(** Sorting the data by propensity score keeps every outcome with its
    treatment code. *)
Lemma presort_groups (Yv : vector) (Dv : list Z) (Xv : matrix) Ys Ds Xs c :
  length Yv = length Xv -> length Dv = length Xv ->
  presort Logit_predict argsort Yv Dv Xv = Ok (Ys, Ds, Xs) ->
  compress (eqz Ds c) Ys ≡ₚ compress (eqz Dv c) Yv.
Proof.
  intros HlY HlD Hpre.
  destruct (presort_perm _ _ argsort_perm Logit_length _ _ _ _ _ _ HlY HlD Hpre)
    as (HpY & HpD & _).
  revert Hpre. unfold presort.
  intros (pscore & Hp & (Ys' & HYs & (Ds' & HDs & (Xs' & HXs & [= <- <- <-])%bind_Ok)%bind_Ok)%bind_Ok)%bind_Ok.
  pose proof (take_idx_zip _ _ _ _ _ HYs HDs) as Hz.
  destruct (take_idx_perm (zip Yv Dv) (rev (argsort pscore))) as (k & Hk & Hperm).
  { rewrite length_zip_with, HlY, HlD, Nat.min_id, <- (Logit_length _ _ _ Hp).
    etrans; [|apply argsort_perm]. symmetry. apply Permutation_rev. }
  assert (k = zip Ys' Ds') as -> by congruence.
  rewrite !compress_eqz_zip.
  - apply fmap_Permutation. by apply filter_Permutation.
  - congruence.
  - rewrite (Permutation_length HpY), (Permutation_length HpD). congruence.
Qed.

Lemma Qsum_vsub (a b : vector) :
  real_vec a -> real_vec b -> length a = length b ->
  (Qsum (vsub a b) == Qsum a - Qsum b)%Q.
Proof.
  intros Ha. revert b. induction Ha as [|x a Hx _ IH]; intros b Hb Hl.
  - destruct b; [|done]. simpl. ring.
  - destruct Hb as [|y b Hy Hb]; [done|]. injection Hl as Hl.
    destruct (real_inv _ Hx) as [p ->], (real_inv _ Hy) as [q ->].
    simpl. rewrite (IH b Hb Hl), Qred_correct. ring.
Qed.

Lemma mean_Qsum (v : vector) :
  real_vec v -> v <> [] ->
  mean v = Fin (Qred (Qsum v / inject_Z (Z.of_nat (length v)))).
Proof.
  intros Hv Hne. unfold mean. rewrite (fsum_Qsum v Hv).
  unfold of_nat, of_Z, fdiv. rewrite Qsign_inject_Z.
  destruct (Z.compare_spec (Z.of_nat (length v)) 0) as [E|E|E].
  - destruct v; [done|simpl in E; lia].
  - lia.
  - f_equal. apply Qred_complete. by rewrite Qred_correct.
Qed.

Lemma fsub_Fin (a b : Q) : fsub (Fin a) (Fin b) = Fin (Qred (a - b)).
Proof. reflexivity. Qed.

(** The mean of the differences is the difference of the means. *)
Lemma mean_vsub (a b : vector) :
  real_vec a -> real_vec b -> length a = length b ->
  mean (vsub a b) = fsub (mean a) (mean b).
Proof.
  intros Ha Hb Hl. destruct a as [|x a].
  { destruct b; [|done]. reflexivity. }
  destruct b as [|y b]; [done|].
  rewrite (mean_Qsum (x :: a)), (mean_Qsum (y :: b)) by done.
  rewrite mean_Qsum; [|by apply vsub_real|done].
  rewrite vsub_length by done. rewrite <- Hl, fsub_Fin. f_equal.
  apply Qred_complete. rewrite !Qred_correct, (Qsum_vsub _ _ Ha Hb Hl).
  generalize (Qsum (x :: a)) (Qsum (y :: b)). intros sa sb.
  assert (~ inject_Z (Z.of_nat (length (x :: a))) == 0)%Q as Hn.
  { unfold Qeq, inject_Z. simpl. lia. }
  revert Hn. generalize (inject_Z (Z.of_nat (length (x :: a)))). intros n Hn.
  field. exact Hn.
Qed.


(** *** Treatment codes other than 0 and 1 *)

(** [(D == 0) | (D == 1)] *)
Definition coded (D : list Z) : list bool :=
  map (fun d => (d =? 0)%Z || (d =? 1)%Z) D.

Lemma compress_coded {A} (c : Z) (D : list Z) (l : list A) :
  c = 0%Z \/ c = 1%Z -> length l = length D ->
  compress (eqz (compress (coded D) D) c) (compress (coded D) l)
  = compress (eqz D c) l.
Proof.
  intros Hc. revert l. induction D as [|d D IH]; intros [|x l] Hl; try done.
  injection Hl as Hl. simpl.
  destruct (Z.eqb_spec d 0) as [->|H0]; simpl.
  { destruct Hc as [-> | ->]; simpl; by rewrite IH. }
  destruct (Z.eqb_spec d 1) as [->|H1]; simpl.
  { destruct Hc as [-> | ->]; simpl; by rewrite IH. }
  destruct (Z.eqb_spec d c) as [->|Hne]; [by destruct Hc|]. by apply IH.
Qed.

Lemma coded_length (D : list Z) : length (coded D) = length D.
Proof. apply length_map. Qed.

(** X9.  A unit whose treatment code is neither 0 nor 1 belongs to no
    group: it is dropped without any error.  [SyntheticEstimates] and
    Euclidean [MatchingWithReplacement] give the result, value or
    exception, that they give on the sample with those units removed. *)
Theorem X9_other_codes_dropped (higher_moments bias_correction : bool)
    s Y D X s2 Y2 D2 X2 (Yv : vector) (Dv : list Z) (Xv : matrix) :
  heap s !! Y = Some (FloatArr Yv) -> heap s !! D = Some (IntArr Dv) ->
  heap s !! X = Some (FloatMat Xv) ->
  heap s2 !! Y2 = Some (FloatArr (compress (coded Dv) Yv)) ->
  heap s2 !! D2 = Some (IntArr (compress (coded Dv) Dv)) ->
  heap s2 !! X2 = Some (FloatMat (compress (coded Dv) Xv)) ->
  length Yv = length Dv -> length Xv = length Dv ->
  (SyntheticEstimates lstsq Y D X higher_moments s).1
  = (SyntheticEstimates lstsq Y2 D2 X2 higher_moments s2).1 /\
  (MWR Y D X false bias_correction s).1 = (MWR Y2 D2 X2 false bias_correction s2).1.
Proof.
  intros HY HD HX HY2 HD2 HX2 HlY HlX.
  assert (length (compress (coded Dv) Yv) = length (compress (coded Dv) Dv)) as HlY2
    by (by apply compress_length_eq).
  assert (length (compress (coded Dv) Xv) = length (compress (coded Dv) Dv)) as HlX2
    by (by apply compress_length_eq).
  split.
  - unfold SyntheticEstimates.
    rewrite (run_reading _ s _ _ _ _ _ _ HY HD HX),
            (run_reading _ s2 _ _ _ _ _ _ HY2 HD2 HX2). simpl.
    unfold SyntheticEstimates_on, bool_index.
    rewrite !eqz_length, !decide_True by done. simpl.
    by rewrite !compress_coded by auto.
  - unfold MatchingWithReplacement.
    rewrite (run_reading _ s _ _ _ _ _ _ HY HD HX),
            (run_reading _ s2 _ _ _ _ _ _ HY2 HD2 HX2). simpl.
    unfold MatchingWithReplacement_ITT, bool_index.
    rewrite !eqz_length, !decide_True by done. simpl.
    by rewrite !compress_coded by auto.
Qed.

(** *** Edge cases of the OLS estimator *)

Lemma dotp_nan_row k (p : vector) :
  1 <= k -> length p = k -> dotp (nan_row k) p = NaN.
Proof.
  intros Hk Hp. unfold dotp. apply fsum_NaN. destruct p as [|y p]; [simpl in Hp; lia|].
  destruct k; [lia|]. simpl. left.
Qed.

(** Without treated units [DdX.sum(0) / D.sum()] is 0/0 in every column. *)
Lemma interaction_average_no_treated (D : list Z) (dX : matrix) k :
  indicator D -> real_matrix dX -> is_matrix k dX -> dX <> [] ->
  length D = length dX -> N_treated D = 0 ->
  interaction_average D dX = nan_row k.
Proof.
  intros HD HdX Hk Hne Hl HN. unfold interaction_average, transpose.
  rewrite (ncols_zip_with_map _ _ k) by (done || by rewrite length_map).
  rewrite map_map.
  rewrite (map_const_on _ NaN); [by rewrite length_seq|].
  intros j Hj%elem_of_seq.
  rewrite (interaction_column_sum D dX k j) by (done || lia).
  rewrite (nil_length_0 (compress (eqz D 1) dX)) by (by rewrite N_treated_rows).
  rewrite <- (proj1 (indicator_counts D HD)), HN. reflexivity.
Qed.

(** X10.  On a sample without treated units (a 0/1 indicator that is 0
    throughout, real covariates in one column or more) [OLSEstimates]
    divides the zero column sums of [D * dX] by [D.sum() = 0]: whenever it
    returns, it returns NaN, and it does return whenever the fit returns
    its 2k+2 coefficients. *)
Theorem X10_ols_no_treated_unit s Y D X (Yv : vector) (Dv : list Z) (Xv : matrix) k :
  heap s !! Y = Some (FloatArr Yv) -> heap s !! D = Some (IntArr Dv) ->
  heap s !! X = Some (FloatMat Xv) ->
  1 <= k -> is_matrix k Xv -> real_matrix Xv -> Xv <> [] ->
  indicator Dv -> N_treated Dv = 0 ->
  (forall att s', OLSEstimates OLS_params Y D X s = (Ok att, s') -> att = NaN) /\
  (forall params,
     length Dv = length Xv ->
     OLS_params Yv (design Dv (demeaned Xv)) = Ok params ->
     length params = 2 + 2 * k ->
     OLSEstimates OLS_params Y D X s = (Ok NaN, s)).
Proof.
  intros HY HD HX Hk HkX HrX Hne Hind HN. unfold OLSEstimates.
  rewrite (run_reading _ s _ _ _ _ _ _ HY HD HX), OLSEstimates_on_eq.
  rewrite (ncols_is_matrix k Xv HkX Hne).
  destruct (demeaned_real k Xv HrX HkX) as [HrdX HkdX].
  assert (demeaned Xv <> []) as HdXne by (unfold demeaned; by destruct Xv).
  assert (length (demeaned Xv) = length Xv) as HldX
    by (unfold demeaned; by rewrite length_map).
  assert (length Dv = length Xv ->
          interaction_average Dv (demeaned Xv) = nan_row k) as Havg.
  { intros Hl. apply interaction_average_no_treated; try done. congruence. }
  split.
  - intros att s' [= Hr <-].
    destruct (decide (length Dv = length Xv)) as [Hl|]; [|done].
    apply bind_Ok in Hr as (params & Hp & (tau & Htau & (c & [Hlc ->]%dot_Ok & [= <-])%bind_Ok)%bind_Ok).
    rewrite (Havg Hl) in *. rewrite nan_row_length in Hlc.
    rewrite dotp_nan_row by done. apply fadd_NaN_r.
  - intros params Hl Hp Hlp. rewrite decide_True by done. rewrite Hp. simpl.
    destruct params as [|c [|tau params]]; [done|done|]. simpl.
    rewrite (Havg Hl).
    assert (length (slice_last k (c :: tau :: params)) = k) as Hls.
    { apply slice_last_length; [done|]. simpl in *. lia. }
    rewrite (proj2 (dot_Ok _ _ _) (conj (eq_trans (nan_row_length k) (eq_sym Hls)) eq_refl)).
    simpl. rewrite dotp_nan_row by done. by rewrite fadd_NaN_r.
Qed.

(** X11.  With a covariate matrix of no columns [OLSEstimates] never
    returns a value: [reg.params[-k:]] with [k = 0] is the whole coefficient
    vector, which the empty vector [DdX.sum(0) / D.sum()] cannot be
    multiplied with; the call raises ValueError as soon as the fit returns
    two coefficients or more. *)
Theorem X11_ols_no_covariate s Y D X (Yv : vector) (Dv : list Z) (Xv : matrix) :
  heap s !! Y = Some (FloatArr Yv) -> heap s !! D = Some (IntArr Dv) ->
  heap s !! X = Some (FloatMat Xv) ->
  Xv <> [] -> is_matrix 0 Xv ->
  (forall att s', OLSEstimates OLS_params Y D X s <> (Ok att, s')) /\
  (forall params,
     length Dv = length Xv ->
     OLS_params Yv (design Dv (demeaned Xv)) = Ok params ->
     2 <= length params ->
     OLSEstimates OLS_params Y D X s = (Err ValueError, s)).
Proof.
  intros HY HD HX Hne HkX. unfold OLSEstimates.
  rewrite (run_reading _ s _ _ _ _ _ _ HY HD HX), OLSEstimates_on_eq.
  rewrite (ncols_is_matrix 0 Xv HkX Hne).
  assert (interaction_average Dv (demeaned Xv) = []) as Havg.
  { unfold interaction_average, transpose.
    assert (ncols (zip_with (fun d r => map (fmul d) r) (map of_Z Dv) (demeaned Xv)) = 0)
      as ->; [|done].
    unfold demeaned. destruct Xv as [|r Xv']; [done|].
    apply Forall_cons in HkX as [Hr _]. apply nil_length_0 in Hr as ->.
    by destruct Dv. }
  rewrite Havg.
  assert (forall p : vector, slice_last 0 p = p) as Hslice by done.
  split.
  - intros att s' [= Hr _].
    destruct (decide (length Dv = length Xv)) as [Hl|]; [|done].
    apply bind_Ok in Hr as (params & Hp & (tau & Htau%index_Ok & (c & [Hlc _]%dot_Ok & _)%bind_Ok)%bind_Ok).
    apply lookup_lt_Some in Htau. rewrite Hslice in Hlc. simpl in Hlc. lia.
  - intros params Hl Hp Hlp. rewrite decide_True by done. rewrite Hp. simpl.
    destruct params as [|c [|tau params]]; [simpl in Hlp; lia|simpl in Hlp; lia|].
    simpl. reflexivity.
Qed.

End Behaviour.

(** * The simulation *)

(** ** Parameters of the data-generating model *)

(** The class [parameters]. *)
Record parameters : Type := mkParameters {
  para_N : nat;          (* self.N, the sample size *)
  para_k : nat;          (* self.k, the number of covariates *)
  para_delta : float;    (* self.delta *)
  para_beta : vector;    (* self.beta *)
  para_theta : vector;   (* self.theta *)
  para_mu : vector;      (* self.mu *)
  para_Sigma : matrix;   (* self.Sigma *)
  para_Gamma : matrix    (* self.Gamma *)
}.

(** [np.ones(k)], [np.zeros(k)] and [np.identity(k)] *)
Definition ones (k : nat) : vector := replicate k (Fin 1).
Definition zeros (k : nat) : vector := replicate k (Fin 0).
Definition identity (k : nat) : matrix :=
  map (fun i => map (fun j => if decide (i = j) then Fin 1 else Fin 0) (seq 0 k))
      (seq 0 k).

(** [parameters.__init__(self, N, k)] *)
Definition parameters_init (N k : nat) : parameters :=
  mkParameters N k (Fin 3) (ones k) (ones k) (zeros k) (identity k) (identity 2).

(** The default argument [para=parameters()], built once when the
    functions are defined. *)
Definition default_parameters : parameters := parameters_init 500 3.

(** ** Array operations of the simulation *)

(** An arithmetic operation on two 1-D arrays: elementwise on equal
    lengths, a one-element array is broadcast, other shapes are refused. *)
Definition elementwise (f : float -> float -> float) (a b : vector)
  : result vector :=
  if decide (length a = length b) then Ok (zip_with f a b)
  else match a, b with
       | [x], _ => Ok (map (f x) b)
       | _, [y] => Ok (map (fun x => f x y) a)
       | _, _ => Err ValueError
       end.

(** [A[:, j]] *)
Definition col (A : matrix) (j : nat) : result vector :=
  mapM (fun r => index r j) A.

(** ** The data generator *)

Section Simulation.

(** State of NumPy's global random generator. *)
Variable rng : Type.
(** [np.random.multivariate_normal(mean, cov, size)] *)
Variable multivariate_normal : vector -> matrix -> nat -> rng -> result matrix * rng.
(** [np.random.binomial(1, p, size=1)], the value drawn *)
Variable binomial : float -> rng -> result Z * rng.
(** [scipy.stats.norm.cdf] at one point *)
Variable norm_cdf : float -> float.

Variable Logit_predict : list Z -> matrix -> result vector.
Variable OLS_params : vector -> matrix -> result vector.
Variable lstsq : matrix -> vector -> result vector.
Variable inv : matrix -> result matrix.
Variable argsort : vector -> list nat.

(** Computations that draw random numbers. *)
Definition R (A : Type) : Type := rng -> result A * rng.

#[local] Instance R_ret : MRet R := fun A a g => (Ok a, g).
#[local] Instance R_bind : MBind R := fun A B f m g =>
  match m g with
  | (Ok a, g') => f a g'
  | (Err e, g') => (Err e, g')
  end.

Definition pure {A} (r : result A) : R A := fun g => (r, g).

(** [[draw(x) for x in l]] *)
Fixpoint draws {A B} (draw : A -> R B) (l : list A) : R (list B) :=
  match l with
  | [] => mret []
  | x :: l' => y ← draw x; ys ← draws draw l'; mret (y :: ys)
  end.

(** What [SimulateData] returns: [Y, D, X] and, when asked for, the two
    potential outcomes [Y_0, Y_1]. *)
Definition sample : Type := vector * list Z * matrix * option (vector * vector).

(** Lines 333-338 of [SimulateData]: the potential outcomes [Y_0] and
    [Y_1] of the nonlinear and of the linear model. *)
Definition outcomes (para : parameters) (nonlinear : bool)
    (X epsilon : matrix) (Xbeta : vector) : result (vector * vector) :=
  if nonlinear then
    e0 ← col epsilon 0;
    Y_0 ← elementwise fadd (map (fun r => fsum (map fabs r)) X) e0;
    e1 ← col epsilon 1;
    Y_1 ← elementwise fadd (map (fun r => fsum (map (fun x => fmul x x) r)) X) e1;
    Ok (Y_0, Y_1)
  else
    e0 ← col epsilon 0;
    Y_0 ← elementwise fadd Xbeta e0;
    bt ← elementwise fadd (para_beta para) (para_theta para);
    Xbt ← dot_mv X bt;
    e1 ← col epsilon 1;
    Y_1 ← elementwise fadd (map (fadd (para_delta para)) Xbt) e1;
    Ok (Y_0, Y_1).

(** [(1 - D) * Y_0 + D * Y_1] *)
Definition observed (D : list Z) (Y_0 Y_1 : vector) : result vector :=
  a ← elementwise fmul (map (fun d => of_Z (1 - d)) D) Y_0;
  b ← elementwise fmul (map of_Z D) Y_1;
  elementwise fadd a b.

(** [SimulateData(para, nonlinear, return_counterfactual)] *)
Definition SimulateData (para : parameters)
    (nonlinear return_counterfactual : bool) : R sample :=
  let k := length (para_mu para) in
  X ← multivariate_normal (para_mu para) (para_Sigma para) (para_N para);
  epsilon ← multivariate_normal (zeros 2) (para_Gamma para) (para_N para);
  Xbeta ← pure (dot_mv X (para_beta para));
  let pscore := map norm_cdf Xbeta in
  D ← draws binomial pscore;
  Y01 ← pure (outcomes para nonlinear X epsilon Xbeta);
  let '(Y_0, Y_1) := Y01 in
  Y ← pure (observed D Y_0 Y_1);
  if return_counterfactual
  then mret (Y, D, X, Some (Y_0, Y_1))
  else mret (Y, D, X, None).

(** ** The Monte Carlo experiment *)

(** Computations that draw random numbers and use the store. *)
Definition W (A : Type) : Type := rng * state -> result A * (rng * state).

#[local] Instance W_ret : MRet W := fun A a w => (Ok a, w).
#[local] Instance W_bind : MBind W := fun A B f m w =>
  match m w with
  | (Ok a, w') => f a w'
  | (Err e, w') => (Err e, w')
  end.

Definition random {A} (m : R A) : W A := fun w =>
  let '(r, g') := m w.1 in (r, (g', w.2)).

Definition stored {A} (m : M A) : W A := fun w =>
  let '(r, s') := m w.2 in (r, (w.1, s')).

(** The line printed by
    [print i+1, 'out of', B, 'simulations completed.'] *)
Definition progress (n B : nat) : string :=
  pretty n +:+ " out of " +:+ pretty B +:+ " simulations completed.".

(** The four arrays that [MonteCarlo] fills. *)
Definition estimates : Type := vector * vector * vector * vector.

(** One repetition of the loop of [MonteCarlo]. *)
Definition MonteCarlo_step (B : nat) (para : parameters)
    (nonlinear print_progress : bool) (i : nat) (acc : estimates) : W estimates :=
  let '(ATT_true, ATT_syn, ATT_match, ATT_ols) := acc in
  smp ← random (SimulateData para nonlinear true);
  let '(Yv, Dv, Xv, cf) := smp in
  match cf with
  | None => stored (lift (Err ValueError))
  | Some (Y_0, Y_1) =>
      Y ← stored (alloc (FloatArr Yv));
      D ← stored (alloc (IntArr Dv));
      X ← stored (alloc (FloatMat Xv));
      t ← stored (lift (a ← bool_index Y_1 (eqz Dv 1);
                        b ← bool_index Y_0 (eqz Dv 1);
                        d ← elementwise fsub a b;
                        Ok (mean d)));
      syn ← stored (SyntheticEstimates lstsq Y D X nonlinear);
      mat ← stored (MatchingEstimates Logit_predict OLS_params inv argsort
                      Y D X true true);
      ols ← stored (OLSEstimates OLS_params Y D X);
      (if print_progress && ((i + 1) mod 10 =? 0)
       then stored (print (progress (i + 1) B))
       else mret ());;
      mret (<[i := t]> ATT_true, <[i := syn]> ATT_syn,
            <[i := mat]> ATT_match, <[i := ols]> ATT_ols)
  end.

(** [MonteCarlo(B, para, nonlinear, print_progress)] *)
Definition MonteCarlo (B : nat) (para : parameters)
    (nonlinear print_progress : bool) : W estimates :=
  for_range (seq 0 B) (MonteCarlo_step B para nonlinear print_progress)
    (replicate B (Fin 0), replicate B (Fin 0), replicate B (Fin 0),
     replicate B (Fin 0)).

(** [((a - b)**2).mean()] *)
Definition mean_squared_error (a b : vector) : result float :=
  d ← elementwise fsub a b;
  Ok (mean (map (fun x => fmul x x) d)).

(** [CalculateMSE(B, para, nonlinear)]: the call
    [MonteCarlo(B, nonlinear=nonlinear)] leaves [para] and [print_progress]
    to their defaults. *)
Definition CalculateMSE (B : nat) (para : parameters) (nonlinear : bool)
  : W (float * float * float) :=
  est ← MonteCarlo B default_parameters nonlinear true;
  let '(ATT_true, ATT_syn, ATT_match, ATT_ols) := est in
  MSE_syn ← stored (lift (mean_squared_error ATT_syn ATT_true));
  MSE_match ← stored (lift (mean_squared_error ATT_match ATT_true));
  MSE_ols ← stored (lift (mean_squared_error ATT_ols ATT_true));
  mret (MSE_syn, MSE_match, MSE_ols).


(** ** Properties of the data generator *)

Lemma R_bind_Ok {A B} (m : R A) (f : A -> R B) g b g' :
  (m ≫= f) g = (Ok b, g') -> exists a g1, m g = (Ok a, g1) /\ f a g1 = (Ok b, g').
Proof.
  unfold mbind, R_bind. destruct (m g) as [[a|e] g1]; [eauto|done].
Qed.

Lemma pure_Ok {A} (r : result A) g a g' : pure r g = (Ok a, g') -> r = Ok a /\ g' = g.
Proof. by intros [= -> ->]. Qed.

Lemma draws_spec {A B} (draw : A -> R B) (P : B -> Prop) (l : list A) :
  (forall x g y g', draw x g = (Ok y, g') -> P y) ->
  forall g ys g', draws draw l g = (Ok ys, g') -> length ys = length l /\ Forall P ys.
Proof.
  intros Hdraw. induction l as [|x l IH]; intros g ys g'; simpl.
  - by intros [= <- <-].
  - intros (y & g1 & Hy & (ys' & g2 & Hys & [= <- <-])%R_bind_Ok)%R_bind_Ok.
    destruct (IH _ _ _ Hys) as [Hl HP]. split; [simpl; by rewrite Hl|].
    constructor; [by eapply Hdraw|done].
Qed.

Lemma draws_total {A B} (draw : A -> R B) (l : list A) :
  (forall x g, x ∈ l -> exists y g', draw x g = (Ok y, g')) ->
  forall g, exists ys g', draws draw l g = (Ok ys, g').
Proof.
  induction l as [|x l IH]; intros Hdraw g; simpl; [by eexists _, _|].
  destruct (Hdraw x g) as (y & g1 & Hy); [left|].
  destruct (IH (fun x' g' Hin => Hdraw x' g' (list_elem_of_further _ _ _ Hin)) g1)
    as (ys & g2 & Hys).
  unfold mbind, R_bind. rewrite Hy, Hys. by eexists _, _.
Qed.

Lemma elementwise_same f (a b : vector) :
  length a = length b -> elementwise f a b = Ok (zip_with f a b).
Proof. intros Hl. unfold elementwise. by rewrite decide_True. Qed.

Lemma elementwise_real f (a b c : vector) :
  (forall x y, real x -> real y -> real (f x y)) ->
  real_vec a -> real_vec b -> elementwise f a b = Ok c -> real_vec c.
Proof.
  intros Hf Ha Hb. unfold elementwise. case_decide.
  - intros [= <-]. apply Forall_forall.
    intros z (i & x & y & -> & Hx & Hy)%elem_of_lookup_zip_with.
    apply Hf; [by eapply (proj1 (Forall_lookup _ _) Ha)|by eapply (proj1 (Forall_lookup _ _) Hb)].
  - destruct a as [|x [|x' a]].
    + destruct b as [|y [|y' b]]; try done. intros [= <-]. constructor.
    + intros [= <-]. apply Forall_fmap. eapply Forall_impl; [exact Hb|].
      intros y Hy. simpl. apply Hf; [|done]. by apply Forall_cons in Ha as [? _].
    + destruct b as [|y [|y' b]]; try done. intros [= <-].
      change (real_vec (map (fun u => f u y) (x :: x' :: a))).
      apply Forall_fmap. eapply Forall_impl; [exact Ha|].
      intros u Hu. simpl. apply Hf; [done|]. by apply Forall_cons in Hb as [? _].
Qed.

Lemma replicate_real n q : real_vec (replicate n (Fin q)).
Proof. apply Forall_forall. by intros x [-> _]%elem_of_replicate. Qed.

Lemma fadd_real x y : real x -> real y -> real (fadd x y).
Proof. by intros [a ->]%real_inv [b ->]%real_inv. Qed.

Lemma fmul_real x y : real x -> real y -> real (fmul x y).
Proof. by intros [a ->]%real_inv [b ->]%real_inv. Qed.

Lemma fabs_real x : real x -> real (fabs x).
Proof. by intros [a ->]%real_inv. Qed.

Lemma fadd_reduced x y : real x -> real y -> reduced (fadd x y).
Proof. intros [a ->]%real_inv [b ->]%real_inv. by eexists. Qed.

Lemma col_Ok (A : matrix) j c :
  col A j = Ok c -> length c = length A /\ (real_matrix A -> real_vec c).
Proof.
  unfold col. rewrite mapM_Ok. intros H. split; [by rewrite (Forall2_length _ _ _ H)|].
  intros HA. apply Forall_lookup. intros i y Hy.
  destruct (Forall2_lookup_r _ _ _ _ _ H Hy) as (r & Hr & Hi%index_Ok).
  apply (proj1 (Forall_lookup _ _) HA) in Hr.
  by apply (proj1 (Forall_lookup _ _) Hr j y).
Qed.

Lemma col_total k (A : matrix) j : is_matrix k A -> j < k -> exists c, col A j = Ok c.
Proof.
  intros HA Hj. exists (map (fun r => entry r j) A). unfold col. apply mapM_Ok.
  apply (proj2 (Forall2_fmap_r _ _ _ _)), Forall_Forall2_diag.
  eapply Forall_impl; [exact HA|]. intros r Hr. simpl in *. apply index_Ok.
  unfold entry. destruct (lookup_lt_is_Some_2 r j) as [y ->]; [lia|done].
Qed.

Lemma dot_mv_real (A : matrix) (v B : vector) :
  real_matrix A -> real_vec v -> dot_mv A v = Ok B ->
  length B = length A /\ real_vec B.
Proof.
  intros HA Hv H. apply dot_mv_Ok in H. split; [by rewrite (Forall2_length _ _ _ H)|].
  apply Forall_lookup. intros i y Hy.
  destruct (Forall2_lookup_r _ _ _ _ _ H Hy) as (r & Hr & _ & ->).
  apply dotp_real; [|done]. by apply (proj1 (Forall_lookup _ _) HA i r).
Qed.

Lemma dot_mv_total k (A : matrix) (v : vector) :
  is_matrix k A -> length v = k -> exists B, dot_mv A v = Ok B.
Proof.
  intros HA Hv. exists (map (fun r => dotp r v) A). apply dot_mv_Ok.
  apply (proj2 (Forall2_fmap_r _ _ _ _)), Forall_Forall2_diag.
  eapply Forall_impl; [exact HA|]. intros r Hr. simpl. split; [congruence|done].
Qed.

(** The observed outcome [(1 - d) * y0 + d * y1] of one unit. *)
Lemma observed_outcome (d : Z) (y0 y1 : float) :
  reduced y0 -> reduced y1 -> d = 0%Z \/ d = 1%Z ->
  fadd (fmul (of_Z (1 - d)) y0) (fmul (of_Z d) y1) = if (d =? 1)%Z then y1 else y0.
Proof.
  intros [a ->] [b ->] [-> | ->].
  - change (fadd (fmul (of_Z (1 - 0)) (Fin (Qred a))) (fmul (of_Z 0) (Fin (Qred b))))
      with (Fin (Qred (Qred (1 * Qred a) + Qred (0 * Qred b)))).
    change ((0 =? 1)%Z) with false. cbv iota. f_equal.
    rewrite <- (Qred_Qred a) at 2. apply Qred_complete. rewrite !Qred_correct. ring.
  - change (fadd (fmul (of_Z (1 - 1)) (Fin (Qred a))) (fmul (of_Z 1) (Fin (Qred b))))
      with (Fin (Qred (Qred (0 * Qred a) + Qred (1 * Qred b)))).
    change ((1 =? 1)%Z) with true. cbv iota. f_equal.
    rewrite <- (Qred_Qred b) at 2. apply Qred_complete. rewrite !Qred_correct. ring.
Qed.

(** What the development assumes of the random draws: a multivariate
    normal sample around a real mean has [size] rows of [len(mean)] real
    numbers, and a binomial draw with one trial is 0 or 1. *)
Hypothesis multivariate_normal_spec :
  forall mean cov size g X g', real_vec mean ->
    multivariate_normal mean cov size g = (Ok X, g') ->
    length X = size /\ is_matrix (length mean) X /\ real_matrix X.
Hypothesis binomial_spec :
  forall p g d g', binomial p g = (Ok d, g') -> d = 0%Z \/ d = 1%Z.

Lemma zip_with_reduced (a b : vector) :
  real_vec a -> real_vec b -> Forall reduced (zip_with fadd a b).
Proof.
  intros Ha Hb. apply Forall_forall.
  intros z (i & x & y & -> & Hx & Hy)%elem_of_lookup_zip_with.
  apply fadd_reduced; [by eapply (proj1 (Forall_lookup _ _) Ha)|
                       by eapply (proj1 (Forall_lookup _ _) Hb)].
Qed.

(** The two potential outcomes of [SimulateData]: arrays of [N] reals in
    lowest terms. *)
Lemma potential_outcomes para nonlinear (X epsilon : matrix) (Xbeta Y_0 Y_1 : vector) :
  real_vec (para_beta para) -> real_vec (para_theta para) -> real (para_delta para) ->
  real_matrix X -> real_matrix epsilon -> length epsilon = length X ->
  dot_mv X (para_beta para) = Ok Xbeta ->
  outcomes para nonlinear X epsilon Xbeta = Ok (Y_0, Y_1) ->
  length Y_0 = length X /\ length Y_1 = length X /\
  Forall reduced Y_0 /\ Forall reduced Y_1.
Proof.
  intros Hb Ht Hd HX He Hle HXb.
  destruct (dot_mv_real _ _ _ HX Hb HXb) as [HlXb HrXb].
  unfold outcomes. destruct nonlinear.
  - intros (e0 & [Hl0 Hr0]%col_Ok & (Y0 & HY0 & (e1 & [Hl1 Hr1]%col_Ok
      & (Y1 & HY1 & [= <- <-])%bind_Ok)%bind_Ok)%bind_Ok)%bind_Ok.
    rewrite elementwise_same in HY0 by (rewrite length_map; congruence).
    rewrite elementwise_same in HY1 by (rewrite length_map; congruence).
    injection HY0 as <-. injection HY1 as <-.
    rewrite !length_zip_with, !length_map, Hl0, Hl1, Hle, Nat.min_id.
    split_and!; try done; apply zip_with_reduced; try (by auto).
    + apply Forall_forall. intros y (r & -> & Hr)%list_elem_of_fmap.
      apply fsum_real. apply Forall_forall. intros z (x & -> & Hx)%list_elem_of_fmap.
      apply fabs_real. apply (proj1 (Forall_forall _ _) HX) in Hr.
      by apply (proj1 (Forall_forall _ _) Hr).
    + apply Forall_forall. intros y (r & -> & Hr)%list_elem_of_fmap.
      apply (proj1 (Forall_forall _ _) HX) in Hr.
      by destruct (fsum_squares r Hr) as (q & -> & _).
  - intros (e0 & [Hl0 Hr0]%col_Ok & (Y0 & HY0 & (bt & Hbt & (Xbt & HXbt
      & (e1 & [Hl1 Hr1]%col_Ok & (Y1 & HY1 & [= <- <-])%bind_Ok)%bind_Ok)%bind_Ok)%bind_Ok)%bind_Ok)%bind_Ok.
    pose proof (elementwise_real _ _ _ _ fadd_real Hb Ht Hbt) as Hrbt.
    destruct (dot_mv_real _ _ _ HX Hrbt HXbt) as [HlXbt HrXbt].
    rewrite elementwise_same in HY0 by congruence.
    rewrite elementwise_same in HY1 by (rewrite length_map; congruence).
    injection HY0 as <-. injection HY1 as <-.
    rewrite !length_zip_with, !length_map, Hl0, Hl1, HlXb, HlXbt, Hle, Nat.min_id.
    split_and!; try done; apply zip_with_reduced; try (by auto).
    apply Forall_forall. intros y (x & -> & Hx)%list_elem_of_fmap.
    apply fadd_real; [done|]. by apply (proj1 (Forall_forall _ _) HrXbt).
Qed.


Lemma outcomes_total para nonlinear k (X epsilon : matrix) (Xbeta : vector) :
  length (para_beta para) = k -> length (para_theta para) = k ->
  is_matrix k X -> is_matrix 2 epsilon -> length epsilon = length X ->
  length Xbeta = length X ->
  exists Y_0 Y_1, outcomes para nonlinear X epsilon Xbeta = Ok (Y_0, Y_1).
Proof.
  intros Hb Ht HkX Hke Hle HlXb. unfold outcomes.
  destruct (col_total 2 epsilon 0 Hke) as [e0 He0]; [lia|].
  destruct (col_total 2 epsilon 1 Hke) as [e1 He1]; [lia|].
  destruct (col_Ok _ _ _ He0) as [Hl0 _]. destruct (col_Ok _ _ _ He1) as [Hl1 _].
  rewrite He0. simpl. destruct nonlinear.
  - rewrite elementwise_same by (rewrite length_map; congruence). simpl.
    rewrite He1. simpl.
    rewrite elementwise_same by (rewrite length_map; congruence). simpl. eauto.
  - rewrite elementwise_same by congruence. simpl.
    rewrite elementwise_same by congruence. simpl.
    destruct (dot_mv_total k X (zip_with fadd (para_beta para) (para_theta para)) HkX)
      as [Xbt HXbt]; [rewrite length_zip_with; lia|].
    rewrite HXbt. simpl. rewrite He1. simpl.
    apply dot_mv_Ok, Forall2_length in HXbt.
    rewrite elementwise_same by (rewrite length_map; congruence). simpl. eauto.
Qed.

Lemma observed_total (D : list Z) (Y_0 Y_1 : vector) :
  length Y_0 = length D -> length Y_1 = length D ->
  exists Y, observed D Y_0 Y_1 = Ok Y.
Proof.
  intros H0 H1. unfold observed.
  rewrite elementwise_same by (rewrite length_map; congruence). simpl.
  rewrite elementwise_same by (rewrite length_map; congruence). simpl.
  rewrite elementwise_same by (rewrite !length_zip_with, !length_map; lia). eauto.
Qed.

(** X13.  The parameter sets built by [parameters(N, k)] are consistent
    with the model: [beta], [theta] and [mu] have [k] entries and the
    shapes of all the arrays of [SimulateData] agree, so that
    [SimulateData] raises only if one of the random draws raises. *)
Theorem X13_parameters_consistent N k nonlinear return_counterfactual :
  (forall g, exists X g',
     multivariate_normal (zeros k) (identity k) N g = (Ok X, g')) ->
  (forall g, exists E g',
     multivariate_normal (zeros 2) (identity 2) N g = (Ok E, g')) ->
  (forall x g, exists d g', binomial (norm_cdf x) g = (Ok d, g')) ->
  forall g, exists smp g',
    SimulateData (parameters_init N k) nonlinear return_counterfactual g
    = (Ok smp, g').
Proof.
  intros HmvX Hmve Hbin g. unfold SimulateData. simpl.
  destruct (HmvX g) as (X & g1 & HX). destruct (Hmve g1) as (eps & g2 & He).
  destruct (multivariate_normal_spec _ _ _ _ _ _ (replicate_real k 0) HX)
    as (HlX & HkX & HrX).
  destruct (multivariate_normal_spec _ _ _ _ _ _ (replicate_real 2 0) He)
    as (Hle & Hke & Hre).
  unfold zeros in HkX, Hke. rewrite length_replicate in HkX, Hke.
  unfold mbind at 1, R_bind at 1. rewrite HX.
  unfold mbind at 1, R_bind at 1. rewrite He.
  destruct (dot_mv_total k X (ones k) HkX) as [Xbeta HXb];
    [apply length_replicate|].
  pose proof (Forall2_length _ _ _ (proj1 (dot_mv_Ok _ _ _) HXb)) as HlXb.
  unfold mbind at 1, R_bind at 1, pure at 1. rewrite HXb.
  destruct (draws_total binomial (map norm_cdf Xbeta)) with (g := g2) as (D & g3 & HD).
  { intros p g' (x & -> & _)%list_elem_of_fmap. apply Hbin. }
  destruct (draws_spec binomial (fun _ => True) (map norm_cdf Xbeta)
              (fun _ _ _ _ _ => I) _ _ _ HD) as [HlD _].
  rewrite length_map in HlD.
  unfold mbind at 1, R_bind at 1. rewrite HD.
  destruct (outcomes_total (parameters_init N k) nonlinear k X eps Xbeta)
    as (Y_0 & Y_1 & HY01); try done; try apply length_replicate; try congruence.
  unfold mbind at 1, R_bind at 1, pure at 1. rewrite HY01.
  assert (length Y_0 = length D /\ length Y_1 = length D) as [H0 H1].
  { destruct (potential_outcomes (parameters_init N k) nonlinear X eps Xbeta Y_0 Y_1)
      as (H0 & H1 & _); try done; try apply replicate_real; try congruence.
    split; congruence. }
  destruct (observed_total D Y_0 Y_1 H0 H1) as [Y HY].
  unfold mbind at 1, R_bind at 1, pure at 1. rewrite HY.
  destruct return_counterfactual; by eexists _, _.
Qed.

(** ** Properties of the Monte Carlo experiment *)

(** [m] leaves every array of the store as it is, prints [lines] when it
    returns and nothing when it raises, and returns values in [Q]. *)
Definition prints {A} (lines : list string) (m : W A) (Q : A -> Prop) : Prop :=
  forall w r w', m w = (r, w') ->
    (forall l a, heap w.2 !! l = Some a -> heap w'.2 !! l = Some a) /\
    stdout w'.2 = stdout w.2 ++ (match r with Ok _ => lines | Err _ => [] end) /\
    forall a, r = Ok a -> Q a.

Lemma prints_ret {A} (a : A) (Q : A -> Prop) : Q a -> prints [] (mret a : W A) Q.
Proof.
  intros HQ w r w' [= <- <-]. split; [done|]. split; [by rewrite app_nil_r|].
  by intros ? [= <-].
Qed.

Lemma prints_bind {A B} lines (m : W A) (f : A -> W B) (Q : A -> Prop) (P : B -> Prop) :
  prints [] m Q -> (forall a, Q a -> prints lines (f a) P) ->
  prints lines (m ≫= f) P.
Proof.
  intros Hm Hf w r w'. unfold mbind, W_bind.
  destruct (m w) as [[a|e] w1] eqn:Hmw.
  - destruct (Hm _ _ _ Hmw) as (Hh & Hout & HQ). simpl in Hout.
    rewrite app_nil_r in Hout.
    intros Hrun. destruct (Hf a (HQ a eq_refl) _ _ _ Hrun) as (Hh' & Hout' & HP).
    split; [auto|]. split; [by rewrite Hout', Hout|done].
  - intros [= <- <-]. destruct (Hm _ _ _ Hmw) as (Hh & Hout & _).
    split; [done|]. split; [done|done].
Qed.

Lemma prints_random {A} (m : R A) : prints [] (random m) (fun _ => True).
Proof.
  intros [g s] r w'. unfold random. simpl. destruct (m g) as [r' g1].
  intros [= <- <-]. simpl. split; [done|]. split; [|done].
  destruct r'; by rewrite app_nil_r.
Qed.

Lemma prints_stored {A} (m : M A) :
  silent m -> leaves_arrays m -> prints [] (stored m) (fun _ => True).
Proof.
  intros Hs Hl [g s] r w'. unfold stored. simpl. destruct (m s) as [r' s1] eqn:Hm.
  intros [= <- <-]. simpl. split; [by eapply Hl|].
  split; [|done]. destruct r'; rewrite app_nil_r; by eapply Hs.
Qed.

Lemma leaves_reading {A} Y D X (f : vector -> list Z -> matrix -> result A) :
  leaves_arrays (reading Y D X f).
Proof. apply preserves_leaves. intros n. apply preserves_reading. Qed.

Lemma leaves_alloc a : leaves_arrays (alloc a).
Proof.
  apply preserves_leaves. intros n.
  eapply preserves_weaken; [apply preserves_alloc|done].
Qed.

Lemma leaves_lift {A} (r : result A) : leaves_arrays (lift r).
Proof. apply preserves_leaves. intros n. apply preserves_lift. Qed.

(** The lines printed for the repetitions [a], ..., [a + n - 1]: one after
    every tenth repetition, when progress is reported. *)
Definition progress_lines (print_progress : bool) (B a n : nat) : list string :=
  flat_map (fun i => if print_progress && ((i + 1) mod 10 =? 0)
                     then [progress (i + 1) B] else [])
           (seq a n).

(** The four arrays hold [B] estimates each. *)
Definition filled (B : nat) (est : estimates) : Prop :=
  let '(ATT_true, ATT_syn, ATT_match, ATT_ols) := est in
  length ATT_true = B /\ length ATT_syn = B /\ length ATT_match = B /\
  length ATT_ols = B.

Lemma MonteCarlo_step_prints B para nonlinear print_progress i acc :
  filled B acc ->
  prints (if print_progress && ((i + 1) mod 10 =? 0) then [progress (i + 1) B] else [])
    (MonteCarlo_step B para nonlinear print_progress i acc) (filled B).
Proof.
  destruct acc as [[[T S] M'] O]. intros (HT & HS & HM & HO).
  unfold MonteCarlo_step.
  eapply prints_bind; [apply prints_random|]. intros [[[Yv Dv] Xv] [[Y_0 Y_1]|]] _.
  2:{ intros w r w' Hrun.
      destruct (prints_stored (lift (Err ValueError)) (silent_lift _) (leaves_lift _)
                  w r w' Hrun) as (Hh & Hout & _).
      split; [done|]. split; [|intros a ->; by destruct w].
      unfold stored, lift in Hrun. destruct w. injection Hrun as <- <-.
      by rewrite app_nil_r. }
  eapply prints_bind; [apply prints_stored; [apply silent_alloc|apply leaves_alloc]|].
  intros Y _.
  eapply prints_bind; [apply prints_stored; [apply silent_alloc|apply leaves_alloc]|].
  intros D _.
  eapply prints_bind; [apply prints_stored; [apply silent_alloc|apply leaves_alloc]|].
  intros X _.
  eapply prints_bind; [apply prints_stored; [apply silent_lift|apply leaves_lift]|].
  intros t _.
  eapply prints_bind; [apply prints_stored; [apply silent_reading|apply leaves_reading]|].
  intros syn _.
  eapply prints_bind; [apply prints_stored; [apply silent_reading|apply leaves_reading]|].
  intros mat _.
  eapply prints_bind; [apply prints_stored; [apply silent_reading|apply leaves_reading]|].
  intros ols _.
  assert (filled B (<[i:=t]> T, <[i:=syn]> S, <[i:=mat]> M', <[i:=ols]> O)) as Hfill
    by (unfold filled; by rewrite !length_insert).
  destruct (print_progress && ((i + 1) mod 10 =? 0)).
  - intros [g s] r w'. unfold mbind, W_bind, stored, print, mret, W_ret. simpl.
    intros [= <- <-]. simpl. split; [done|]. split; [done|]. by intros ? [= <-].
  - eapply prints_bind; [by apply (prints_ret () (fun _ => True))|].
    intros _ _. by apply prints_ret.
Qed.

Lemma MonteCarlo_loop B para nonlinear print_progress : forall n a acc w r w',
  filled B acc ->
  for_range (seq a n) (MonteCarlo_step B para nonlinear print_progress) acc w = (r, w') ->
  (forall l x, heap w.2 !! l = Some x -> heap w'.2 !! l = Some x) /\
  exists n', n' <= n /\
    stdout w'.2 = stdout w.2 ++ progress_lines print_progress B a n' /\
    forall est, r = Ok est -> n' = n /\ filled B est.
Proof.
  induction n as [|n IH]; intros a acc w r w' Hacc; simpl.
  - intros [= <- <-]. split; [done|]. exists 0. split; [done|].
    split; [by rewrite app_nil_r|]. by intros ? [= <-].
  - unfold mbind at 1, W_bind at 1.
    destruct (MonteCarlo_step B para nonlinear print_progress a acc w)
      as [[acc1|e] w1] eqn:Hstep.
    + destruct (MonteCarlo_step_prints B para nonlinear print_progress a acc Hacc
                  _ _ _ Hstep) as (Hh & Hout & Hfill).
      intros Hrest.
      destruct (IH (S a) acc1 w1 r w' (Hfill _ eq_refl) Hrest)
        as (Hh' & n' & Hn' & Hout' & Hok).
      split; [auto|]. exists (S n'). split; [lia|]. split.
      * rewrite Hout', Hout. unfold progress_lines. simpl. by rewrite app_assoc.
      * intros est Hest. destruct (Hok est Hest) as [-> ?]. done.
    + intros [= <- <-].
      destruct (MonteCarlo_step_prints B para nonlinear print_progress a acc Hacc
                  _ _ _ Hstep) as (Hh & Hout & _).
      split; [done|]. exists 0. split; [lia|]. split; [done|done].
Qed.

(** Among the first [n] repetitions every tenth one is reported. *)
Lemma progress_lines_count B n : length (progress_lines true B 0 n) = n / 10.
Proof.
  unfold progress_lines. induction n as [|n IH]; [done|].
  rewrite seq_S, flat_map_app, length_app, IH. cbn [flat_map andb Nat.add].
  rewrite app_nil_r. replace (n + 1) with (S n) by lia.
  destruct (Nat.eqb_spec (S n mod 10) 0) as [E|E]; cbn [length].
  - pose proof (Nat.div_mod_eq (S n) 10). pose proof (Nat.div_mod_eq n 10).
    pose proof (Nat.mod_upper_bound n 10). lia.
  - pose proof (Nat.div_mod_eq (S n) 10). pose proof (Nat.div_mod_eq n 10).
    pose proof (Nat.mod_upper_bound n 10). pose proof (Nat.mod_upper_bound (S n) 10).
    lia.
Qed.

(** X14.  [MonteCarlo] creates arrays of its own and changes none that
    exists already.  Its only output is the progress report: one line after
    every tenth completed repetition, that is [n // 10] lines for [n]
    completed repetitions, and none without [print_progress].  When it
    returns, all [B] repetitions have been completed and each of the four
    arrays holds [B] estimates; an exception in any repetition ends the
    experiment without a result. *)
Theorem X14_monte_carlo_report B para nonlinear print_progress g s r g' s' :
  MonteCarlo B para nonlinear print_progress (g, s) = (r, (g', s')) ->
  (forall l a, heap s !! l = Some a -> heap s' !! l = Some a) /\
  exists n, n <= B /\
    stdout s' = stdout s ++ progress_lines print_progress B 0 n /\
    length (progress_lines true B 0 n) = n / 10 /\
    progress_lines false B 0 n = [] /\
    forall ATT_true ATT_syn ATT_match ATT_ols,
      r = Ok (ATT_true, ATT_syn, ATT_match, ATT_ols) ->
      n = B /\ length ATT_true = B /\ length ATT_syn = B /\
      length ATT_match = B /\ length ATT_ols = B.
Proof.
  unfold MonteCarlo. intros Hrun.
  assert (filled B (replicate B (Fin 0), replicate B (Fin 0), replicate B (Fin 0),
                    replicate B (Fin 0))) as Hinit
    by (unfold filled; by rewrite !length_replicate).
  destruct (MonteCarlo_loop B para nonlinear print_progress B 0 _ _ _ _ Hinit Hrun)
    as (Hh & n & Hn & Hout & Hok).
  split; [done|]. exists n. split_and!; try done.
  - apply progress_lines_count.
  - unfold progress_lines. clear. generalize 0. induction n as [|n IH]; intros a; [done|].
    simpl. apply IH.
  - intros T S M' O Hr. destruct (Hok _ Hr) as [-> (? & ? & ? & ?)]. done.
Qed.

(** ** Properties of the mean squared errors *)

(** A value that is not negative: NaN, [+inf], or a real [q >= 0]. *)
Definition not_negative (x : float) : Prop :=
  match x with
  | NInf => False
  | Fin q => (0 <= q)%Q
  | _ => True
  end.

Lemma square_not_negative x : not_negative (fmul x x).
Proof.
  destruct x as [| | |a]; simpl; try done.
  rewrite Qred_correct. apply Qsquare_nonneg.
Qed.

Lemma fadd_not_negative x y : not_negative x -> not_negative y -> not_negative (fadd x y).
Proof.
  destruct x as [| | |a], y as [| | |b]; simpl; try done.
  intros Ha Hb. rewrite Qred_correct. lra.
Qed.

Lemma fsum_not_negative (v : vector) : Forall not_negative v -> not_negative (fsum v).
Proof.
  induction 1 as [|x v Hx _ IH]; [apply Qle_refl|].
  rewrite fsum_cons. by apply fadd_not_negative.
Qed.

Lemma fdiv_not_negative x n : not_negative x -> not_negative (fdiv x (of_nat n)).
Proof.
  unfold of_nat, of_Z. destruct x as [| | |a]; try done.
  - intros _. unfold fdiv. rewrite Qsign_inject_Z.
    by destruct (Z.compare_spec (Z.of_nat n) 0); try lia.
  - intros Ha. simpl in Ha. unfold fdiv. rewrite Qsign_inject_Z.
    destruct (Z.compare_spec (Z.of_nat n) 0) as [E|E|E]; try lia.
    + unfold Qsign. destruct (Z.compare_spec (Qnum a) 0) as [E'|E'|E']; try done.
      unfold Qle in Ha. simpl in Ha. lia.
    + simpl. rewrite Qred_correct. apply Qle_shift_div_l.
      * unfold Qlt, inject_Z. simpl. lia.
      * lra.
Qed.

(** A mean of squares is never negative. *)
Lemma mean_squares_not_negative (v : vector) :
  not_negative (mean (map (fun x => fmul x x) v)).
Proof.
  unfold mean. apply fdiv_not_negative, fsum_not_negative.
  apply Forall_forall. intros y (x & -> & _)%list_elem_of_fmap.
  apply square_not_negative.
Qed.

Lemma W_bind_Ok {A B} (m : W A) (f : A -> W B) w b w' :
  (m ≫= f) w = (Ok b, w') -> exists a w1, m w = (Ok a, w1) /\ f a w1 = (Ok b, w').
Proof.
  unfold mbind, W_bind. destruct (m w) as [[a|e] w1]; [eauto|done].
Qed.

Lemma stored_lift_Ok {A} (r : result A) w a w' :
  stored (lift r) w = (Ok a, w') -> r = Ok a /\ w' = w.
Proof. unfold stored, lift. destruct w. by intros [= -> <-]. Qed.

(** X15.  [CalculateMSE] never uses its argument [para]: the samples are
    drawn with the default parameters whatever it is given.  Each value it
    returns is the mean of squared differences and so is never negative;
    it always reports progress, and for [B = 0] the three values are NaN,
    the mean of nothing. *)
Theorem X15_calculate_mse B para para' nonlinear w :
  CalculateMSE B para nonlinear w = CalculateMSE B para' nonlinear w /\
  (forall a b m, mean_squared_error a b = Ok m -> not_negative m) /\
  (forall MSE_syn MSE_match MSE_ols w',
     CalculateMSE B para nonlinear w = (Ok (MSE_syn, MSE_match, MSE_ols), w') ->
     not_negative MSE_syn /\ not_negative MSE_match /\ not_negative MSE_ols /\
     stdout w'.2 = stdout w.2 ++ progress_lines true B 0 B /\
     (B = 0 -> MSE_syn = NaN /\ MSE_match = NaN /\ MSE_ols = NaN)).
Proof.
  split; [reflexivity|].
  assert (forall a b m, mean_squared_error a b = Ok m -> not_negative m) as Hmse.
  { intros a b m. unfold mean_squared_error. intros (d & _ & [= <-])%bind_Ok.
    apply mean_squares_not_negative. }
  split; [exact Hmse|].
  intros m1 m2 m3 w'. unfold CalculateMSE.
  intros ([[[T S] M'] O] & w1 & HMC & Hrest)%W_bind_Ok.
  apply W_bind_Ok in Hrest as (a1 & w2 & [H1 ->]%stored_lift_Ok & Hrest).
  apply W_bind_Ok in Hrest as (a2 & w3 & [H2 ->]%stored_lift_Ok & Hrest).
  apply W_bind_Ok in Hrest as (a3 & w4 & [H3 ->]%stored_lift_Ok & Hrest).
  injection Hrest as <- <- <- <-.
  assert (filled B (replicate B (Fin 0), replicate B (Fin 0), replicate B (Fin 0),
                    replicate B (Fin 0))) as Hinit
    by (unfold filled; by rewrite !length_replicate).
  destruct (MonteCarlo_loop B default_parameters nonlinear true B 0 _ _ _ _ Hinit HMC)
    as (_ & n & _ & Hout & Hok).
  destruct (Hok _ eq_refl) as [-> (HT & HS & HM & HO)].
  split_and!; eauto.
  intros ->. apply nil_length_0 in HT, HS, HM, HO. subst.
  vm_compute in H1, H2, H3. by injection H1 as <-; injection H2 as <-; injection H3 as <-.
Qed.

End Simulation.

(** ** A generator without randomness

    The draws are read off a counter of the calls made so far; it stands
    in for NumPy's generator where the simulation is run on concrete
    data. *)

Module Fixed.

Definition rng : Type := nat.

Definition multivariate_normal (mean : vector) (cov : matrix) (size : nat) (g : rng)
  : result matrix * rng :=
  (Ok (map (fun i => map (fun m => fadd m (of_nat (i * S g))) mean) (seq 0 size)),
   S g).

Definition binomial (p : float) (g : rng) : result Z * rng :=
  (Ok (Z.of_nat (g mod 2)), S g).

Definition norm_cdf (x : float) : float := Fin (1 # 2).

End Fixed.

Lemma Fixed_multivariate_normal_spec mean cov size g X g' :
  real_vec mean ->
  Fixed.multivariate_normal mean cov size g = (Ok X, g') ->
  length X = size /\ is_matrix (length mean) X /\ real_matrix X.
Proof.
  intros Hm [= <- <-]. split; [by rewrite length_map, length_seq|]. split.
  - apply Forall_forall. intros r (i & -> & _)%list_elem_of_fmap. apply length_map.
  - apply Forall_forall. intros r (i & -> & _)%list_elem_of_fmap.
    apply Forall_forall. intros y (m & -> & Hin)%list_elem_of_fmap.
    apply (proj1 (Forall_forall _ _) Hm) in Hin. by destruct (real_inv _ Hin) as [q ->].
Qed.

Lemma Fixed_binomial_spec p g d g' :
  Fixed.binomial p g = (Ok d, g') -> d = 0%Z \/ d = 1%Z.
Proof.
  intros [= <- <-]. pose proof (Nat.mod_upper_bound g 2). lia.
Qed.

(** ** Further examples *)

(** Two treated units and no control. *)
Definition ex5_Y : vector := map of_Z [1; 2]%Z.
Definition ex5_D : list Z := [1; 1]%Z.
Definition ex5_X : matrix := map (map of_Z) [[1]; [2]]%Z.
Definition ex5_state : state :=
  mkState [FloatArr ex5_Y; IntArr ex5_D; FloatMat ex5_X] [].

(** Four units, one of them with the treatment code 2, and the same sample
    without that unit. *)
Definition ex6_Y : vector := map of_Z [1; 2; 3; 4]%Z.
Definition ex6_D : list Z := [0; 2; 1; 1]%Z.
Definition ex6_X : matrix := map (map of_Z) [[1]; [5]; [2]; [3]]%Z.
Definition ex6_state : state :=
  mkState [FloatArr ex6_Y; IntArr ex6_D; FloatMat ex6_X] [].
Definition ex6_dropped : state :=
  mkState [FloatArr (map of_Z [1; 3; 4]%Z); IntArr [0; 1; 1]%Z;
           FloatMat (map (map of_Z) [[1]; [2]; [3]]%Z)] [].

(** Two units and a covariate matrix without columns. *)
Definition ex7_state : state :=
  mkState [FloatArr (map of_Z [1; 2]%Z); IntArr [0; 1]%Z; FloatMat [[]; []]] [].

Lemma X2_witness :
  N_control ex1_D < N_treated ex1_D /\
  exists r,
    MatchingEstimates Ref.Logit_predict Ref.OLS_params Ref.inv Ref.argsort
      0 1 2 true false ex1_state = (r, ex1_state) /\
    MatchingEstimates Ref.Logit_predict Ref.OLS_params Ref.inv Ref.argsort
      0 1 2 false false ex1_state = (r, mkState (heap ex1_state) [notice]).
Proof.
  assert (N_control ex1_D < N_treated ex1_D) as Hlt by (vm_compute; lia).
  split; [exact Hlt|].
  apply (X2_estimates_fallback Ref.Logit_predict Ref.OLS_params Ref.inv Ref.argsort
           ex1_state 0 1 2 ex1_D false eq_refl).
  - repeat (constructor; [auto|]). constructor.
  - exact Hlt.
Defined.

Lemma X3_witness :
  N_treated ex3_D = 0 /\
  MatchingWithReplacement Ref.OLS_params Ref.inv 0 1 2 true false ex3_state
  = (Ok NaN, ex3_state) /\
  SyntheticEstimates Ref.lstsq 0 1 2 true ex3_state = (Ok NaN, ex3_state).
Proof.
  split; [reflexivity|].
  exact (X3_no_treated_unit Ref.OLS_params Ref.lstsq Ref.inv ex3_state 0 1 2
           ex3_Y ex3_D ex3_X true true eq_refl eq_refl eq_refl eq_refl eq_refl eq_refl).
Defined.

Lemma X4_witness :
  (N_control ex5_D = 0 /\ 1 <= N_treated ex5_D) /\
  MatchingWithReplacement Ref.OLS_params Ref.inv 0 1 2 false true ex5_state
  = (Err ValueError, ex5_state) /\
  MatchingWithoutReplacement Ref.Logit_predict Ref.OLS_params Ref.inv Ref.argsort
    0 1 2 false true ex5_state
  = (Err ValueError, mkState (heap ex5_state) [notice]).
Proof.
  assert (1 <= N_treated ex5_D) as Ht by (vm_compute; lia).
  split; [split; [reflexivity|exact Ht]|].
  destruct (X4_no_control_unit Ref.Logit_predict Ref.OLS_params Ref.inv Ref.argsort
              ex5_state 0 1 2 ex5_Y ex5_D ex5_X false true
              eq_refl eq_refl eq_refl eq_refl eq_refl eq_refl Ht) as [Hwith Hwithout].
  split; [exact Hwith|]. apply Hwithout.
  repeat (constructor; [auto|]). constructor.
Defined.

Lemma ex_Y_real : real_vec ex_Y.
Proof. repeat constructor. Qed.





Lemma X9_witness :
  coded ex6_D = [true; false; true; true] /\
  (SyntheticEstimates Ref.lstsq 0 1 2 false ex6_state).1
  = (SyntheticEstimates Ref.lstsq 0 1 2 false ex6_dropped).1 /\
  (MatchingWithReplacement Ref.OLS_params Ref.inv 0 1 2 false false ex6_state).1
  = (MatchingWithReplacement Ref.OLS_params Ref.inv 0 1 2 false false ex6_dropped).1.
Proof.
  split; [reflexivity|].
  exact (X9_other_codes_dropped Ref.OLS_params Ref.lstsq Ref.inv false false
           ex6_state 0 1 2 ex6_dropped 0 1 2 ex6_Y ex6_D ex6_X
           eq_refl eq_refl eq_refl eq_refl eq_refl eq_refl eq_refl eq_refl).
Defined.

Lemma X10_witness :
  (indicator ex3_D /\ N_treated ex3_D = 0) /\
  OLSEstimates (fun _ _ => Ok (replicate 6 (Fin 1))) 0 1 2 ex3_state
  = (Ok NaN, ex3_state).
Proof.
  assert (indicator ex3_D) as Hind by (repeat (constructor; [auto|]); constructor).
  split; [split; [exact Hind|reflexivity]|].
  destruct (X10_ols_no_treated_unit (fun _ _ => Ok (replicate 6 (Fin 1)))
              ex3_state 0 1 2 ex3_Y ex3_D ex3_X 2 eq_refl eq_refl eq_refl
              (le_S _ _ (le_n 1)) ltac:(repeat constructor) ltac:(repeat constructor)
              ltac:(discriminate) Hind eq_refl) as [_ Hret].
  exact (Hret (replicate 6 (Fin 1)) eq_refl eq_refl eq_refl).
Defined.

Lemma X11_witness :
  is_matrix 0 [[]; []] /\
  OLSEstimates (fun _ _ => Ok [Fin 1; Fin 2]) 0 1 2 ex7_state
  = (Err ValueError, ex7_state).
Proof.
  assert (is_matrix 0 [[]; []]) as Hk by repeat constructor.
  split; [exact Hk|].
  destruct (X11_ols_no_covariate (fun _ _ => Ok [Fin 1; Fin 2])
              ex7_state 0 1 2 (map of_Z [1; 2]%Z) [0; 1]%Z [[]; []]
              eq_refl eq_refl eq_refl ltac:(discriminate) Hk) as [_ Hraise].
  exact (Hraise [Fin 1; Fin 2] eq_refl eq_refl (le_n 2)).
Defined.


Lemma X13_witness :
  exists smp g',
    SimulateData Fixed.rng Fixed.multivariate_normal Fixed.binomial Fixed.norm_cdf
      (parameters_init 6 1) true false 0 = (Ok smp, g').
Proof.
  apply (X13_parameters_consistent Fixed.rng Fixed.multivariate_normal Fixed.binomial
           Fixed.norm_cdf Fixed_multivariate_normal_spec 6 1 true false).
  - intros g. eexists _, _. reflexivity.
  - intros g. eexists _, _. reflexivity.
  - intros x g. eexists _, _. reflexivity.
Defined.

Lemma X14_witness :
  exists r g' s',
    MonteCarlo Fixed.rng Fixed.multivariate_normal Fixed.binomial Fixed.norm_cdf
      Ref.Logit_predict Ref.OLS_params Ref.lstsq Ref.inv Ref.argsort
      20 (parameters_init 6 1) false true (0, mkState [] []) = (Ok r, (g', s')) /\
    stdout s' = ["10 out of 20 simulations completed.";
                 "20 out of 20 simulations completed."] /\
    exists n, n <= 20 /\
      stdout s' = [] ++ progress_lines true 20 0 n /\
      length (progress_lines true 20 0 n) = n / 10.
Proof.
  destruct (MonteCarlo Fixed.rng Fixed.multivariate_normal Fixed.binomial Fixed.norm_cdf
              Ref.Logit_predict Ref.OLS_params Ref.lstsq Ref.inv Ref.argsort
              20 (parameters_init 6 1) false true (0, mkState [] []))
    as [[r|e] [g' s']] eqn:Hrun; [|vm_compute in Hrun; discriminate Hrun].
  exists r, g', s'. split; [reflexivity|].
  split; [vm_compute in Hrun; by injection Hrun as _ _ <-|].
  destruct (X14_monte_carlo_report Fixed.rng Fixed.multivariate_normal Fixed.binomial
              Fixed.norm_cdf Ref.Logit_predict Ref.OLS_params Ref.lstsq Ref.inv
              Ref.argsort 20 (parameters_init 6 1) false true 0 (mkState [] [])
              (Ok r) g' s' Hrun) as (_ & n & Hn & Hout & Hcount & _).
  exists n. exact (conj Hn (conj Hout Hcount)).
Defined.

Lemma X15_witness :
  mean_squared_error [Fin 1; Fin 2] [Fin 3; Fin 5] = Ok (Fin (13 # 2)) /\
  not_negative (Fin (13 # 2)) /\
  CalculateMSE Fixed.rng Fixed.multivariate_normal Fixed.binomial Fixed.norm_cdf
    Ref.Logit_predict Ref.OLS_params Ref.lstsq Ref.inv Ref.argsort
    0 (parameters_init 6 1) false (0, mkState [] [])
  = (Ok (NaN, NaN, NaN), (0, mkState [] [])).
Proof.
  assert (mean_squared_error [Fin 1; Fin 2] [Fin 3; Fin 5] = Ok (Fin (13 # 2))) as Hrun
    by (vm_compute; reflexivity).
  destruct (X15_calculate_mse Fixed.rng Fixed.multivariate_normal Fixed.binomial
              Fixed.norm_cdf Ref.Logit_predict Ref.OLS_params Ref.lstsq Ref.inv
              Ref.argsort 0 (parameters_init 6 1) default_parameters false
              (0, mkState [] [])) as (_ & Hmse & _).
  split; [exact Hrun|]. split; [exact (Hmse _ _ _ Hrun)|]. vm_compute. reflexivity.
Defined.
